(** * Boundary element integration core of BEMFUN: a shallow embedding

    The development follows three translation units of the repository:

    - [bemintreg3ddiag.cpp]: three-dimensional regular integration with the
      diagonal (self term) correction, in dense mode and in the mode where
      a selection [s] of output entries is passed;
    - the two-dimensional singular integrator [bemintsing2d];
    - the entry points [Integrate*] of the [bemmat] MEX file, which validate
      the description of the Green's function and allocate the matrices.

    Doubles are IEEE binary64 values ([PrimFloat.float]), one rounding per
    operation of the source expression.  [unsigned int] is 32 bits wide and
    wraps.  A [double*] is the address space reachable from the pointer:
    cell [i] is what [p[i]] denotes, whether or not it lies inside the
    allocation. *)

From Stdlib Require Import ZArith List Bool Lia Ascii String PrimFloat.
Import ListNotations.
Open Scope Z_scope.

(** Arithmetic on doubles, written so that array indices stay integers. *)
Infix ".+" := PrimFloat.add (at level 50, left associativity).
Infix ".-" := PrimFloat.sub (at level 50, left associativity).
Infix ".*" := PrimFloat.mul (at level 40, left associativity).

(** ** Machine integers *)

(** [unsigned int] arithmetic: the value of an expression of that type.
    The conversion of an [int] to [unsigned int] is the same function. *)
Definition u32 (z : Z) : Z := z mod 2 ^ 32.

(** ** Arrays and loops *)

Definition darray := Z -> float.
Definition iarray := Z -> Z.
Definition barray := Z -> bool.

Definition upd (a : darray) (i : Z) (v : float) : darray :=
  fun j => if j =? i then v else a j.

(** [for (i = lo; i < lo + k; i++) body] *)
Fixpoint for_from {S : Type} (k : nat) (i : Z) (body : Z -> S -> S) (s : S) : S :=
  match k with
  | O => s
  | S k' => for_from k' (i + 1) body (body i s)
  end.

(** [for (unsigned int i = 0; i < n; i++) body] *)
Definition for_loop {S : Type} (n : Z) (body : Z -> S -> S) (s : S) : S :=
  for_from (Z.to_nat n) 0 body s.

(** The values taken by the loop variable, in order. *)
Fixpoint range_from (k : nat) (i : Z) : list Z :=
  match k with
  | O => []
  | S k' => i :: range_from k' (i + 1)
  end.

Definition range (n : Z) : list Z := range_from (Z.to_nat n) 0.

(** A block of statements executed in sequence. *)
Definition block {S : Type} (stmts : list (S -> S)) (s : S) : S :=
  fold_left (fun acc stmt => stmt acc) stmts s.

Definition when {S : Type} (c : bool) (stmt : S -> S) : S -> S :=
  if c then stmt else fun s => s.

(** ** [sign] and [sqr], the inline helpers of the integrators *)

Definition sign (a : float) : float :=
  if PrimFloat.eqb a 0%float then 1%float
  else (if PrimFloat.ltb 0%float a then 1%float else (-1)%float).

Definition sqr (a : float) : float := a .* a.

(** ** Output buffers, working storage and the trace of effects *)

Inductive buf := URe | UIm | TRe | TIm.

Definition buf_eqb (a b : buf) : bool :=
  match a, b with
  | URe, URe | UIm, UIm | TRe, TRe | TIm, TIm => true
  | _, _ => false
  end.

(** What a run does that can be seen from outside the routine, in order of
    execution: compound assignments to the four output buffers, text
    printed, and the calls of the evaluator of the Green's function. *)
Inductive event :=
| EAdd (b : buf) (i : Z) (v : float)
| ESub (b : buf) (i : Z) (v : float)
| EPrint (msg : string)
| EEval2d (xiR xiZ Xsgn : float)
| EEval3d (xiR xiZ xiTheta : float).

(** The locals that the evaluator and the rotation of the Green's function
    receive by reference: the state of the table search and the component
    arrays. *)
Record Work := mkWork {
  r1 : Z; r2 : Z; z1 : Z; z2 : Z; zs1 : Z;
  extrapFlag : bool;
  interpr : darray; interpz : darray;
  UgrRe : darray; UgrIm : darray;
  TgrRe : darray; TgrIm : darray;
  Tgr0Re : darray; Tgr0Im : darray;
  UXiRe : darray; UXiIm : darray;
  TXiRe : darray; TXiIm : darray;
  TXi0Re : darray; TXi0Im : darray
}.

Record St := mkSt {
  mem : buf -> darray;
  wk : Work;
  trace : list event
}.

(** [b[i] += v] *)
Definition add_at (b : buf) (i : Z) (v : float) (s : St) : St :=
  mkSt (fun b' => if buf_eqb b' b then upd (mem s b) i (mem s b i .+ v)
                  else mem s b')
       (wk s) (trace s ++ [EAdd b i v]).

(** [b[i] -= v] *)
Definition sub_at (b : buf) (i : Z) (v : float) (s : St) : St :=
  mkSt (fun b' => if buf_eqb b' b then upd (mem s b) i (mem s b i .- v)
                  else mem s b')
       (wk s) (trace s ++ [ESub b i v]).

(** [mexPrintf(msg)] *)
Definition mexPrintf (msg : string) (s : St) : St :=
  mkSt (mem s) (wk s) (trace s ++ [EPrint msg]).

Definition set_wk (w : Work) (s : St) : St := mkSt (mem s) w (trace s).

Definition log (e : event) (s : St) : St := mkSt (mem s) (wk s) (trace s ++ [e]).

(** Replaying a trace on the buffers. *)
Definition replay1 (m : buf -> darray) (e : event) : buf -> darray :=
  match e with
  | EAdd b i v =>
      fun b' => if buf_eqb b' b then upd (m b) i (m b i .+ v) else m b'
  | ESub b i v =>
      fun b' => if buf_eqb b' b then upd (m b) i (m b i .- v) else m b'
  | _ => m
  end.

Definition replay (m : buf -> darray) (es : list event) : buf -> darray :=
  fold_left replay1 es m.

Definition is_store (e : event) : bool :=
  match e with EAdd _ _ _ | ESub _ _ _ => true | _ => false end.

Definition is_sub (e : event) : bool :=
  match e with ESub _ _ _ => true | _ => false end.

Definition store_buf (e : event) : option buf :=
  match e with EAdd b _ _ | ESub b _ _ => Some b | _ => None end.

(** A routine that may leave through [throw]: the state reached is kept,
    since the stores made before the exception are not undone. *)
Inductive outcome :=
| Done (s : St)
| Thrown (msg : string) (s : St).

Fixpoint for_fromE (k : nat) (i : Z) (body : Z -> St -> outcome) (s : St) : outcome :=
  match k with
  | O => Done s
  | S k' =>
      match body i s with
      | Done s' => for_fromE k' (i + 1) body s'
      | Thrown msg s' => Thrown msg s'
      end
  end.

Definition for_loopE (n : Z) (body : Z -> St -> outcome) (s : St) : outcome :=
  for_fromE (Z.to_nat n) 0 body s.



(** ** Interfaces of the other translation units

    The integrators call routines that are declared in headers
    ([eltdef.h], [shapefun.h], [gausspw.h], [bemnormal.h],
    [bemcollpoints.h], [greeneval2d.h], [greeneval3d.h],
    [greenrotate2d.h], [greenrotate3d.h], [math.h]).  They are taken as
    an interface.  Output arrays are returned as values; the arguments the
    evaluator and the rotation receive by reference or through pointers are
    the record [Work], so these routines cannot reach the output buffers. *)

Record EltProps := mkEltProps {
  Parent : Z; p_nEltNod : Z; p_nEltColl : Z;
  ShapeTypeN : Z; ShapeTypeM : Z; p_EltDim : Z;
  p_AxiSym : Z; p_Periodic : Z;
  p_nGauss : Z; p_nEltDiv : Z; p_nGaussSing : Z; p_nEltDivSing : Z
}.

Class Externals := {
  GreenPtr : Type;
  TypeTable : Type;
  (** contents of storage obtained from [new] and not yet assigned *)
  indet : darray;
  (** value of an [unsigned int] that was declared and not assigned *)
  indet_uint : Z;
  atan2 : float -> float -> float;
  double_to_uint : float -> Z;
  eltdef : Z -> TypeTable -> EltProps;
  BemNodeIndex : darray -> Z -> Z -> Z;
  gausspw1D : Z -> Z -> darray * darray;
  shapefun : Z -> Z -> darray -> darray;
  shapederiv : Z -> Z -> darray -> darray;
  shapenatcoord : darray -> Z -> Z -> darray -> Z -> darray;
  jacobian : darray -> Z -> Z -> darray;
  bemnormal : darray -> Z -> Z -> darray;
  greeneval2d :
    GreenPtr -> Z -> Z -> Z -> bool -> bool -> bool ->
    float -> float -> float -> bool -> darray -> Z -> Z -> Z -> Work -> Work;
  greenrotate2d :
    darray -> Z -> Z -> Z -> bool -> bool -> bool -> Work -> Work;
  greeneval3d :
    GreenPtr -> Z -> bool -> bool -> bool ->
    float -> float -> bool -> bool -> darray -> Z -> Z -> Z -> Work -> Work;
  greenrotate3d :
    darray -> Z -> float -> Z -> bool -> bool -> bool -> bool -> bool ->
    Work -> Work
}.

(** Quantities every integrator derives from the shape functions. *)
Record Geom := mkGeom {
  nat_ : darray;
  Jac : darray;
  xiCart : darray;
  normal : darray
}.

(** Fresh working storage: the search indices as the source initialises
    them, every array unassigned. *)
Definition fresh_work {E : Externals} : Work :=
  mkWork 0 1 0 1 0 false indet indet
         indet indet indet indet indet indet
         indet indet indet indet indet indet.

(** [TXiRe[iComp]=0.0; TXiIm[iComp]=0.0; TXi0Re[iComp]=0.0; TXi0Im[iComp]=0.0;] *)
Definition zero_TXi (iComp : Z) (w : Work) : Work :=
  mkWork (r1 w) (r2 w) (z1 w) (z2 w) (zs1 w) (extrapFlag w)
         (interpr w) (interpz w)
         (UgrRe w) (UgrIm w) (TgrRe w) (TgrIm w) (Tgr0Re w) (Tgr0Im w)
         (UXiRe w) (UXiIm w)
         (upd (TXiRe w) iComp 0%float) (upd (TXiIm w) iComp 0%float)
         (upd (TXi0Re w) iComp 0%float) (upd (TXi0Im w) iComp 0%float).

(** ** [bemintreg3ddiag.cpp] *)

Module Reg3d.
Section Defs.
Context {E : Externals}.

(** The arguments the routine uses.  ([Nod], the type tables, [ondiag]
    and the columns of the element catalogue that only commented-out code
    refers to are not read; [Elt] is read for the local [EltType], which is
    not used.) *)
Record Args := mkArgs {
  iElt : Z;
  Coll : darray; nColl : Z;
  RegularColl : iarray; EltCollIndex : iarray;
  nDof : Z;
  greenPtr : GreenPtr; nGrSet : Z;
  ugCmplx : bool; tgCmplx : bool; tg0Cmplx : bool;
  UmatOut : bool; TmatOut : bool;
  spassed : bool; ms : Z; ns : Z;
  scompi : iarray;
  uniquescolli : iarray; Nuniquescolli : iarray; nuniquescolli : iarray;
  uniquescolliind : iarray;
  scollj : iarray; scompj : iarray;
  InListuniquecollj : barray;
  inddiag : iarray;
  blockdiag : barray;
  nEltNod : iarray; nEltColl : iarray; EltDim : iarray;
  EltNod : darray;
  nXi : Z; H : darray; N : darray; M : darray; dN : darray
}.

(** Cartesian coordinates of the sample points. *)
Definition xiCart_of (a : Args) : darray :=
  let nen := nEltNod a (iElt a) in
  let x0 := for_loop (u32 (3 * nXi a)) (fun icomp x => upd x icomp 0%float) indet in
  for_loop (nXi a) (fun iXi =>
    for_loop nen (fun iEltNod x =>
      let x := upd x (u32 (3 * iXi + 0))
                 (x (u32 (3 * iXi + 0))
                  .+ N a (u32 (nen * iXi + iEltNod)) .* EltNod a (u32 (0 * nen + iEltNod))) in
      let x := upd x (u32 (3 * iXi + 1))
                 (x (u32 (3 * iXi + 1))
                  .+ N a (u32 (nen * iXi + iEltNod)) .* EltNod a (u32 (1 * nen + iEltNod))) in
      upd x (u32 (3 * iXi + 2))
            (x (u32 (3 * iXi + 2))
             .+ N a (u32 (nen * iXi + iEltNod)) .* EltNod a (u32 (2 * nen + iEltNod)))))
    x0.

Definition geometry (a : Args) : Geom :=
  let nt := shapenatcoord (dN a) (nEltNod a (iElt a)) (nXi a) (EltNod a) (EltDim a (iElt a)) in
  mkGeom nt
         (jacobian nt (nXi a) (EltDim a (iElt a)))
         (xiCart_of a)
         (if TmatOut a then bemnormal nt (nXi a) (EltDim a (iElt a)) else indet).

Definition init_work (a : Args) : Work :=
  for_loop (u32 (9 * nGrSet a)) zero_TXi fresh_work.

(** Offset of sample point [iXi] from collocation point [iColl], in
    cylindrical coordinates. *)
Definition Xdiff (a : Args) (g : Geom) (iColl iXi : Z) : float :=
  xiCart g (u32 (3 * iXi + 0)) .- Coll a (u32 (2 * nColl a + iColl)).
Definition Ydiff (a : Args) (g : Geom) (iColl iXi : Z) : float :=
  xiCart g (u32 (3 * iXi + 1)) .- Coll a (u32 (3 * nColl a + iColl)).
Definition Zdiff (a : Args) (g : Geom) (iColl iXi : Z) : float :=
  xiCart g (u32 (3 * iXi + 2)) .- Coll a (u32 (4 * nColl a + iColl)).

Definition xiR (a : Args) (g : Geom) (iColl iXi : Z) : float :=
  PrimFloat.sqrt (Xdiff a g iColl iXi .* Xdiff a g iColl iXi
                  .+ Ydiff a g iColl iXi .* Ydiff a g iColl iXi).
Definition xiTheta (a : Args) (g : Geom) (iColl iXi : Z) : float :=
  atan2 (Ydiff a g iColl iXi) (Xdiff a g iColl iXi).
Definition xiZ (a : Args) (g : Geom) (iColl iXi : Z) : float := Zdiff a g iColl iXi.

(** [// EVALUATE GREEN'S FUNCTION]: [greeneval3d] then [greenrotate3d], on
    the working storage. *)
Definition eval_work (a : Args) (g : Geom) (iColl iXi : Z) (w : Work) : Work :=
  greenrotate3d (normal g) iXi (xiTheta a g iColl iXi) (nGrSet a) (ugCmplx a) (tgCmplx a)
                (tg0Cmplx a) (UmatOut a) (TmatOut a)
    (greeneval3d (greenPtr a) (nGrSet a) (ugCmplx a) (tgCmplx a) (tg0Cmplx a)
                 (xiR a g iColl iXi) (xiZ a g iColl iXi) (UmatOut a) (TmatOut a)
                 (Coll a) (nColl a) iColl 4 w).

Definition eval_point (a : Args) (g : Geom) (iColl iXi : Z) (s : St) : St :=
  set_wk (eval_work a g iColl iXi (wk s))
         (log (EEval3d (xiR a g iColl iXi) (xiZ a g iColl iXi) (xiTheta a g iColl iXi)) s).

(** [double sumutil=H[iXi]*M[nEltColl[iElt]*iXi+iEltColl]*Jac[iXi];] *)
Definition sumutil (a : Args) (g : Geom) (iXi iEltColl : Z) : float :=
  H a iXi .* M a (u32 (nEltColl a (iElt a) * iXi + iEltColl)) .* Jac g iXi.

(** *** Dense mode: the body of the loop over the Green's function sets *)

Definition dense_grset (a : Args) (w : Work) (su : float)
           (rowBeg colBeg iGrSet : Z) : St -> St :=
  let ind0 := u32 (nDof a * nDof a * iGrSet) in
  let ix := fun c r => u32 (ind0 + nDof a * (colBeg + c) + rowBeg + r) in
  let dx := fun c r => u32 (ind0 + nDof a * (rowBeg + c) + rowBeg + r) in
  let k := fun j => u32 (9 * iGrSet + j) in
  block [
    add_at URe (ix 0 0) (su .* UXiRe w (k 0));
    add_at URe (ix 1 0) (su .* UXiRe w (k 1));
    add_at URe (ix 2 0) (su .* UXiRe w (k 2));
    add_at URe (ix 0 1) (su .* UXiRe w (k 3));
    add_at URe (ix 1 1) (su .* UXiRe w (k 4));
    add_at URe (ix 2 1) (su .* UXiRe w (k 5));
    add_at URe (ix 0 2) (su .* UXiRe w (k 6));
    add_at URe (ix 1 2) (su .* UXiRe w (k 7));
    add_at URe (ix 2 2) (su .* UXiRe w (k 8));
    when (ugCmplx a) (block [
      add_at UIm (ix 0 0) (su .* UXiIm w (k 0));
      add_at UIm (ix 1 0) (su .* UXiIm w (k 1));
      add_at UIm (ix 2 0) (su .* UXiIm w (k 2));
      add_at UIm (ix 0 1) (su .* UXiIm w (k 3));
      add_at UIm (ix 1 1) (su .* UXiIm w (k 4));
      add_at UIm (ix 2 1) (su .* UXiIm w (k 5));
      add_at UIm (ix 0 2) (su .* UXiIm w (k 6));
      add_at UIm (ix 1 2) (su .* UXiIm w (k 7));
      add_at UIm (ix 2 2) (su .* UXiIm w (k 8)) ]);
    when (TmatOut a) (block [
      add_at TRe (ix 0 0) (su .* TXiRe w (k 0));
      add_at TRe (ix 1 0) (su .* TXiRe w (k 1));
      add_at TRe (ix 2 0) (su .* TXiRe w (k 2));
      add_at TRe (ix 0 1) (su .* TXiRe w (k 3));
      add_at TRe (ix 1 1) (su .* TXiRe w (k 4));
      add_at TRe (ix 2 1) (su .* TXiRe w (k 5));
      add_at TRe (ix 0 2) (su .* TXiRe w (k 6));
      add_at TRe (ix 1 2) (su .* TXiRe w (k 7));
      add_at TRe (ix 2 2) (su .* TXiRe w (k 8));
      when (tgCmplx a) (block [
        add_at TIm (ix 0 0) (su .* TXiIm w (k 0));
        add_at TIm (ix 1 0) (su .* TXiIm w (k 1));
        add_at TIm (ix 2 0) (su .* TXiIm w (k 2));
        add_at TIm (ix 0 1) (su .* TXiIm w (k 3));
        add_at TIm (ix 1 1) (su .* TXiIm w (k 4));
        add_at TIm (ix 2 1) (su .* TXiIm w (k 5));
        add_at TIm (ix 0 2) (su .* TXiIm w (k 6));
        add_at TIm (ix 1 2) (su .* TXiIm w (k 7));
        add_at TIm (ix 2 2) (su .* TXiIm w (k 8)) ]);
      (* Account for singular part of Green's function on the diagonal terms. *)
      sub_at TRe (dx 0 0) (su .* TXi0Re w (k 0));
      sub_at TRe (dx 1 0) (su .* TXi0Re w (k 1));
      sub_at TRe (dx 2 0) (su .* TXi0Re w (k 2));
      sub_at TRe (dx 0 1) (su .* TXi0Re w (k 3));
      sub_at TRe (dx 1 1) (su .* TXi0Re w (k 4));
      sub_at TRe (dx 2 1) (su .* TXi0Re w (k 5));
      sub_at TRe (dx 0 2) (su .* TXi0Re w (k 6));
      sub_at TRe (dx 1 2) (su .* TXi0Re w (k 7));
      sub_at TRe (dx 2 2) (su .* TXi0Re w (k 8));
      when (tgCmplx a) (block [
        sub_at TIm (dx 0 0) (su .* TXi0Im w (k 0));
        sub_at TIm (dx 1 0) (su .* TXi0Im w (k 1));
        sub_at TIm (dx 2 0) (su .* TXi0Im w (k 2));
        sub_at TIm (dx 0 1) (su .* TXi0Im w (k 3));
        sub_at TIm (dx 1 1) (su .* TXi0Im w (k 4));
        sub_at TIm (dx 2 1) (su .* TXi0Im w (k 5));
        sub_at TIm (dx 0 2) (su .* TXi0Im w (k 6));
        sub_at TIm (dx 1 2) (su .* TXi0Im w (k 7));
        sub_at TIm (dx 2 2) (su .* TXi0Im w (k 8)) ]) ]) ].

(** [// SUM UP RESULTS, FOR ALL COLLOCATION POINTS] of the dense branch *)
Definition dense_sum (a : Args) (g : Geom) (iColl iXi : Z) (s : St) : St :=
  for_loop (nEltColl a (iElt a)) (fun iEltColl s =>
    let su := sumutil a g iXi iEltColl in
    let rowBeg := u32 (3 * iColl) in
    let colBeg := u32 (3 * EltCollIndex a iEltColl) in
    for_loop (nGrSet a) (fun iGrSet s => dense_grset a (wk s) su rowBeg colBeg iGrSet s) s) s.

Definition dense_point (a : Args) (g : Geom) (iColl iXi : Z) (s : St) : St :=
  dense_sum a g iColl iXi (eval_point a g iColl iXi s).

Definition dense_mode (a : Args) (g : Geom) (s : St) : St :=
  for_loop (nColl a) (fun iColl =>
    when (RegularColl a iColl =? 1) (for_loop (nXi a) (dense_point a g iColl))) s.

(** *** Selection mode: the branch taken when [blockdiag[iuniquescolli]] *)

Definition block_grset (a : Args) (w : Work) (su : float)
           (iuniquescolli iGrSet : Z) : St -> St :=
  let ind0 := u32 (ms a * ns a * iGrSet) in
  let sl := fun j => u32 (ind0 + u32 (inddiag a (u32 (9 * iuniquescolli + j)))) in
  let k := fun j => u32 (9 * iGrSet + j) in
  block [
    sub_at TRe (sl 0) (su .* TXi0Re w (k 0));
    sub_at TRe (sl 1) (su .* TXi0Re w (k 1));
    sub_at TRe (sl 2) (su .* TXi0Re w (k 2));
    sub_at TRe (sl 3) (su .* TXi0Re w (k 3));
    sub_at TRe (sl 4) (su .* TXi0Re w (k 4));
    sub_at TRe (sl 5) (su .* TXi0Re w (k 5));
    sub_at TRe (sl 6) (su .* TXi0Re w (k 6));
    sub_at TRe (sl 7) (su .* TXi0Re w (k 7));
    sub_at TRe (sl 8) (su .* TXi0Re w (k 8));
    when (tgCmplx a) (block [
      sub_at TIm (sl 0) (su .* TXi0Im w (k 0));
      sub_at TIm (sl 1) (su .* TXi0Im w (k 1));
      sub_at TIm (sl 2) (su .* TXi0Im w (k 2));
      sub_at TIm (sl 3) (su .* TXi0Im w (k 3));
      sub_at TIm (sl 4) (su .* TXi0Im w (k 4));
      sub_at TIm (sl 5) (su .* TXi0Im w (k 5));
      sub_at TIm (sl 6) (su .* TXi0Im w (k 6));
      sub_at TIm (sl 7) (su .* TXi0Im w (k 7));
      sub_at TIm (sl 8) (su .* TXi0Im w (k 8)) ]) ].

(** *** Selection mode: the other branch, for entry [q] of the selection *)

Definition pick_grset (a : Args) (w : Work) (su : float)
           (iuniquescolli q iGrSet : Z) : St -> St :=
  let ind0 := u32 (ms a * ns a * iGrSet) in
  let comp := 3 * scompi a q + scompj a q in
  let slot := inddiag a (u32 (9 * iuniquescolli + comp)) in
  when (negb (slot =? -1)) (block [
    sub_at TRe (u32 (ind0 + u32 slot)) (su .* TXi0Re w (u32 (9 * iGrSet + comp)));
    when (tgCmplx a)
      (sub_at TIm (u32 (ind0 + u32 slot)) (su .* TXi0Im w (u32 (9 * iGrSet + comp)))) ]).

Definition newline : string := String "010"%char EmptyString.

(** [// SUM UP RESULTS, FOR ALL COLLOCATION POINTS] of the selection branch;
    [cumul] is [nuniquescollicumul]. *)
Definition sel_sum (a : Args) (g : Geom) (cumul iuniquescolli iXi : Z) (s : St) : St :=
  for_loop (nEltColl a (iElt a)) (fun iEltColl s =>
    if blockdiag a iuniquescolli then
      let su := sumutil a g iXi iEltColl in
      for_loop (nGrSet a)
        (fun iGrSet s => block_grset a (wk s) su iuniquescolli iGrSet s) s
    else
      let s := mexPrintf ("FC Barcelona " ++ newline) s in
      if InListuniquecollj a (EltCollIndex a iEltColl) then
        let su := sumutil a g iXi iEltColl in
        for_loop (nuniquescolli a iuniquescolli) (fun iuniquescolliind s =>
          let q := uniquescolliind a (u32 (cumul + iuniquescolliind)) in
          if scollj a q =? EltCollIndex a iEltColl then
            for_loop (nGrSet a)
              (fun iGrSet s => pick_grset a (wk s) su iuniquescolli q iGrSet s) s
          else s) s
      else s) s.

Definition sel_point (a : Args) (g : Geom) (cumul iuniquescolli iXi : Z) (s : St) : St :=
  sel_sum a g cumul iuniquescolli iXi
          (eval_point a g (uniquescolli a iuniquescolli) iXi s).

Definition sel_step (a : Args) (g : Geom) (iuniquescolli : Z) (cs : Z * St) : Z * St :=
  (u32 (fst cs + nuniquescolli a iuniquescolli),
   when (RegularColl a (uniquescolli a iuniquescolli) =? 1)
        (for_loop (nXi a) (sel_point a g (fst cs) iuniquescolli)) (snd cs)).

Definition sel_mode (a : Args) (g : Geom) (s : St) : St :=
  snd (for_loop (Nuniquescolli a 0) (sel_step a g) (0, s)).

Definition bemintreg3ddiag (a : Args) (s : St) : St :=
  let g := geometry a in
  let s := set_wk (init_work a) s in
  if spassed a then sel_mode a g s else dense_mode a g s.

End Defs.
End Reg3d.

(** ** The two-dimensional singular integrator [bemintsing2d] *)

Module Sing2d.
Section Defs.
Context {E : Externals}.

Record Args := mkArgs {
  Nod : darray; nNod : Z;
  Elt : darray; iElt : Z; nElt : Z;
  types : TypeTable;
  Coll : darray; nColl : Z; iColl : Z;
  EltCollIndex : iarray; nDof : Z;
  greenPtr : GreenPtr; nGrSet : Z; nugComp : Z;
  ugCmplx : bool; tgCmplx : bool; tg0Cmplx : bool;
  UmatOut : bool; TmatOut : bool
}.

Definition EltType (a : Args) : Z := double_to_uint (Elt a (u32 (nElt a + iElt a))).

Definition props (a : Args) : EltProps := eltdef (EltType a) (types a).

(** [const unsigned int nXi=nEltDivSing*nGaussSing;] *)
Definition nXi (a : Args) : Z := u32 (p_nEltDivSing (props a) * p_nGaussSing (props a)).

(** Number of DOFs per collocation point: three [if]s on a variable that
    is declared without a value. *)
Definition nColDof (a : Args) : Z :=
  let v := indet_uint in
  let v := if nugComp a =? 1 then 1 else v in
  let v := if nugComp a =? 4 then 2 else v in
  if nugComp a =? 9 then 3 else v.

Definition ntgComp (a : Args) : Z :=
  let v := indet_uint in
  let v := if nugComp a =? 1 then 2 else v in
  let v := if nugComp a =? 4 then 6 else v in
  if nugComp a =? 9 then 18 else v.

(** Coordinates of the element nodes. *)
Definition EltNod (a : Args) : darray :=
  let nen := p_nEltNod (props a) in
  for_loop nen (fun iEltNod x =>
    let NodID := double_to_uint (Elt a (u32 ((2 + iEltNod) * nElt a + iElt a))) in
    let NodIndex := BemNodeIndex (Nod a) (nNod a) NodID in
    let x := upd x (u32 (0 * nen + iEltNod)) (Nod a (u32 (1 * nNod a + NodIndex))) in
    let x := upd x (u32 (1 * nen + iEltNod)) (Nod a (u32 (2 * nNod a + NodIndex))) in
    upd x (u32 (2 * nen + iEltNod)) (Nod a (u32 (3 * nNod a + NodIndex)))) indet.

(** Sample points and weights: [gausspw1D(nEltDivSing,nGaussSing,xi,H);] *)
Definition rule (a : Args) : darray * darray :=
  gausspw1D (p_nEltDivSing (props a)) (p_nGaussSing (props a)).

Definition xi (a : Args) : darray := fst (rule a).
Definition H (a : Args) : darray := snd (rule a).
Definition N (a : Args) : darray := shapefun (ShapeTypeN (props a)) (nXi a) (xi a).
Definition M (a : Args) : darray := shapefun (ShapeTypeM (props a)) (nXi a) (xi a).
Definition dN (a : Args) : darray := shapederiv (ShapeTypeN (props a)) (nXi a) (xi a).

Definition xiCart_of (a : Args) : darray :=
  let nen := p_nEltNod (props a) in
  let x0 := for_loop (u32 (2 * nXi a)) (fun icomp x => upd x icomp 0%float) indet in
  for_loop (nXi a) (fun iXi =>
    for_loop nen (fun iEltNod x =>
      let x := upd x (u32 (2 * iXi + 0))
                 (x (u32 (2 * iXi + 0))
                  .+ N a (u32 (nen * iXi + iEltNod)) .* EltNod a (u32 (0 * nen + iEltNod))) in
      upd x (u32 (2 * iXi + 1))
            (x (u32 (2 * iXi + 1))
             .+ N a (u32 (nen * iXi + iEltNod)) .* EltNod a (u32 (2 * nen + iEltNod)))))
    x0.

Definition geometry (a : Args) : Geom :=
  let nt := shapenatcoord (dN a) (p_nEltNod (props a)) (nXi a) (EltNod a)
                          (p_EltDim (props a)) in
  mkGeom nt
         (jacobian nt (nXi a) (p_EltDim (props a)))
         (xiCart_of a)
         (bemnormal nt (nXi a) (p_EltDim (props a))).

Definition init_work (a : Args) : Work :=
  for_loop (u32 (nColDof a * nColDof a * nGrSet a)) zero_TXi fresh_work.

(** [double sumutil=H[iXi]*M[nEltColl*iXi+iEltColl]*Jac[iXi];] *)
Definition sumutil (a : Args) (g : Geom) (iXi iEltColl : Z) : float :=
  H a iXi .* M a (u32 (p_nEltColl (props a) * iXi + iEltColl)) .* Jac g iXi.

(** The body of the loop over the Green's function sets. *)
Definition sing_grset (a : Args) (w : Work) (su : float)
           (rowBeg colBeg iGrSet : Z) : St -> St :=
  let ind0 := u32 (nDof a * nDof a * iGrSet) in
  let ix := fun c r => u32 (ind0 + nDof a * (colBeg + c) + rowBeg + r) in
  let dx := fun c r => u32 (ind0 + nDof a * (rowBeg + c) + rowBeg + r) in
  if nugComp a =? 1 then
    block [
      add_at URe (ix 0 0) (su .* UgrRe w (u32 (nugComp a * iGrSet + 0)));
      when (ugCmplx a) (block [
        add_at UIm (ix 0 0) (su .* UgrIm w (u32 (nugComp a * iGrSet + 0))) ]);
      when (TmatOut a) (block [
        add_at TRe (ix 0 0) (su .* TXiRe w (u32 (1 * iGrSet + 0)));
        when (tgCmplx a) (block [
          add_at TIm (ix 0 0) (su .* TXiIm w (u32 (1 * iGrSet + 0))) ]);
        (* Account for singular part of Green's function on the diagonal. *)
        sub_at TRe (dx 0 0) (su .* TXi0Re w (u32 (1 * iGrSet + 0)));
        when (tg0Cmplx a) (block [
          sub_at TIm (dx 0 0) (su .* TXi0Im w (u32 (1 * iGrSet + 0))) ]) ]) ]
  else if nugComp a =? 4 then
    block [
      add_at URe (ix 0 0) (su .* UgrRe w (u32 (nugComp a * iGrSet + 0)));
      add_at URe (ix 1 0) (su .* UgrRe w (u32 (nugComp a * iGrSet + 1)));
      add_at URe (ix 0 1) (su .* UgrRe w (u32 (nugComp a * iGrSet + 2)));
      add_at URe (ix 1 1) (su .* UgrRe w (u32 (nugComp a * iGrSet + 3)));
      when (ugCmplx a) (block [
        add_at UIm (ix 0 0) (su .* UgrIm w (u32 (nugComp a * iGrSet + 0)));
        add_at UIm (ix 1 0) (su .* UgrIm w (u32 (nugComp a * iGrSet + 1)));
        add_at UIm (ix 0 1) (su .* UgrIm w (u32 (nugComp a * iGrSet + 2)));
        add_at UIm (ix 1 1) (su .* UgrIm w (u32 (nugComp a * iGrSet + 3))) ]);
      when (TmatOut a) (block [
        add_at TRe (ix 0 0) (su .* TXiRe w (u32 (4 * iGrSet + 0)));
        add_at TRe (ix 1 0) (su .* TXiRe w (u32 (4 * iGrSet + 1)));
        add_at TRe (ix 0 1) (su .* TXiRe w (u32 (4 * iGrSet + 2)));
        add_at TRe (ix 1 1) (su .* TXiRe w (u32 (4 * iGrSet + 3)));
        when (tgCmplx a) (block [
          add_at TIm (ix 0 0) (su .* TXiIm w (u32 (4 * iGrSet + 0)));
          add_at TIm (ix 1 0) (su .* TXiIm w (u32 (4 * iGrSet + 1)));
          add_at TIm (ix 0 1) (su .* TXiIm w (u32 (4 * iGrSet + 2)));
          add_at TIm (ix 1 1) (su .* TXiIm w (u32 (4 * iGrSet + 3))) ]);
        (* Account for singular part of Green's function on the diagonal. *)
        sub_at TRe (dx 0 0) (su .* TXi0Re w (u32 (4 * iGrSet + 0)));
        sub_at TRe (dx 1 0) (su .* TXi0Re w (u32 (4 * iGrSet + 1)));
        sub_at TRe (dx 0 1) (su .* TXi0Re w (u32 (4 * iGrSet + 2)));
        sub_at TRe (dx 1 1) (su .* TXi0Re w (u32 (4 * iGrSet + 3)));
        when (tg0Cmplx a) (block [
          sub_at TIm (dx 0 0) (su .* TXi0Im w (u32 (4 * iGrSet + 0)));
          sub_at TIm (dx 1 0) (su .* TXi0Im w (u32 (4 * iGrSet + 1)));
          sub_at TIm (dx 0 1) (su .* TXi0Im w (u32 (4 * iGrSet + 2)));
          sub_at TIm (dx 1 1) (su .* TXi0Im w (u32 (4 * iGrSet + 3))) ]) ]) ]
  else if nugComp a =? 9 then
    block [
      add_at URe (ix 0 0) (su .* UgrRe w (u32 (nugComp a * iGrSet + 0)));
      add_at URe (ix 1 0) (su .* UgrRe w (u32 (nugComp a * iGrSet + 1)));
      add_at URe (ix 2 0) (su .* UgrRe w (u32 (nugComp a * iGrSet + 2)));
      add_at URe (ix 0 1) (su .* UgrRe w (u32 (nugComp a * iGrSet + 3)));
      add_at URe (ix 1 1) (su .* UgrRe w (u32 (nugComp a * iGrSet + 4)));
      add_at URe (ix 2 1) (su .* UgrRe w (u32 (nugComp a * iGrSet + 5)));
      add_at URe (ix 0 2) (su .* UgrRe w (u32 (nugComp a * iGrSet + 6)));
      add_at URe (ix 1 2) (su .* UgrRe w (u32 (nugComp a * iGrSet + 7)));
      add_at URe (ix 2 2) (su .* UgrRe w (u32 (nugComp a * iGrSet + 8)));
      when (ugCmplx a) (block [
        add_at UIm (ix 0 0) (su .* UgrIm w (u32 (nugComp a * iGrSet + 0)));
        add_at UIm (ix 1 0) (su .* UgrIm w (u32 (nugComp a * iGrSet + 1)));
        add_at UIm (ix 2 0) (su .* UgrIm w (u32 (nugComp a * iGrSet + 2)));
        add_at UIm (ix 0 1) (su .* UgrIm w (u32 (nugComp a * iGrSet + 3)));
        add_at UIm (ix 1 1) (su .* UgrIm w (u32 (nugComp a * iGrSet + 4)));
        add_at UIm (ix 2 1) (su .* UgrIm w (u32 (nugComp a * iGrSet + 5)));
        add_at UIm (ix 0 2) (su .* UgrIm w (u32 (nugComp a * iGrSet + 6)));
        add_at UIm (ix 1 2) (su .* UgrIm w (u32 (nugComp a * iGrSet + 7)));
        add_at UIm (ix 2 2) (su .* UgrIm w (u32 (nugComp a * iGrSet + 8))) ]);
      when (TmatOut a) (block [
        add_at TRe (ix 0 0) (su .* TXiRe w (u32 (9 * iGrSet + 0)));
        add_at TRe (ix 1 0) (su .* TXiRe w (u32 (9 * iGrSet + 1)));
        add_at TRe (ix 2 0) (su .* TXiRe w (u32 (9 * iGrSet + 2)));
        add_at TRe (ix 0 1) (su .* TXiRe w (u32 (9 * iGrSet + 3)));
        add_at TRe (ix 1 1) (su .* TXiRe w (u32 (9 * iGrSet + 4)));
        add_at TRe (ix 2 1) (su .* TXiRe w (u32 (9 * iGrSet + 5)));
        add_at TRe (ix 0 2) (su .* TXiRe w (u32 (9 * iGrSet + 6)));
        add_at TRe (ix 1 2) (su .* TXiRe w (u32 (9 * iGrSet + 7)));
        add_at TRe (ix 2 2) (su .* TXiRe w (u32 (9 * iGrSet + 8)));
        when (tgCmplx a) (block [
          add_at TIm (ix 0 0) (su .* TXiIm w (u32 (9 * iGrSet + 0)));
          add_at TIm (ix 1 0) (su .* TXiIm w (u32 (9 * iGrSet + 1)));
          add_at TIm (ix 2 0) (su .* TXiIm w (u32 (9 * iGrSet + 2)));
          add_at TIm (ix 0 1) (su .* TXiIm w (u32 (9 * iGrSet + 3)));
          add_at TIm (ix 1 1) (su .* TXiIm w (u32 (9 * iGrSet + 4)));
          add_at TIm (ix 2 1) (su .* TXiIm w (u32 (9 * iGrSet + 5)));
          add_at TIm (ix 0 2) (su .* TXiIm w (u32 (9 * iGrSet + 6)));
          add_at TIm (ix 1 2) (su .* TXiIm w (u32 (9 * iGrSet + 7)));
          add_at TIm (ix 2 2) (su .* TXiIm w (u32 (9 * iGrSet + 8))) ]);
        (* Account for singular part of Green's function on the diagonal. *)
        sub_at TRe (dx 0 0) (su .* TXi0Re w (u32 (9 * iGrSet + 0)));
        sub_at TRe (dx 1 0) (su .* TXi0Re w (u32 (9 * iGrSet + 1)));
        sub_at TRe (dx 2 0) (su .* TXi0Re w (u32 (9 * iGrSet + 2)));
        sub_at TRe (dx 0 1) (su .* TXi0Re w (u32 (9 * iGrSet + 3)));
        sub_at TRe (dx 1 1) (su .* TXi0Re w (u32 (9 * iGrSet + 4)));
        sub_at TRe (dx 2 1) (su .* TXi0Re w (u32 (9 * iGrSet + 5)));
        sub_at TRe (dx 0 2) (su .* TXi0Re w (u32 (9 * iGrSet + 6)));
        sub_at TRe (dx 1 2) (su .* TXi0Re w (u32 (9 * iGrSet + 7)));
        sub_at TRe (dx 2 2) (su .* TXi0Re w (u32 (9 * iGrSet + 8)));
        when (tg0Cmplx a) (block [
          sub_at TIm (dx 0 0) (su .* TXi0Im w (u32 (9 * iGrSet + 0)));
          sub_at TIm (dx 1 0) (su .* TXi0Im w (u32 (9 * iGrSet + 1)));
          sub_at TIm (dx 2 0) (su .* TXi0Im w (u32 (9 * iGrSet + 2)));
          sub_at TIm (dx 0 1) (su .* TXi0Im w (u32 (9 * iGrSet + 3)));
          sub_at TIm (dx 1 1) (su .* TXi0Im w (u32 (9 * iGrSet + 4)));
          sub_at TIm (dx 2 1) (su .* TXi0Im w (u32 (9 * iGrSet + 5)));
          sub_at TIm (dx 0 2) (su .* TXi0Im w (u32 (9 * iGrSet + 6)));
          sub_at TIm (dx 1 2) (su .* TXi0Im w (u32 (9 * iGrSet + 7)));
          sub_at TIm (dx 2 2) (su .* TXi0Im w (u32 (9 * iGrSet + 8))) ]) ]) ]
  else fun s => s.

(** [// SUM UP RESULTS, FOR ALL COLLOCATION POINTS] *)
Definition sing_sum (a : Args) (g : Geom) (iXi : Z) (s : St) : St :=
  for_loop (p_nEltColl (props a)) (fun iEltColl s =>
    let su := sumutil a g iXi iEltColl in
    let rowBeg := u32 (nColDof a * iColl a) in
    let colBeg := u32 (nColDof a * EltCollIndex a iEltColl) in
    for_loop (nGrSet a)
      (fun iGrSet s => sing_grset a (wk s) su rowBeg colBeg iGrSet s) s) s.

Definition coincide_msg : string :=
  "An integration point coincides with the collocation point for singular integration.".

(** Offset of sample point [iXi] from the collocation point. *)
Definition Xdiff (a : Args) (g : Geom) (iXi : Z) : float :=
  xiCart g (u32 (2 * iXi + 0)) .- Coll a (u32 (2 * nColl a + iColl a)).
Definition Zdiff (a : Args) (g : Geom) (iXi : Z) : float :=
  xiCart g (u32 (2 * iXi + 1)) .- Coll a (u32 (4 * nColl a + iColl a)).

Definition xiR (a : Args) (g : Geom) (iXi : Z) : float := PrimFloat.abs (Xdiff a g iXi).
Definition xiZ (a : Args) (g : Geom) (iXi : Z) : float := Zdiff a g iXi.
Definition Xsgn (a : Args) (g : Geom) (iXi : Z) : float := sign (Xdiff a g iXi).

(** [(xiR==0)&(xiZ==0)] *)
Definition coincides (a : Args) (g : Geom) (iXi : Z) : bool :=
  PrimFloat.eqb (xiR a g iXi) 0%float && PrimFloat.eqb (xiZ a g iXi) 0%float.

(** [// EVALUATE GREEN'S FUNCTION]: [greeneval2d] then [greenrotate2d], on
    the working storage. *)
Definition eval_work (a : Args) (g : Geom) (iXi : Z) (w : Work) : Work :=
  greenrotate2d (normal g) iXi (nGrSet a) (ntgComp a) (tgCmplx a) (tg0Cmplx a) (TmatOut a)
    (greeneval2d (greenPtr a) (nGrSet a) (nugComp a) (ntgComp a)
                 (ugCmplx a) (tgCmplx a) (tg0Cmplx a)
                 (xiR a g iXi) (xiZ a g iXi) (Xsgn a g iXi)
                 (TmatOut a) (Coll a) (nColl a) (iColl a) 4 w).

Definition eval_point (a : Args) (g : Geom) (iXi : Z) (s : St) : St :=
  set_wk (eval_work a g iXi (wk s))
         (log (EEval2d (xiR a g iXi) (xiZ a g iXi) (Xsgn a g iXi)) s).

(** One sample point. *)
Definition sing_point (a : Args) (g : Geom) (iXi : Z) (s : St) : outcome :=
  if coincides a g iXi then Thrown coincide_msg s
  else Done (sing_sum a g iXi (eval_point a g iXi s)).

Definition bemintsing2d (a : Args) (s : St) : outcome :=
  let g := geometry a in
  let s := set_wk (init_work a) s in
  for_loopE (nXi a) (sing_point a g) s.

End Defs.
End Sing2d.

(** ** The entry points [Integrate*] of the MEX file *)

Module Mex.

(** What the MATLAB API reports about an input array. *)
Record mxArray := mkMx {
  mxIsNumeric : bool; mxIsSparse : bool; mxIsEmpty : bool; mxIsComplex : bool;
  mxGetNumberOfElements : Z;
  mxGetNumberOfDimensions : Z;
  mxGetDimensions : iarray;
  mxGetM : Z; mxGetN : Z;
  mxGetPr : darray;
  mxGetScalar : float
}.

(** An array created by [mxCreateNumericArray(.., mxDOUBLE_CLASS, ..)]. *)
Record mxOut := mkOut {
  out_dims : list Z;
  out_complex : bool
}.

(** The output arguments: [None] while [plhs[k]] has not been assigned. *)
Record Plhs := mkPlhs {
  plhs0 : option mxOut;
  plhs1 : option mxOut
}.

Inductive res (A : Type) :=
| OK (a : A)
| Err (msg : string).
Arguments OK {A} a.
Arguments Err {A} msg.

Definition bind {A B : Type} (m : res A) (k : A -> res B) : res B :=
  match m with
  | OK a => k a
  | Err msg => Err msg
  end.

Notation "m ;;; k" := (bind m (fun _ => k)) (at level 61, right associativity).

(** [if (c) throw(msg);] *)
Definition throw_if (c : bool) (msg : string) : res unit :=
  if c then Err msg else OK tt.

(** [for (unsigned int i=1; i<n; i++) if (!(a[i-1]<a[i])) throw(msg);] *)
Fixpoint increasing_from (k : nat) (i : Z) (a : darray) (msg : string) : res unit :=
  match k with
  | O => OK tt
  | S k' =>
      if negb (PrimFloat.ltb (a (u32 (i - 1))) (a i)) then Err msg
      else increasing_from k' (i + 1) a msg
  end.

Definition check_increasing (n : Z) (a : darray) (msg : string) : res unit :=
  increasing_from (Z.to_nat (n - 1)) 1 a msg.

(** [for (unsigned int iDim=1; iDim<n; iDim++) if (!(d[iDim]==e[iDim])) throw(msg);] *)
Fixpoint dims_agree_from (k : nat) (i : Z) (d e : iarray) (msg : string) : res unit :=
  match k with
  | O => OK tt
  | S k' =>
      if negb (d i =? e i) then Err msg else dims_agree_from k' (i + 1) d e msg
  end.

Definition check_dims_agree (n : Z) (d e : iarray) (msg : string) : res unit :=
  dims_agree_from (Z.to_nat (n - 1)) 1 d e msg.

(** What every entry point receives besides the mesh. *)
Record Common := mkCommon {
  probAxi : bool; probPeriodic : bool; probDim : Z;
  nTotalColl : Z;
  UmatOut : bool; TmatOut : bool;
  (** [s != 0] *)
  s_passed : bool; ms : Z; ns : Z
}.

Record Inputs := mkInputs {
  common : Common;
  nrhs : Z;
  prhs : Z -> mxArray;
  greenPos : Z
}.

Section Defs.
Context {E : Externals}.

(** *** [IntegrateGreenUser] *)

Definition arg (i : Inputs) (k : Z) : mxArray := prhs i (u32 (greenPos i + k)).

Definition nzs (i : Inputs) : Z := u32 (mxGetNumberOfElements (arg i 1)).
Definition nr (i : Inputs) : Z := u32 (mxGetNumberOfElements (arg i 2)).
Definition nz (i : Inputs) : Z := u32 (mxGetNumberOfElements (arg i 3)).
Definition zs (i : Inputs) : darray := mxGetPr (arg i 1).
Definition r (i : Inputs) : darray := mxGetPr (arg i 2).
Definition z (i : Inputs) : darray := mxGetPr (arg i 3).

Definition nugdim (i : Inputs) : Z := u32 (mxGetNumberOfDimensions (arg i 4)).
Definition ugdim (i : Inputs) : iarray := mxGetDimensions (arg i 4).
Definition nugComp (i : Inputs) : Z := u32 (ugdim i 0).

Definition nGreenDim (i : Inputs) : Z :=
  if nugdim i >? 4 then u32 (nugdim i - 4) else 1.

(** [greenDim] and [nGrSet] after the loop over the trailing dimensions of
    [ug]. *)
Definition greenDim (i : Inputs) : list Z :=
  if nugdim i >? 4
  then map (fun iDim => u32 (ugdim i iDim)) (range_from (Z.to_nat (nugdim i - 4)) 4)
  else [1].

Definition nGrSet (i : Inputs) : Z :=
  if nugdim i >? 4
  then fold_left (fun n iDim => u32 (n * ugdim i iDim))
                 (range_from (Z.to_nat (nugdim i - 4)) 4) 1
  else 1.

Definition ntgComp (i : Inputs) : Z :=
  let v := indet_uint in
  let v := if nugComp i =? 1 then 2 else v in
  let v := if nugComp i =? 4 then 6 else v in
  let v := if nugComp i =? 5 then 10 else v in
  if nugComp i =? 9 then 18 else v.

Definition nColDof (i : Inputs) : Z :=
  let v := indet_uint in
  let v := if nugComp i =? 1 then 1 else v in
  let v := if nugComp i =? 4 then 2 else v in
  let v := if (nugComp i =? 5) && negb (probAxi (common i)) then 3 else v in
  let v := if (nugComp i =? 5) && probAxi (common i) then 2 else v in
  if nugComp i =? 9 then 3 else v.

Definition ugCmplx (i : Inputs) : bool := mxIsComplex (arg i 4).
Definition tgCmplx (i : Inputs) : bool :=
  if TmatOut (common i) then mxIsComplex (arg i 5) else false.
Definition tg0Cmplx (i : Inputs) : bool :=
  if TmatOut (common i) then mxIsComplex (arg i 6) else false.

Definition nWave (i : Inputs) : Z :=
  if probPeriodic (common i) then u32 (mxGetNumberOfElements (arg i 8)) else 0.

(** The three tests every grid goes through, then the test of its order. *)
Definition check_grid (a : mxArray) (name : string) : res unit :=
  throw_if (negb (mxIsNumeric a)) ("Input argument '" ++ name ++ "' must be numeric.") ;;;
  throw_if (mxIsSparse a) ("Input argument '" ++ name ++ "' must not be sparse.") ;;;
  throw_if (mxIsEmpty a) ("Input argument '" ++ name ++ "' must not be empty.") ;;;
  check_increasing (u32 (mxGetNumberOfElements a)) (mxGetPr a)
    ("Input argument '" ++ name ++ "' must be monotonically increasing.").

Definition check_stress (i : Inputs) (k : Z) (name : string) : res unit :=
  let a := arg i k in
  throw_if (negb (mxIsNumeric a)) ("Input argument '" ++ name ++ "' must be numeric.") ;;;
  throw_if (mxIsSparse a) ("Input argument '" ++ name ++ "' must not be sparse.") ;;;
  throw_if (negb (mxGetDimensions a 0 =? ntgComp i))
    ("The first dimension of input argument '" ++ name ++ "' has incorrect size.") ;;;
  throw_if (negb (nugdim i =? u32 (mxGetNumberOfDimensions a)))
    ("Matrix dimensions of input arguments 'ug' and '" ++ name ++ "' must agree.") ;;;
  check_dims_agree (nugdim i) (ugdim i) (mxGetDimensions a)
    ("Matrix dimensions of input arguments 'ug' and '" ++ name ++ "' are incompatible.").

Definition check_real_scalar (a : mxArray) (name : string) : res unit :=
  throw_if (negb (mxIsNumeric a)) ("Input argument '" ++ name ++ "' must be numeric.") ;;;
  throw_if (mxIsSparse a) ("Input argument '" ++ name ++ "' must not be sparse.") ;;;
  throw_if (mxIsComplex a) ("Input argument '" ++ name ++ "' must be real.") ;;;
  throw_if (negb (mxGetNumberOfElements a =? 1))
    ("Input argument '" ++ name ++ "' must be a scalar.").

Definition check_real_vector (a : mxArray) (name : string) : res unit :=
  throw_if (negb (mxIsNumeric a)) ("Input argument '" ++ name ++ "' must be numeric.") ;;;
  throw_if (mxIsSparse a) ("Input argument '" ++ name ++ "' must not be sparse.") ;;;
  throw_if (mxIsComplex a) ("Input argument '" ++ name ++ "' must be real.") ;;;
  throw_if ((mxGetNumberOfDimensions a >? 2) || ((mxGetM a >? 1) && (mxGetN a >? 1)))
    ("Input argument '" ++ name ++ "' must be a scalar or a vector.").

(** Every [throw] of the function other than the ones after a failed
    [new], in the order of the source. *)
Definition validate (i : Inputs) : res unit :=
  let c := common i in
  (if probPeriodic c
   then throw_if (negb (nrhs i =? 13)) "Wrong number of input arguments."
   else
     throw_if (u32 (nrhs i) >? u32 (greenPos i + 7)) "Too many input arguments." ;;;
     throw_if (u32 (nrhs i) <? u32 (greenPos i + 5)) "Not enough input arguments.") ;;;
  check_grid (arg i 1) "zs" ;;;
  check_grid (arg i 2) "r" ;;;
  check_grid (arg i 3) "z" ;;;
  throw_if (negb (mxIsNumeric (arg i 4))) "Input argument 'ug' must be numeric." ;;;
  throw_if (mxIsSparse (arg i 4)) "Input argument 'ug' must not be sparse." ;;;
  throw_if (mxIsEmpty (arg i 4)) "Input argument 'ug' must not be empty." ;;;
  (if probDim c =? 2 then
     throw_if (negb (probAxi c)
               && negb ((nugComp i =? 1) || (nugComp i =? 4) || (nugComp i =? 9)))
       "The first dimension of input argument 'ug' for a 2D problem must be 1 (out-of-plane), 4 (in-plane) or 9 for a 2.5D problem." ;;;
     throw_if (probAxi c && negb (nugComp i =? 5))
       "The first dimension of input argument 'ug' must be 4 for an axisymmetric problem ."
   else if probDim c =? 3 then
     throw_if (negb (nugComp i =? 5))
       "The first dimension of input argument 'ug' must be 5 for a 3D problem."
   else OK tt) ;;;
  throw_if (negb (nzs i =? (if nugdim i >? 1 then ugdim i 1 else 1)))
    "Input arguments 'ug' and 'zs' are incompatible" ;;;
  throw_if (negb (nr i =? (if nugdim i >? 2 then ugdim i 2 else 1)))
    "Input arguments 'ug' and 'r' are incompatible" ;;;
  throw_if (negb (nz i =? (if nugdim i >? 3 then ugdim i 3 else 1)))
    "Input arguments 'ug' and 'z' are incompatible" ;;;
  (if TmatOut c then
     throw_if (u32 (nrhs i) <? u32 (greenPos i + 7)) "Not enough input arguments." ;;;
     check_stress i 5 "sg" ;;;
     check_stress i 6 "sg0"
   else OK tt) ;;;
  (if probPeriodic c then
     check_real_scalar (arg i 7) "L" ;;;
     check_real_vector (arg i 8) "ky" ;;;
     check_real_scalar (arg i 9) "nmax"
   else OK tt).

(** [uint64 nDof=nColDof*nTotalColl;]: the product is formed in
    [unsigned int]. *)
Definition nDof_of (nColDof : Z) (c : Common) : Z := u32 (nColDof * nTotalColl c).

(** [(s==0 ? nDof : ms)] and [(s==0 ? nDof : ns)] *)
Definition lead_dims (c : Common) (nDof : Z) : list Z :=
  [ (if s_passed c then ms c else nDof); (if s_passed c then ns c else nDof) ].

(** The arguments of the call of [bemmat] that the function computes. *)
Record Call := mkCall {
  c_nColDof : Z; c_nGrSet : Z; c_nugComp : Z;
  c_ugCmplx : bool; c_tgCmplx : bool; c_tg0Cmplx : bool;
  c_nWave : Z
}.

(** [// OUTPUT ARGUMENT POINTERS] of [IntegrateGreenUser] *)
Definition IntegrateGreenUser_outputs (i : Inputs) : Plhs :=
  let c := common i in
  let nDof := nDof_of (nColDof i) c in
  let MatDimU :=
    (if UmatOut c then lead_dims c nDof else [0; 0])
    ++ greenDim i ++ (if probPeriodic c then [nWave i] else []) in
  let uCmplx := if ugCmplx i || probPeriodic c then true else false in
  let tCmplx := if tgCmplx i || probPeriodic c then true else false in
  let MatDimT :=
    lead_dims c nDof ++ greenDim i ++ (if probPeriodic c then [nWave i] else []) in
  mkPlhs (Some (mkOut MatDimU uCmplx))
         (if TmatOut c then Some (mkOut MatDimT tCmplx) else None).

(** The function up to its call of [bemmat]: the exception it leaves
    through or the arguments of the call, and the output arguments as they
    are at that moment. *)
Definition IntegrateGreenUser (i : Inputs) : res Call * Plhs :=
  match validate i with
  | Err msg => (Err msg, mkPlhs None None)
  | OK _ =>
      (OK (mkCall (nColDof i) (nGrSet i) (nugComp i)
                  (ugCmplx i) (tgCmplx i) (tg0Cmplx i) (nWave i)),
       IntegrateGreenUser_outputs i)
  end.

(** *** The output arguments of the full space entry points

    For each function the section [// OUTPUT ARGUMENT POINTERS], with the
    constants the function defines before it; the sizes read from the
    arguments ([nFreq], [nWave], [nTime]) are parameters. *)

Definition IntegrateFsGreenf_outputs (c : Common) (nWave nFreq : Z) : Plhs :=
  let nColDof := 3 in
  let ugCmplx := true in
  let tgCmplx := true in
  let greenDim := [nWave; nFreq] in
  let nDof := nDof_of nColDof c in
  let MatDim := lead_dims c nDof ++ greenDim in
  mkPlhs (Some (mkOut MatDim ugCmplx))
         (if TmatOut c then Some (mkOut MatDim tgCmplx) else None).

Definition IntegrateFsGreen3d_outputs (c : Common) (nFreq nWave : Z) : Plhs :=
  let nColDof := if probAxi c then 2 else 3 in
  let ugCmplx := true in
  let tgCmplx := true in
  let greenDim := [nFreq] in
  let nDof := nDof_of nColDof c in
  let MatDim := lead_dims c nDof ++ greenDim ++ (if probPeriodic c then [nWave] else []) in
  let uCmplx := if ugCmplx || probPeriodic c then true else false in
  let tCmplx := if tgCmplx || probPeriodic c then true else false in
  mkPlhs (Some (mkOut MatDim uCmplx))
         (if TmatOut c then Some (mkOut MatDim tCmplx) else None).

Definition IntegrateFsGreen3d0_outputs (c : Common) (nWave : Z) : Plhs :=
  let nColDof := if probAxi c then 2 else 3 in
  let nFreq := 1 in
  let ugCmplx := false in
  let tgCmplx := false in
  let greenDim := [nFreq] in
  let nDof := nDof_of nColDof c in
  let MatDimU :=
    (if UmatOut c then lead_dims c nDof else [0; 0])
    ++ greenDim ++ (if probPeriodic c then [nWave] else []) in
  let uCmplx := if ugCmplx || probPeriodic c then true else false in
  let tCmplx := if tgCmplx || probPeriodic c then true else false in
  let MatDimT := lead_dims c nDof ++ greenDim ++ (if probPeriodic c then [nWave] else []) in
  mkPlhs (Some (mkOut MatDimU uCmplx))
         (if TmatOut c then Some (mkOut MatDimT tCmplx) else None).

Definition IntegrateFsGreen3dt_outputs (c : Common) (nTime : Z) : Plhs :=
  let nColDof := if probAxi c then 2 else 3 in
  let ugCmplx := false in
  let tgCmplx := false in
  let greenDim := [nTime] in
  let nDof := nDof_of nColDof c in
  let MatDim := lead_dims c nDof ++ greenDim in
  mkPlhs (Some (mkOut MatDim ugCmplx))
         (if TmatOut c then Some (mkOut MatDim tgCmplx) else None).

Definition IntegrateFsGreen2d_inplane_outputs (c : Common) (nFreq : Z) : Plhs :=
  let nColDof := 2 in
  let ugCmplx := true in
  let tgCmplx := true in
  let greenDim := [nFreq] in
  let nDof := nDof_of nColDof c in
  let MatDim := lead_dims c nDof ++ greenDim in
  mkPlhs (Some (mkOut MatDim ugCmplx))
         (if TmatOut c then Some (mkOut MatDim tgCmplx) else None).

Definition IntegrateFsGreen2d_inplane0_outputs (c : Common) : Plhs :=
  let nColDof := 2 in
  let nFreq := 1 in
  let ugCmplx := false in
  let tgCmplx := false in
  let greenDim := [nFreq] in
  let nDof := nDof_of nColDof c in
  let MatDim := lead_dims c nDof ++ greenDim in
  mkPlhs (Some (mkOut MatDim ugCmplx))
         (if TmatOut c then Some (mkOut MatDim tgCmplx) else None).

Definition IntegrateFsGreen2d_outofplane_outputs (c : Common) (nFreq : Z) : Plhs :=
  let nColDof := 1 in
  let ugCmplx := true in
  let tgCmplx := true in
  let greenDim := [nFreq] in
  let nDof := nDof_of nColDof c in
  let MatDim := lead_dims c nDof ++ greenDim in
  mkPlhs (Some (mkOut MatDim ugCmplx))
         (if TmatOut c then Some (mkOut MatDim tgCmplx) else None).

Definition IntegrateFsGreen2d_outofplane0_outputs (c : Common) : Plhs :=
  let nColDof := 1 in
  let nFreq := 1 in
  let ugCmplx := false in
  let tgCmplx := false in
  let greenDim := [nFreq] in
  let nDof := nDof_of nColDof c in
  let MatDim := lead_dims c nDof ++ greenDim in
  mkPlhs (Some (mkOut MatDim ugCmplx))
         (if TmatOut c then Some (mkOut MatDim tgCmplx) else None).

End Defs.
End Mex.

(** * Specifications

    The layout of the matrices and the terms the integrators contribute,
    written from the index formulas rather than statement by statement. *)

(** Flat index of entry [(row, col)] of slice [set] in a column-major
    [nRow] x [nCol] x ... array. *)
Definition flat (nRow nCol row col set : Z) : Z :=
  nRow * nCol * set + nRow * col + row.

(** The events a run appends to the trace. *)
Definition new_events (s s' : St) : list event :=
  skipn (List.length (trace s)) (trace s').

(** The values subtracted from buffer [b], in order. *)
Fixpoint contributions (b : buf) (es : list event) : list float :=
  match es with
  | [] => []
  | ESub b' _ v :: es' =>
      if buf_eqb b' b then v :: contributions b es' else contributions b es'
  | _ :: es' => contributions b es'
  end.

(** [s'] is reached from [s] by the events [es], the working storage being
    left as it was. *)
Definition emits (es : list event) (s s' : St) : Prop :=
  trace s' = trace s ++ es /\ mem s' = replay (mem s) es /\ wk s' = wk s.

(** [s'] is reached from [s] by events that all satisfy [Q]. *)
Definition runs (Q : event -> Prop) (s s' : St) : Prop :=
  exists es, trace s' = trace s ++ es /\ mem s' = replay (mem s) es /\ Forall Q es.

(** Components [0 .. n*n-1] of an [n] x [n] block: component [j] belongs to
    row [j / n] and column [j mod n]. *)
Definition comps (n : Z) : list Z := range (n * n).

(** The terms one Green's function set contributes in dense mode, for DOF
    blocks of size [n]: weight [su], rows at [rowBeg], columns at
    [colBeg] for the kernel itself and at [rowBeg] for its static part. *)
Definition acc_terms (b : buf) (nDof n : Z) (su : float) (ker : darray) (stride : Z)
           (rowBeg colBeg iGrSet : Z) : list event :=
  map (fun j => EAdd b (u32 (flat nDof nDof (rowBeg + j / n) (colBeg + j mod n) iGrSet))
                     (su .* ker (u32 (stride * iGrSet + j))))
      (comps n).

Definition sub_terms (b : buf) (nDof n : Z) (su : float) (ker : darray) (stride : Z)
           (rowBeg iGrSet : Z) : list event :=
  map (fun j => ESub b (u32 (flat nDof nDof (rowBeg + j / n) (rowBeg + j mod n) iGrSet))
                     (su .* ker (u32 (stride * iGrSet + j))))
      (comps n).

Definition opt {A : Type} (c : bool) (l : list A) : list A := if c then l else [].

(** The events of a loop whose iteration [j], entered with working storage
    [w], emits [F j w] and leaves the working storage [G j w]. *)
Fixpoint thread (F : Z -> Work -> list event) (G : Z -> Work -> Work)
         (l : list Z) (w : Work) : list event :=
  match l with
  | [] => []
  | j :: l' => F j w ++ thread F G l' (G j w)
  end.

(** [s'] is reached from [s] by the events [es] and has working storage
    [w']. *)
Definition steps (es : list event) (w' : Work) (s s' : St) : Prop :=
  trace s' = trace s ++ es /\ mem s' = replay (mem s) es /\ wk s' = w'.

(** What one Green's function set contributes in the dense branch of
    [bemintreg3ddiag]: the kernel at [(row block, column block)], its
    static part on the diagonal block of the row. *)
Definition dense_terms {E : Externals} (a : Reg3d.Args) (w : Work) (su : float)
           (rowBeg colBeg iGrSet : Z) : list event :=
  let n := Reg3d.nDof a in
  acc_terms URe n 3 su (UXiRe w) 9 rowBeg colBeg iGrSet
  ++ opt (Reg3d.ugCmplx a) (acc_terms UIm n 3 su (UXiIm w) 9 rowBeg colBeg iGrSet)
  ++ opt (Reg3d.TmatOut a)
       (acc_terms TRe n 3 su (TXiRe w) 9 rowBeg colBeg iGrSet
        ++ opt (Reg3d.tgCmplx a) (acc_terms TIm n 3 su (TXiIm w) 9 rowBeg colBeg iGrSet)
        ++ sub_terms TRe n 3 su (TXi0Re w) 9 rowBeg iGrSet
        ++ opt (Reg3d.tgCmplx a) (sub_terms TIm n 3 su (TXi0Im w) 9 rowBeg iGrSet)).

(** The same for [bemintsing2d], whose DOF blocks have size [nColDof];
    nothing is contributed unless [nugComp] is 1, 4 or 9. *)
Definition sing_terms {E : Externals} (a : Sing2d.Args) (w : Work) (su : float)
           (rowBeg colBeg iGrSet : Z) : list event :=
  let n := Sing2d.nDof a in
  let d := Sing2d.nColDof a in
  opt ((Sing2d.nugComp a =? 1) || (Sing2d.nugComp a =? 4) || (Sing2d.nugComp a =? 9))
    (acc_terms URe n d su (UgrRe w) (Sing2d.nugComp a) rowBeg colBeg iGrSet
     ++ opt (Sing2d.ugCmplx a)
          (acc_terms UIm n d su (UgrIm w) (Sing2d.nugComp a) rowBeg colBeg iGrSet)
     ++ opt (Sing2d.TmatOut a)
          (acc_terms TRe n d su (TXiRe w) (d * d) rowBeg colBeg iGrSet
           ++ opt (Sing2d.tgCmplx a)
                (acc_terms TIm n d su (TXiIm w) (d * d) rowBeg colBeg iGrSet)
           ++ sub_terms TRe n d su (TXi0Re w) (d * d) rowBeg iGrSet
           ++ opt (Sing2d.tg0Cmplx a)
                (sub_terms TIm n d su (TXi0Im w) (d * d) rowBeg iGrSet))).

(** Selection mode, a block flagged [blockdiag]: component [j] of the
    static part goes to slot [inddiag[9*iuniquescolli+j]] of slice
    [iGrSet] of the [ms] x [ns] output. *)
Definition slot_terms {E : Externals} (b : buf) (a : Reg3d.Args) (su : float)
           (ker : darray) (iuniquescolli iGrSet : Z) : list event :=
  map (fun j => ESub b (u32 (Reg3d.ms a * Reg3d.ns a * iGrSet
                             + Reg3d.inddiag a (u32 (9 * iuniquescolli + j))))
                     (su .* ker (u32 (9 * iGrSet + j))))
      (comps 3).

Definition block_terms {E : Externals} (a : Reg3d.Args) (w : Work) (su : float)
           (iuniquescolli iGrSet : Z) : list event :=
  slot_terms TRe a su (TXi0Re w) iuniquescolli iGrSet
  ++ opt (Reg3d.tgCmplx a) (slot_terms TIm a su (TXi0Im w) iuniquescolli iGrSet).

(** Selection mode, the other branch: entry [q] of the selection names one
    component; it is contributed when its slot is present. *)
Definition pick_terms {E : Externals} (a : Reg3d.Args) (w : Work) (su : float)
           (iuniquescolli q iGrSet : Z) : list event :=
  let comp := 3 * Reg3d.scompi a q + Reg3d.scompj a q in
  let slot := Reg3d.inddiag a (u32 (9 * iuniquescolli + comp)) in
  opt (negb (slot =? -1))
      (ESub TRe (u32 (Reg3d.ms a * Reg3d.ns a * iGrSet + slot))
            (su .* TXi0Re w (u32 (9 * iGrSet + comp)))
       :: opt (Reg3d.tgCmplx a)
            [ESub TIm (u32 (Reg3d.ms a * Reg3d.ns a * iGrSet + slot))
                  (su .* TXi0Im w (u32 (9 * iGrSet + comp)))]).

(** What [bemintreg3ddiag] contributes in dense mode at sample point [iXi]
    for collocation point [iColl], the working storage holding the kernel
    being [w]. *)
Definition dense_sum_terms {E : Externals} (a : Reg3d.Args) (g : Geom)
           (iColl iXi : Z) (w : Work) : list event :=
  flat_map (fun iEltColl =>
    flat_map (fun iGrSet =>
      dense_terms a w (Reg3d.sumutil a g iXi iEltColl)
                  (u32 (3 * iColl)) (u32 (3 * Reg3d.EltCollIndex a iEltColl)) iGrSet)
      (range (Reg3d.nGrSet a)))
    (range (Reg3d.nEltColl a (Reg3d.iElt a))).

Definition dense_point_terms {E : Externals} (a : Reg3d.Args) (g : Geom)
           (iColl iXi : Z) (w : Work) : list event :=
  EEval3d (Reg3d.xiR a g iColl iXi) (Reg3d.xiZ a g iColl iXi) (Reg3d.xiTheta a g iColl iXi)
  :: dense_sum_terms a g iColl iXi (Reg3d.eval_work a g iColl iXi w).

(** Of these, the subtractions of the static part: per element collocation
    shape function and per Green's function set, the nine components on
    the diagonal block of the collocation point, weighted by [sumutil]. *)
Definition static_terms {E : Externals} (a : Reg3d.Args) (g : Geom)
           (iColl iXi : Z) (w : Work) : list event :=
  flat_map (fun iEltColl =>
    flat_map (fun iGrSet =>
      sub_terms TRe (Reg3d.nDof a) 3 (Reg3d.sumutil a g iXi iEltColl) (TXi0Re w) 9
                (u32 (3 * iColl)) iGrSet
      ++ opt (Reg3d.tgCmplx a)
           (sub_terms TIm (Reg3d.nDof a) 3 (Reg3d.sumutil a g iXi iEltColl) (TXi0Im w) 9
                      (u32 (3 * iColl)) iGrSet))
      (range (Reg3d.nGrSet a)))
    (range (Reg3d.nEltColl a (Reg3d.iElt a))).

(** And the accumulations of the kernel itself. *)
Definition kernel_terms {E : Externals} (a : Reg3d.Args) (g : Geom)
           (iColl iXi : Z) (w : Work) : list event :=
  flat_map (fun iEltColl =>
    flat_map (fun iGrSet =>
      let su := Reg3d.sumutil a g iXi iEltColl in
      let rowBeg := u32 (3 * iColl) in
      let colBeg := u32 (3 * Reg3d.EltCollIndex a iEltColl) in
      acc_terms URe (Reg3d.nDof a) 3 su (UXiRe w) 9 rowBeg colBeg iGrSet
      ++ opt (Reg3d.ugCmplx a)
           (acc_terms UIm (Reg3d.nDof a) 3 su (UXiIm w) 9 rowBeg colBeg iGrSet)
      ++ acc_terms TRe (Reg3d.nDof a) 3 su (TXiRe w) 9 rowBeg colBeg iGrSet
      ++ opt (Reg3d.tgCmplx a)
           (acc_terms TIm (Reg3d.nDof a) 3 su (TXiIm w) 9 rowBeg colBeg iGrSet))
      (range (Reg3d.nGrSet a)))
    (range (Reg3d.nEltColl a (Reg3d.iElt a))).

Definition is_add (e : event) : bool :=
  match e with EAdd _ _ _ => true | _ => false end.

Definition is_eval (e : event) : bool :=
  match e with EEval2d _ _ _ | EEval3d _ _ _ => true | _ => false end.

(** What [bemintreg3ddiag] contributes in selection mode at sample point
    [iXi] for entry [iuniquescolli] of the list of selected collocation
    points. *)
Definition sel_sum_terms {E : Externals} (a : Reg3d.Args) (g : Geom)
           (cumul iuniquescolli iXi : Z) (w : Work) : list event :=
  flat_map (fun iEltColl =>
    let su := Reg3d.sumutil a g iXi iEltColl in
    if Reg3d.blockdiag a iuniquescolli then
      flat_map (fun iGrSet => block_terms a w su iuniquescolli iGrSet)
               (range (Reg3d.nGrSet a))
    else
      EPrint ("FC Barcelona " ++ Reg3d.newline)
      :: (if Reg3d.InListuniquecollj a (Reg3d.EltCollIndex a iEltColl) then
            flat_map (fun iuniquescolliind =>
              let q := Reg3d.uniquescolliind a (u32 (cumul + iuniquescolliind)) in
              if Reg3d.scollj a q =? Reg3d.EltCollIndex a iEltColl then
                flat_map (fun iGrSet => pick_terms a w su iuniquescolli q iGrSet)
                         (range (Reg3d.nGrSet a))
              else [])
              (range (Reg3d.nuniquescolli a iuniquescolli))
          else []))
    (range (Reg3d.nEltColl a (Reg3d.iElt a))).

(** What [bemintsing2d] contributes at sample point [iXi]. *)
Definition sing_sum_terms {E : Externals} (a : Sing2d.Args) (g : Geom)
           (iXi : Z) (w : Work) : list event :=
  flat_map (fun iEltColl =>
    flat_map (fun iGrSet =>
      sing_terms a w (Sing2d.sumutil a g iXi iEltColl)
                 (u32 (Sing2d.nColDof a * Sing2d.iColl a))
                 (u32 (Sing2d.nColDof a * Sing2d.EltCollIndex a iEltColl)) iGrSet)
      (range (Sing2d.nGrSet a)))
    (range (p_nEltColl (Sing2d.props a))).

(** Of these, the subtractions of the static part. *)
Definition sing_static_terms {E : Externals} (a : Sing2d.Args) (g : Geom)
           (iXi : Z) (w : Work) : list event :=
  flat_map (fun iEltColl =>
    flat_map (fun iGrSet =>
      let d := Sing2d.nColDof a in
      let su := Sing2d.sumutil a g iXi iEltColl in
      let rowBeg := u32 (d * Sing2d.iColl a) in
      opt ((Sing2d.nugComp a =? 1) || (Sing2d.nugComp a =? 4) || (Sing2d.nugComp a =? 9))
        (sub_terms TRe (Sing2d.nDof a) d su (TXi0Re w) (d * d) rowBeg iGrSet
         ++ opt (Sing2d.tg0Cmplx a)
              (sub_terms TIm (Sing2d.nDof a) d su (TXi0Im w) (d * d) rowBeg iGrSet)))
      (range (Sing2d.nGrSet a)))
    (range (p_nEltColl (Sing2d.props a))).

Definition sing_point_terms {E : Externals} (a : Sing2d.Args) (g : Geom)
           (iXi : Z) (w : Work) : list event :=
  EEval2d (Sing2d.xiR a g iXi) (Sing2d.xiZ a g iXi) (Sing2d.Xsgn a g iXi)
  :: sing_sum_terms a g iXi (Sing2d.eval_work a g iXi w).

(** The events and the working storage of the treatment of entry [i] of
    the list of selected collocation points, [cumul] being
    [nuniquescollicumul] when it is reached. *)
Definition sel_entry_terms {E : Externals} (a : Reg3d.Args) (g : Geom) (cumul i : Z)
           (w : Work) : list event :=
  opt (Reg3d.RegularColl a (Reg3d.uniquescolli a i) =? 1)
      (thread (fun iXi w =>
                 EEval3d (Reg3d.xiR a g (Reg3d.uniquescolli a i) iXi)
                         (Reg3d.xiZ a g (Reg3d.uniquescolli a i) iXi)
                         (Reg3d.xiTheta a g (Reg3d.uniquescolli a i) iXi)
                 :: sel_sum_terms a g cumul i iXi
                      (Reg3d.eval_work a g (Reg3d.uniquescolli a i) iXi w))
              (Reg3d.eval_work a g (Reg3d.uniquescolli a i)) (range (Reg3d.nXi a)) w).

Definition sel_entry_work {E : Externals} (a : Reg3d.Args) (g : Geom) (i : Z)
           (w : Work) : Work :=
  if Reg3d.RegularColl a (Reg3d.uniquescolli a i) =? 1
  then for_loop (Reg3d.nXi a) (Reg3d.eval_work a g (Reg3d.uniquescolli a i)) w
  else w.

(** The events of the entries [l] of the list, entered with the running
    sum [c] and the working storage [w]. *)
Fixpoint sel_thread {E : Externals} (a : Reg3d.Args) (g : Geom) (l : list Z) (c : Z)
         (w : Work) : list event :=
  match l with
  | [] => []
  | i :: l' =>
      sel_entry_terms a g c i w
      ++ sel_thread a g l' (u32 (c + Reg3d.nuniquescolli a i)) (sel_entry_work a g i w)
  end.

(** * Concrete inputs

    A one-node element with one sample point, and a Green's function every
    rotated component of which is one. *)

Module Fixtures.

Definition zeros : darray := fun _ => 0%float.
Definition ones : darray := fun _ => 1%float.

Definition unit_kernel (w : Work) : Work :=
  mkWork (r1 w) (r2 w) (z1 w) (z2 w) (zs1 w) (extrapFlag w) (interpr w) (interpz w)
         ones ones ones ones ones ones ones ones ones ones ones ones.

Definition ext : Externals :=
  {| GreenPtr := unit;
     TypeTable := unit;
     indet := zeros;
     indet_uint := 0;
     atan2 := fun _ _ => 0%float;
     double_to_uint := fun _ => 1;
     eltdef := fun _ _ => mkEltProps 1 1 1 1 1 1 0 0 4 2 1 1;
     BemNodeIndex := fun _ _ _ => 0;
     gausspw1D := fun _ _ => (zeros, ones);
     shapefun := fun _ _ _ => ones;
     shapederiv := fun _ _ _ => ones;
     shapenatcoord := fun _ _ _ _ _ => ones;
     jacobian := fun _ _ _ => ones;
     bemnormal := fun _ _ _ => ones;
     greeneval2d := fun _ _ _ _ _ _ _ _ _ _ _ _ _ _ _ w => w;
     greenrotate2d := fun _ _ _ _ _ _ _ w => unit_kernel w;
     greeneval3d := fun _ _ _ _ _ _ _ _ _ _ _ _ _ w => w;
     greenrotate3d := fun _ _ _ _ _ _ _ _ _ w => unit_kernel w |}.

Definition s0 : St := mkSt (fun _ => zeros) (@fresh_work ext) [].

Definition const (v : Z) : iarray := fun _ => v.

(** Dense mode: one regular collocation point, one Green's function set,
    traction requested. *)
Definition dense_args : @Reg3d.Args ext :=
  @Reg3d.mkArgs ext
    0 zeros 1 (const 1) (const 0) 3
    tt 1 false false false true true
    false 0 0
    (const 0) (const 0) (const 0) (const 0) (const 0) (const 0) (const 0)
    (fun _ => false) (const (-1)) (fun _ => false)
    (const 1) (const 1) (const 2) zeros
    1 ones ones ones ones.

(** Selection mode, not flagged [blockdiag]: the selected entry is
    component (0,0) and is present in slot 0; every other slot is absent. *)
Definition pick_args : @Reg3d.Args ext :=
  @Reg3d.mkArgs ext
    0 zeros 1 (const 1) (const 0) 3
    tt 2 false false false true true
    true 1 1
    (const 0) (const 0) (const 1) (const 1) (const 0) (const 0) (const 0)
    (fun _ => true) (fun k => if k =? 0 then 0 else -1) (fun _ => false)
    (const 1) (const 1) (const 2) zeros
    1 ones ones ones ones.

(** The same with the selected entry absent. *)
Definition absent_args : @Reg3d.Args ext :=
  @Reg3d.mkArgs ext
    0 zeros 1 (const 1) (const 0) 3
    tt 2 false false false true true
    true 1 1
    (const 0) (const 0) (const 1) (const 1) (const 0) (const 0) (const 0)
    (fun _ => true) (const (-1)) (fun _ => false)
    (const 1) (const 1) (const 2) zeros
    1 ones ones ones ones.

(** The node table [nodID x y z] of a mesh with one node. *)
Definition node (x y zc : float) : darray :=
  fun k => if k =? 1 then x else if k =? 2 then y else if k =? 3 then zc else 1%float.

(** Two-dimensional out-of-plane problem, the collocation point at the
    origin and the sample point at [(x, z)]. *)
Definition sing_args (x zc : float) : @Sing2d.Args ext :=
  @Sing2d.mkArgs ext
    (node x 0%float zc) 1
    ones 0 1
    tt
    zeros 1 0
    (const 0) 1
    tt 1 1
    false false false
    true true.


(** The sample point on the collocation point. *)
Definition on_args : @Sing2d.Args ext := sing_args 0%float 0%float.

Definition grid (l : list float) : Mex.mxArray :=
  Mex.mkMx true false false false (Z.of_nat (List.length l)) 2
           (fun k => if k =? 0 then Z.of_nat (List.length l) else 1)
           (Z.of_nat (List.length l)) 1
           (fun k => nth (Z.to_nat k) l 0%float) (nth 0 l 0%float).


(** A periodic problem without selection. *)
Definition periodic : Mex.Common :=
  Mex.mkCommon false true 3 4 true true false 0 0.

(** A problem without selection, both matrices requested. *)
Definition plain : Mex.Common :=
  Mex.mkCommon false false 3 4 true true false 0 0.

(** [bemmat(nod,elt,typ,'user',zs,r,z,ug)] with [zs = [1 1]]. *)
Definition flat_grid_inputs : Mex.Inputs :=
  Mex.mkInputs (Mex.mkCommon false false 3 4 true false false 0 0)
    8
    (fun k => if k =? 4 then grid [1%float; 1%float]
              else if k =? 5 then grid [0%float; 1%float]
              else if k =? 6 then grid [0%float; 1%float]
              else grid [1%float])
    3.

End Fixtures.

(** * The properties of the specification as predicates *)

(** The working storage after the sample points of collocation point
    [iColl] have been evaluated in dense mode. *)
Definition dense_work {E : Externals} (a : Reg3d.Args) (g : Geom) (iColl : Z)
           (w : Work) : Work :=
  if Reg3d.RegularColl a iColl =? 1
  then for_loop (Reg3d.nXi a) (Reg3d.eval_work a g iColl) w
  else w.

(** The events of one kind, [T iColl iXi w], of a whole run in dense mode:
    for every regular collocation point, for every sample point, with the
    kernel as evaluated at that sample point. *)
Definition per_sample_point {E : Externals} (a : Reg3d.Args) (g : Geom)
           (T : Z -> Z -> Work -> list event) : list event :=
  thread (fun iColl w =>
            opt (Reg3d.RegularColl a iColl =? 1)
                (thread (fun iXi w => T iColl iXi (Reg3d.eval_work a g iColl iXi w))
                        (Reg3d.eval_work a g iColl) (range (Reg3d.nXi a)) w))
         (dense_work a g) (range (Reg3d.nColl a)) (Reg3d.init_work a).

(** Every store is a subtraction from the traction buffers. *)
Definition traction_sub (e : event) : Prop :=
  is_store e = true ->
  is_sub e = true /\ (store_buf e = Some TRe \/ store_buf e = Some TIm).

(** Grid [a] of [n] points is strictly increasing. *)
Definition strictly_increasing (n : Z) (a : darray) : Prop :=
  forall i, 1 <= i < n -> PrimFloat.ltb (a (i - 1)) (a i) = true.

(** The matrices are complex exactly when the kernel is or the problem is
    periodic. *)
Definition complex_rule (p : Mex.Plhs) (ugCmplx tgCmplx probPeriodic : bool) : Prop :=
  (forall u, Mex.plhs0 p = Some u -> Mex.out_complex u = ugCmplx || probPeriodic)
  /\ (forall t, Mex.plhs1 p = Some t -> Mex.out_complex t = tgCmplx || probPeriodic).



(** * The runs against the interface, spelled out

    The statements about the weight, the quadrature rule and the
    arguments of the evaluator compare a run with what is written here
    with the functions of the interface themselves and the index formulas,
    not with the definitions of the embedding above. *)

(** The kernel at sample point [iXi] seen from collocation point [iColl]:
    the evaluator receives the radial distance and the vertical offset of
    the sample point, the rotation receives the angle. *)
Definition kernel3d {E : Externals} (a : Reg3d.Args) (g : Geom) (iColl iXi : Z)
           (w : Work) : Work :=
  let dx := xiCart g (u32 (3 * iXi + 0)) .- Reg3d.Coll a (u32 (2 * Reg3d.nColl a + iColl)) in
  let dy := xiCart g (u32 (3 * iXi + 1)) .- Reg3d.Coll a (u32 (3 * Reg3d.nColl a + iColl)) in
  let dz := xiCart g (u32 (3 * iXi + 2)) .- Reg3d.Coll a (u32 (4 * Reg3d.nColl a + iColl)) in
  greenrotate3d (normal g) iXi (atan2 dy dx) (Reg3d.nGrSet a)
                (Reg3d.ugCmplx a) (Reg3d.tgCmplx a) (Reg3d.tg0Cmplx a)
                (Reg3d.UmatOut a) (Reg3d.TmatOut a)
    (greeneval3d (Reg3d.greenPtr a) (Reg3d.nGrSet a)
                 (Reg3d.ugCmplx a) (Reg3d.tgCmplx a) (Reg3d.tg0Cmplx a)
                 (PrimFloat.sqrt (dx .* dx .+ dy .* dy)) dz
                 (Reg3d.UmatOut a) (Reg3d.TmatOut a)
                 (Reg3d.Coll a) (Reg3d.nColl a) iColl 4 w).

(** The kernel of the two-dimensional integrator at sample point [iXi]:
    the evaluator receives the absolute value of the horizontal offset, the
    vertical offset and the sign [sgn]. *)
Definition kernel2d {E : Externals} (a : Sing2d.Args) (g : Geom) (iXi : Z) (sgn : float)
           (w : Work) : Work :=
  let dx := xiCart g (u32 (2 * iXi + 0))
            .- Sing2d.Coll a (u32 (2 * Sing2d.nColl a + Sing2d.iColl a)) in
  let dz := xiCart g (u32 (2 * iXi + 1))
            .- Sing2d.Coll a (u32 (4 * Sing2d.nColl a + Sing2d.iColl a)) in
  greenrotate2d (normal g) iXi (Sing2d.nGrSet a) (Sing2d.ntgComp a)
                (Sing2d.tgCmplx a) (Sing2d.tg0Cmplx a) (Sing2d.TmatOut a)
    (greeneval2d (Sing2d.greenPtr a) (Sing2d.nGrSet a) (Sing2d.nugComp a) (Sing2d.ntgComp a)
                 (Sing2d.ugCmplx a) (Sing2d.tgCmplx a) (Sing2d.tg0Cmplx a)
                 (PrimFloat.abs dx) dz sgn
                 (Sing2d.TmatOut a) (Sing2d.Coll a) (Sing2d.nColl a) (Sing2d.iColl a) 4 w).

(** ** The weight and the static part in dense mode *)

(** Quadrature weight times value of the collocation shape function times
    Jacobian, at sample point [iXi] for shape function [iEltColl]. *)
Definition weight3d {E : Externals} (a : Reg3d.Args) (iXi iEltColl : Z) : float :=
  Reg3d.H a iXi
  .* Reg3d.M a (u32 (Reg3d.nEltColl a (Reg3d.iElt a) * iXi + iEltColl))
  .* jacobian (shapenatcoord (Reg3d.dN a) (Reg3d.nEltNod a (Reg3d.iElt a)) (Reg3d.nXi a)
                             (Reg3d.EltNod a) (Reg3d.EltDim a (Reg3d.iElt a)))
              (Reg3d.nXi a) (Reg3d.EltDim a (Reg3d.iElt a)) iXi.

(** The subtractions of the static traction kernel at one sample point,
    the kernel being [w]: once per shape function and Green's function
    set, the nine components, from the diagonal block of collocation point
    [iColl]. *)
Definition weighted_static {E : Externals} (a : Reg3d.Args) (iColl iXi : Z) (w : Work)
  : list event :=
  flat_map (fun iEltColl =>
    flat_map (fun iGrSet =>
      sub_terms TRe (Reg3d.nDof a) 3 (weight3d a iXi iEltColl) (TXi0Re w) 9
                (u32 (3 * iColl)) iGrSet
      ++ opt (Reg3d.tgCmplx a)
           (sub_terms TIm (Reg3d.nDof a) 3 (weight3d a iXi iEltColl) (TXi0Im w) 9
                      (u32 (3 * iColl)) iGrSet))
      (range (Reg3d.nGrSet a)))
    (range (Reg3d.nEltColl a (Reg3d.iElt a))).

(** The accumulations of the kernel itself into U and T. *)
Definition weighted_kernel {E : Externals} (a : Reg3d.Args) (iColl iXi : Z) (w : Work)
  : list event :=
  flat_map (fun iEltColl =>
    flat_map (fun iGrSet =>
      let su := weight3d a iXi iEltColl in
      let rowBeg := u32 (3 * iColl) in
      let colBeg := u32 (3 * Reg3d.EltCollIndex a iEltColl) in
      acc_terms URe (Reg3d.nDof a) 3 su (UXiRe w) 9 rowBeg colBeg iGrSet
      ++ opt (Reg3d.ugCmplx a)
           (acc_terms UIm (Reg3d.nDof a) 3 su (UXiIm w) 9 rowBeg colBeg iGrSet)
      ++ acc_terms TRe (Reg3d.nDof a) 3 su (TXiRe w) 9 rowBeg colBeg iGrSet
      ++ opt (Reg3d.tgCmplx a)
           (acc_terms TIm (Reg3d.nDof a) 3 su (TXiIm w) 9 rowBeg colBeg iGrSet))
      (range (Reg3d.nGrSet a)))
    (range (Reg3d.nEltColl a (Reg3d.iElt a))).

(** The kernel after the sample points of the collocation points [l] have
    been treated, one after the other: a collocation point that is not
    flagged regular is passed over. *)
Definition kernel_after {E : Externals} (a : Reg3d.Args) (g : Geom) (l : list Z)
           (w : Work) : Work :=
  fold_left (fun w iColl =>
               if Reg3d.RegularColl a iColl =? 1
               then fold_left (fun w iXi => kernel3d a g iColl iXi w) (range (Reg3d.nXi a)) w
               else w)
            l w.

(** The events [T iColl iXi w] of a whole run in dense mode: for every
    regular collocation point and every sample point, in order, [w] being
    the kernel evaluated at that sample point. *)
Definition at_sample_points {E : Externals} (a : Reg3d.Args) (g : Geom)
           (T : Z -> Z -> Work -> list event) : list event :=
  thread (fun iColl w =>
            opt (Reg3d.RegularColl a iColl =? 1)
                (thread (fun iXi w => T iColl iXi (kernel3d a g iColl iXi w))
                        (kernel3d a g iColl) (range (Reg3d.nXi a)) w))
         (fun iColl w => kernel_after a g [iColl] w)
         (range (Reg3d.nColl a)) (Reg3d.init_work a).

(** ** The sentinel in selection mode *)

(** [nuniquescollicumul] when entry [i] of the list of selected collocation
    points is reached. *)
Definition cumul_at {E : Externals} (a : Reg3d.Args) (i : Z) : Z :=
  fold_left (fun c k => u32 (c + Reg3d.nuniquescolli a k)) (range i) 0.

(** Component [j] of the static part for entry [i] of the list, in slice
    [iGrSet]: subtracted through its slot [inddiag[9*i+j]], and dropped
    when that slot is -1. *)
Definition guarded_slot {E : Externals} (b : buf) (a : Reg3d.Args) (su : float)
           (ker : darray) (i j iGrSet : Z) : list event :=
  let slot := Reg3d.inddiag a (u32 (9 * i + j)) in
  opt (negb (slot =? -1))
      [ESub b (u32 (Reg3d.ms a * Reg3d.ns a * iGrSet + slot))
            (su .* ker (u32 (9 * iGrSet + j)))].

(** The stores of sample point [iXi] for entry [i] of the list when every
    component whose slot is -1 is dropped, in a block flagged [blockdiag]
    as well as outside. *)
Definition guarded_stores {E : Externals} (a : Reg3d.Args) (i iXi : Z) (w : Work)
  : list event :=
  flat_map (fun iEltColl =>
    let su := weight3d a iXi iEltColl in
    if Reg3d.blockdiag a i then
      flat_map (fun iGrSet =>
        flat_map (fun j => guarded_slot TRe a su (TXi0Re w) i j iGrSet) (comps 3)
        ++ opt (Reg3d.tgCmplx a)
             (flat_map (fun j => guarded_slot TIm a su (TXi0Im w) i j iGrSet) (comps 3)))
        (range (Reg3d.nGrSet a))
    else if Reg3d.InListuniquecollj a (Reg3d.EltCollIndex a iEltColl) then
      flat_map (fun k =>
        let q := Reg3d.uniquescolliind a (u32 (cumul_at a i + k)) in
        if Reg3d.scollj a q =? Reg3d.EltCollIndex a iEltColl then
          flat_map (fun iGrSet =>
            let j := 3 * Reg3d.scompi a q + Reg3d.scompj a q in
            guarded_slot TRe a su (TXi0Re w) i j iGrSet
            ++ opt (Reg3d.tgCmplx a) (guarded_slot TIm a su (TXi0Im w) i j iGrSet))
            (range (Reg3d.nGrSet a))
        else [])
        (range (Reg3d.nuniquescolli a i))
    else [])
    (range (Reg3d.nEltColl a (Reg3d.iElt a))).

(** The stores of sample point [iXi] for an entry [i] flagged
    [blockdiag], as that branch makes them: the nine components through
    their slots, whatever the slots are. *)
Definition untested_stores {E : Externals} (a : Reg3d.Args) (i iXi : Z) (w : Work)
  : list event :=
  flat_map (fun iEltColl =>
    flat_map (fun iGrSet => block_terms a w (weight3d a iXi iEltColl) i iGrSet)
             (range (Reg3d.nGrSet a)))
    (range (Reg3d.nEltColl a (Reg3d.iElt a))).

(** The events [T i iXi w] of a whole run in selection mode: for every
    entry [i] of the list of selected collocation points that is flagged
    regular and every sample point, in order, [w] being the kernel
    evaluated at that sample point. *)
Definition at_selected_points {E : Externals} (a : Reg3d.Args) (g : Geom)
           (T : Z -> Z -> Work -> list event) : list event :=
  thread (fun i w =>
            opt (Reg3d.RegularColl a (Reg3d.uniquescolli a i) =? 1)
                (thread (fun iXi w => T i iXi (kernel3d a g (Reg3d.uniquescolli a i) iXi w))
                        (kernel3d a g (Reg3d.uniquescolli a i)) (range (Reg3d.nXi a)) w))
         (fun i w => kernel_after a g [Reg3d.uniquescolli a i] w)
         (range (Reg3d.Nuniquescolli a 0)) (Reg3d.init_work a).

(** No write through a -1 slot occurs in either branch: the stores of a
    run with a selection are those in which every component whose slot is
    -1 has been dropped. *)
Definition sentinel_rule {E : Externals} (a : Reg3d.Args) (s : St) : Prop :=
  filter is_store (new_events s (Reg3d.bemintreg3ddiag a s))
  = at_selected_points a (Reg3d.geometry a) (guarded_stores a).

(** ** The singular rule of the two-dimensional integrator *)

Section Rule.
Context {E : Externals}.
Variable a : Sing2d.Args.

(** The singular rule of the element: [nEltDivSing] subdivisions with
    [nGaussSing] Gauss points each. *)
Definition singular_count : Z :=
  u32 (p_nEltDivSing (Sing2d.props a) * p_nGaussSing (Sing2d.props a)).

Definition singular_rule : darray * darray :=
  gausspw1D (p_nEltDivSing (Sing2d.props a)) (p_nGaussSing (Sing2d.props a)).

(** The element at the [n] points [pts] of a rule: natural basis,
    Jacobian, Cartesian coordinates (the sum of the node coordinates x and
    z weighted by the shape functions) and normal. *)
Definition rule_geometry (n : Z) (pts : darray) : Geom :=
  let p := Sing2d.props a in
  let nen := p_nEltNod p in
  let N := shapefun (ShapeTypeN p) n pts in
  let nt := shapenatcoord (shapederiv (ShapeTypeN p) n pts) nen n (Sing2d.EltNod a)
                          (p_EltDim p) in
  let x0 := for_loop (u32 (2 * n)) (fun icomp x => upd x icomp 0%float) indet in
  mkGeom nt
         (jacobian nt n (p_EltDim p))
         (for_loop n (fun iXi =>
            for_loop nen (fun iEltNod x =>
              let x := upd x (u32 (2 * iXi + 0))
                         (x (u32 (2 * iXi + 0))
                          .+ N (u32 (nen * iXi + iEltNod))
                             .* Sing2d.EltNod a (u32 (0 * nen + iEltNod))) in
              upd x (u32 (2 * iXi + 1))
                    (x (u32 (2 * iXi + 1))
                     .+ N (u32 (nen * iXi + iEltNod))
                        .* Sing2d.EltNod a (u32 (2 * nen + iEltNod)))))
            x0)
         (bemnormal nt n (p_EltDim p)).

(** Weight of the rule at point [iXi] times the interpolation function
    [iEltColl] at that point times the Jacobian. *)
Definition rule_weight (n : Z) (pts wts : darray) (iXi iEltColl : Z) : float :=
  let p := Sing2d.props a in
  wts iXi
  .* shapefun (ShapeTypeM p) n pts (u32 (p_nEltColl p * iXi + iEltColl))
  .* Jac (rule_geometry n pts) iXi.

(** The kernel at point [iXi] of the rule: evaluated at the absolute
    value of the horizontal offset with the sign of that offset. *)
Definition rule_kernel (n : Z) (pts : darray) (iXi : Z) (w : Work) : Work :=
  let g := rule_geometry n pts in
  kernel2d a g iXi
           (sign (xiCart g (u32 (2 * iXi + 0))
                  .- Sing2d.Coll a (u32 (2 * Sing2d.nColl a + Sing2d.iColl a))))
           w.

(** What the integration with a rule stores: for every point of the rule,
    in order, every interpolation function and every Green's function
    set, the terms of the kernel at that point with the weight of the
    rule. *)
Definition rule_stores (n : Z) (pts wts : darray) : list event :=
  thread (fun iXi w =>
            flat_map (fun iEltColl =>
              flat_map (fun iGrSet =>
                sing_terms a (rule_kernel n pts iXi w) (rule_weight n pts wts iXi iEltColl)
                           (u32 (Sing2d.nColDof a * Sing2d.iColl a))
                           (u32 (Sing2d.nColDof a * Sing2d.EltCollIndex a iEltColl)) iGrSet)
                (range (Sing2d.nGrSet a)))
              (range (p_nEltColl (Sing2d.props a))))
         (rule_kernel n pts) (range n) (Sing2d.init_work a).

(** The kernel after the last point of the rule. *)
Definition rule_work (n : Z) (pts : darray) : Work :=
  fold_left (fun w iXi => rule_kernel n pts iXi w) (range n) (Sing2d.init_work a).

End Rule.

(** ** The shape of the matrices and the addressing *)








(** * Inputs that tell the arguments of the interface apart *)

Module Probe.

Definition const (v : float) : darray := fun _ => v.

(** The evaluator records what it receives: the radial coordinate in the
    displacement kernel, the vertical offset in the traction kernel and
    the sign (or the angle) in its static part; the rotation copies the
    three to the rotated kernels. *)
Definition record (r zc t : float) (w : Work) : Work :=
  mkWork (r1 w) (r2 w) (z1 w) (z2 w) (zs1 w) (extrapFlag w) (interpr w) (interpz w)
         (const r) (const r) (const zc) (const zc) (const t) (const t)
         (UXiRe w) (UXiIm w) (TXiRe w) (TXiIm w) (TXi0Re w) (TXi0Im w).

Definition rotate (w : Work) : Work :=
  mkWork (r1 w) (r2 w) (z1 w) (z2 w) (zs1 w) (extrapFlag w) (interpr w) (interpz w)
         (UgrRe w) (UgrIm w) (TgrRe w) (TgrIm w) (Tgr0Re w) (Tgr0Im w)
         (UgrRe w) (UgrIm w) (TgrRe w) (TgrIm w) (Tgr0Re w) (Tgr0Im w).

(** One-node elements; the singular rule has two points, at -1 and 1 with
    weights 2, the regular rule [nEltDiv] = 2 by [nGauss] = 4 has other
    weights; the shape functions take the values of the points; the
    Jacobian is 5 and the angle is the sum of its arguments. *)
Definition ext : Externals :=
  {| GreenPtr := unit;
     TypeTable := unit;
     indet := const 0;
     indet_uint := 0;
     atan2 := fun y x => y .+ x;
     double_to_uint := fun _ => 1;
     eltdef := fun _ _ => mkEltProps 1 1 1 1 1 1 0 0 4 2 2 1;
     BemNodeIndex := fun _ _ _ => 0;
     gausspw1D := fun nDiv nGauss =>
       (fun k => if k =? 0 then (-1)%float else 1%float,
        if nGauss =? 2 then const 2 else const 7);
     shapefun := fun _ _ pts => pts;
     shapederiv := fun _ _ _ => const 1;
     shapenatcoord := fun _ _ _ _ _ => const 1;
     jacobian := fun _ _ _ => const 5;
     bemnormal := fun _ _ _ => const 1;
     greeneval2d := fun _ _ _ _ _ _ _ r zc sgn _ _ _ _ _ w => record r zc sgn w;
     greenrotate2d := fun _ _ _ _ _ _ _ w => rotate w;
     greeneval3d := fun _ _ _ _ _ r zc _ _ _ _ _ _ w => record r zc 0 w;
     greenrotate3d := fun _ _ theta _ _ _ _ _ _ w =>
       mkWork (r1 w) (r2 w) (z1 w) (z2 w) (zs1 w) (extrapFlag w) (interpr w) (interpz w)
              (UgrRe w) (UgrIm w) (TgrRe w) (TgrIm w) (Tgr0Re w) (Tgr0Im w)
              (UgrRe w) (UgrIm w) (TgrRe w) (TgrIm w) (const theta) (const theta) |}.

Definition s0 : St := mkSt (fun _ => const 0) (@fresh_work ext) [].

Definition always (v : Z) : iarray := fun _ => v.

(** The node table [nodID x y z] of a mesh with one node at (3, 0, 4). *)
Definition nodes : darray :=
  fun k => if k =? 1 then 3%float else if k =? 3 then 4%float else 0%float.

(** Two-dimensional out-of-plane problem with the collocation point at
    the origin: the sample points are at (-3, -4) and (3, 4). *)
Definition sing_args : @Sing2d.Args ext :=
  @Sing2d.mkArgs ext
    nodes 1
    (const 1) 0 1
    tt
    (const 0) 1 0
    (always 0) 1
    tt 1 1
    false false false
    true true.



(** Dense mode: one regular collocation point at the origin, one sample
    point at (3, 4, 12) with quadrature weight 2 and shape function value
    3, one Green's function set, traction requested. *)
Definition dense_args : @Reg3d.Args ext :=
  @Reg3d.mkArgs ext
    0 (const 0) 1 (always 1) (always 0) 3
    tt 1 false false false true true
    false 0 0
    (always 0) (always 0) (always 0) (always 0) (always 0) (always 0) (always 0)
    (fun _ => false) (always (-1)) (fun _ => false)
    (always 1) (always 1) (always 2)
    (fun k => if k =? 0 then 3%float else if k =? 1 then 4%float else 12%float)
    1 (const 2) (const 1) (const 3) (const 1).

(** Selection mode, a 1 x 1 output with one Green's function set; the one
    selected collocation point is flagged [blockdiag]; of its nine slots
    only slot 0 is present. *)
Definition mixed_args : @Reg3d.Args ext :=
  @Reg3d.mkArgs ext
    0 (const 0) 1 (always 1) (always 0) 3
    tt 1 false false false true true
    true 1 1
    (always 0) (always 0) (always 1) (always 1) (always 0) (always 0) (always 0)
    (fun _ => true) (fun k => if k =? 0 then 0 else -1) (fun _ => true)
    (always 1) (always 1) (always 2)
    (fun k => if k =? 0 then 3%float else if k =? 1 then 4%float else 12%float)
    1 (const 2) (const 1) (const 3) (const 1).

(** The same, every slot of the block present. *)
Definition full_args : @Reg3d.Args ext :=
  @Reg3d.mkArgs ext
    0 (const 0) 1 (always 1) (always 0) 3
    tt 1 false false false true true
    true 1 1
    (always 0) (always 0) (always 1) (always 1) (always 0) (always 0) (always 0)
    (fun _ => true) (always 0) (fun _ => true)
    (always 1) (always 1) (always 2)
    (fun k => if k =? 0 then 3%float else if k =? 1 then 4%float else 12%float)
    1 (const 2) (const 1) (const 3) (const 1).

(** Selection mode, not flagged [blockdiag]: the selected entry is
    component (0,0), present in slot 5 of a 1 x 1 output. *)
Definition slot_args : @Reg3d.Args ext :=
  @Reg3d.mkArgs ext
    0 (const 0) 1 (always 1) (always 0) 3
    tt 1 false false false true true
    true 1 1
    (always 0) (always 0) (always 1) (always 1) (always 0) (always 0) (always 0)
    (fun _ => true) (fun k => if k =? 0 then 5 else -1) (fun _ => false)
    (always 1) (always 1) (always 2)
    (fun k => if k =? 0 then 3%float else if k =? 1 then 4%float else 12%float)
    1 (const 2) (const 1) (const 3) (const 1).


End Probe.

(** * Further code of the repository

    The definitions that follow cover code the ones above leave out:
    more of the two integrators, the static tables and the argument
    protocol of the gateway [mexFunction], the validation of the
    parameters of the full space solutions, the receiver search of
    [boundaryrec3d.cpp] and the license check of [checklicense.cpp]. *)

(** The calls of the evaluator [bemintreg3ddiag] makes for collocation
    point [iColl]: one per sample point, if the point is flagged regular. *)
Definition evals_at {E : Externals} (a : Reg3d.Args) (g : Geom) (iColl : Z) : list event :=
  opt (Reg3d.RegularColl a iColl =? 1)
      (map (fun iXi => EEval3d (Reg3d.xiR a g iColl iXi) (Reg3d.xiZ a g iColl iXi)
                               (Reg3d.xiTheta a g iColl iXi))
           (range (Reg3d.nXi a))).

(** The collocation points a run treats: all of them in dense mode, those
    of the selection otherwise. *)
Definition treated {E : Externals} (a : Reg3d.Args) : list Z :=
  if Reg3d.spassed a
  then map (Reg3d.uniquescolli a) (range (Reg3d.Nuniquescolli a 0))
  else range (Reg3d.nColl a).

(** ** [checklicense.cpp]

    [time_t] values and their conversion to [double] are integers: the
    conversion is exact below 2^53, which holds of every time the clock
    can give. *)

Module License.

(** What the calls of MATLAB and of [rmdfile] answer during one call of
    [checklicense]: the file [which] finds for a function name, the
    RIPEMD-128 digest of a file, and the value [bemfunlicense('VerifyOnce')]
    returns, converted to [int]. *)
Record Env := mkEnv {
  which : string -> string;
  rmdfile : string -> string;
  VerifyOnce : Z
}.

(** The statics [licenseStatus] and [lastVerified]. *)
Record Statics := mkStatics {
  licenseStatus : Z;
  lastVerified : Z
}.

(** [static int licenseStatus = -1; static time_t lastVerified = 0;] *)
Definition initial : Statics := mkStatics (-1) 0.

Definition BEMFUNLICENSE_HASH : string := "B1FB853F618571AD2B2244E016BDB968".

Definition invalid_msg : string :=
  "BEMFUN license error: the function BEMFUNLICENSE is invalid.".

Definition checkintegrity (env : Env) (function hash : string) : Mex.res unit :=
  let licfile := which env function in
  let lichash := rmdfile env licfile in
  Mex.throw_if (negb (String.eqb lichash hash)) invalid_msg.

(** The exception the call leaves through, if any, and the statics after
    the call. *)
Definition checklicense (env : Env) (now : Z) (st : Statics) : option string * Statics :=
  (* Reset license status to unknown every 2 hours *)
  let st := if now - lastVerified st >=? 7200 then mkStatics (-1) (lastVerified st) else st in
  (* If the license status is unknown, determine it using BEMFUNLICENSE. *)
  if licenseStatus st =? -1 then
    match checkintegrity env "bemfunlicense" BEMFUNLICENSE_HASH with
    | Mex.Err msg => (Some msg, st)
    | Mex.OK _ => (None, mkStatics (VerifyOnce env) now)
    end
  else (None, st).

(** Successive calls, each with the time it is made at and what the
    environment answers then; a call that throws ends the MEX call it is
    part of, not the session. *)
Fixpoint calls (l : list (Env * Z)) (st : Statics) : list (option string) * Statics :=
  match l with
  | [] => ([], st)
  | (env, now) :: l' =>
      let r := checklicense env now st in
      let rs := calls l' (snd r) in
      (fst r :: fst rs, snd rs)
  end.

End License.

(** ** The tables [mexFunction] builds for the mesh

    The statics that describe the mesh are computed once, when the mesh is
    passed, and handed to every integrator afterwards.  The fragments
    below are the loops of [mexFunction] that lay the per-element data out
    in flat arrays. *)

Definition iupd (a : iarray) (i v : Z) : iarray :=
  fun j => if j =? i then v else a j.

Definition bupd (a : barray) (i : Z) (v : bool) : barray :=
  fun j => if j =? i then v else a j.

(** [while (cond) body], run for at most [fuel] turns; the loop has ended
    when [cond] is false of the result. *)
Fixpoint while {T : Type} (fuel : nat) (cond : T -> bool) (body : T -> T) (s : T) : T :=
  match fuel with
  | O => s
  | S fuel' => if cond s then while fuel' cond body (body s) else s
  end.

Module Tables.

(** The offsets of the blocks of a flat array with one block per element:
    [[
    ncumul[0]=0;
    for (unsigned int iElt=1; iElt<nElt; iElt++)
      ncumul[iElt]=ncumul[iElt-1]+n[iElt];
    ]]
    This loop builds [ncumulEltCollIndex] from [nEltColl], [ncumulEltNod]
    from [nEltNod] and [ncumulSingularColl] from [nSingularColl]; [t] is
    the array as [new] returns it. *)
Definition cumulate (nElt : Z) (n : iarray) (t : iarray) : iarray :=
  for_from (Z.to_nat (nElt - 1)) 1
    (fun iElt t => iupd t iElt (u32 (t (u32 (iElt - 1)) + n iElt)))
    (iupd t 0 0).

(** The size of the flat array: [N=ncumul[nElt-1]+n[nElt-1];] *)
Definition total (nElt : Z) (n : iarray) (ncumul : iarray) : Z :=
  u32 (ncumul (u32 (nElt - 1)) + n (u32 (nElt - 1))).

Definition ncumulEltCollIndex (nElt : Z) (nEltColl t : iarray) : iarray :=
  cumulate nElt nEltColl t.
Definition NEltCollIndex (nElt : Z) (nEltColl t : iarray) : Z :=
  total nElt nEltColl (ncumulEltCollIndex nElt nEltColl t).

(** The copy of the collocation point indices of every element into its
    block, [loc iElt] being what [BemEltCollIndex] returns for element
    [iElt]:
    [[
    for (unsigned int iElt=0; iElt<nElt; iElt++) {
      ...
      for (unsigned int iEltCollIndex=0; iEltCollIndex<nEltColl[iElt]; iEltCollIndex++)
        eltCollIndex[ncumulEltCollIndex[iElt]+iEltCollIndex] = eltCollIndex_loc[iEltCollIndex];
      ...
    }
    ]] *)
Definition fill_eltCollIndex (nElt : Z) (ncumul nEltColl : iarray) (loc : Z -> iarray)
           (eltCollIndex : iarray) : iarray :=
  for_loop nElt (fun iElt t =>
    for_loop (nEltColl iElt) (fun iEltCollIndex t =>
      iupd t (u32 (ncumul iElt + iEltCollIndex)) (loc iElt iEltCollIndex)) t)
    eltCollIndex.

(** *** The list of the singular collocation points of an element

    [RegularColl_loc] is what [BemRegularColl] returns for the element
    (entry [iColl] is 0 when collocation point [iColl] is singular for it;
    entry [nTotalColl+iColl] goes with it), [nSingularColl_loc] the number
    of singular points it reports, and [base] is
    [ncumulSingularColl[iElt]].
    [[
    unsigned int iColl=0;
    unsigned int iSingular=0;
    while (iColl<nTotalColl && iSingular<nSingularColl_loc)
    {
      if(RegularColl_loc[iColl]==0)
      {
        RegularColl[(uint64)(ncumulSingularColl[iElt]+iSingular)]=iColl;
        RegularColl[(uint64)(NSingularColl+ncumulSingularColl[iElt]+iSingular)]
          =RegularColl_loc[nTotalColl+iColl];
        iSingular++;
      }
      iColl++;
    }
    ]] *)
Record Scan := mkScan {
  iColl : Z;
  iSingular : Z;
  RegularColl : iarray
}.

Definition scan_cond (nTotalColl nSingularColl_loc : Z) (s : Scan) : bool :=
  (iColl s <? nTotalColl) && (iSingular s <? nSingularColl_loc).

Definition scan_body (nTotalColl NSingularColl base : Z) (RegularColl_loc : iarray)
           (s : Scan) : Scan :=
  let s :=
    if RegularColl_loc (iColl s) =? 0 then
      mkScan (iColl s) (u32 (iSingular s + 1))
             (iupd (iupd (RegularColl s) (u32 (base + iSingular s)) (iColl s))
                   (u32 (NSingularColl + base + iSingular s))
                   (RegularColl_loc (u32 (nTotalColl + iColl s))))
    else s in
  mkScan (u32 (iColl s + 1)) (iSingular s) (RegularColl s).

Definition singular_list (nTotalColl nSingularColl_loc NSingularColl base : Z)
           (RegularColl_loc RegularColl : iarray) : Scan :=
  while (Z.to_nat nTotalColl)
        (scan_cond nTotalColl nSingularColl_loc)
        (scan_body nTotalColl NSingularColl base RegularColl_loc)
        (mkScan 0 0 RegularColl).

(** *** The reference element of every element type

    [[
    bool GetAllTypeID =false;
    unsigned int iElt=0;
    while (iElt<nElt && GetAllTypeID==false)
    {
      bool GetEltTypeID=false;
      unsigned int iType=0;
      while (iType<nEltType && GetEltTypeID==false )
      {
        if ((unsigned int)(Elt[nElt+iElt]) == TypeID[iType])
        {
          GetEltTypeID=true;
          if (GetTypeID[iType]==false)
          {
            RefEltType[iType]=iElt;
            GetTypeID[iType]=true;
            if (EltParent[iElt] == 1) nXi[iType]=nGauss[iElt];
            else if (EltParent[iElt] == 2)
              nXi[iType]=nEltDiv[iElt]*nEltDiv[iElt]*nGauss[iElt]*nGauss[iElt];
          }
        }
        iType++;
      }
      unsigned int auxvar=0;
      for (unsigned int i=0; i<nEltType; i++) if (GetTypeID[i]==true) auxvar++;
      if (auxvar==nEltType) GetAllTypeID=true;
      iElt++;
    }
    ]] *)
Record Search := mkSearch {
  iElt : Z;
  GetAllTypeID : bool;
  RefEltType : iarray;
  GetTypeID : barray;
  nXi : iarray
}.

Record Inner := mkInner {
  iType : Z;
  GetEltTypeID : bool;
  found : Search
}.

Section RefElt.
Context {E : Externals}.
Variables (nElt nEltType : Z) (Elt : darray) (TypeID EltParent nGauss nEltDiv : iarray).

Definition inner_cond (q : Inner) : bool :=
  (iType q <? nEltType) && negb (GetEltTypeID q).

Definition inner_body (q : Inner) : Inner :=
  let s := found q in
  let q :=
    if double_to_uint (Elt (u32 (nElt + iElt s))) =? TypeID (iType q) then
      mkInner (iType q) true
        (if negb (GetTypeID s (iType q)) then
           let s := mkSearch (iElt s) (GetAllTypeID s)
                             (iupd (RefEltType s) (iType q) (iElt s))
                             (bupd (GetTypeID s) (iType q) true) (nXi s) in
           if EltParent (iElt s) =? 1 then
             mkSearch (iElt s) (GetAllTypeID s) (RefEltType s) (GetTypeID s)
                      (iupd (nXi s) (iType q) (nGauss (iElt s)))
           else if EltParent (iElt s) =? 2 then
             mkSearch (iElt s) (GetAllTypeID s) (RefEltType s) (GetTypeID s)
                      (iupd (nXi s) (iType q)
                            (u32 (nEltDiv (iElt s) * nEltDiv (iElt s)
                                  * nGauss (iElt s) * nGauss (iElt s))))
           else s
         else s)
    else q in
  mkInner (u32 (iType q + 1)) (GetEltTypeID q) (found q).

Definition auxvar (s : Search) : Z :=
  for_loop nEltType (fun i aux => if GetTypeID s i then u32 (aux + 1) else aux) 0.

Definition search_cond (s : Search) : bool :=
  (iElt s <? nElt) && negb (GetAllTypeID s).

Definition search_body (s : Search) : Search :=
  let s := found (while (Z.to_nat nEltType) inner_cond inner_body (mkInner 0 false s)) in
  let s := if auxvar s =? nEltType
           then mkSearch (iElt s) true (RefEltType s) (GetTypeID s) (nXi s)
           else s in
  mkSearch (u32 (iElt s + 1)) (GetAllTypeID s) (RefEltType s) (GetTypeID s) (nXi s).

(** The search, from the arrays as [new] returns them, [GetTypeID] being
    set to [false] first. *)
Definition search (RefEltType0 nXi0 : iarray) (GetTypeID0 : barray) : Search :=
  while (Z.to_nat nElt) search_cond search_body
        (mkSearch 0 false RefEltType0
                  (for_loop nEltType (fun i g => bupd g i false) GetTypeID0) nXi0).

(** The offsets of the sample points of every type, computed after the
    search has ended with state [s]:
    [[
    ncumulnXi[0]=0;
    for (unsigned int iType=1; iType<nEltType; iType++)
      ncumulnXi[iType]=ncumulnXi[iType-1]+nXi[iElt];
    ]]
    ([iElt] is the variable of the search.) *)
Definition ncumulnXi (s : Search) (t : iarray) : iarray :=
  for_from (Z.to_nat (nEltType - 1)) 1
    (fun iType t => iupd t iType (u32 (t (u32 (iType - 1)) + nXi s (iElt s))))
    (iupd t 0 0).

(** [NnXi=ncumulnXi[nEltType-1]+nXi[nEltType-1];] *)
Definition NnXi (s : Search) (t : iarray) : Z :=
  u32 (ncumulnXi s t (u32 (nEltType - 1)) + nXi s (u32 (nEltType - 1))).

End RefElt.

End Tables.

(** [n[1] + ... + n[i]] *)
Fixpoint sum_upto (n : iarray) (i : nat) : Z :=
  match i with
  | O => 0
  | S i' => sum_upto n i' + n (Z.of_nat i)
  end.

(** The collocation points [BemRegularColl] flags as singular (entry 0),
    in increasing order, cut to the number of singular points it reports. *)
Definition singular_points (nTotalColl nSingularColl_loc : Z) (RegularColl_loc : iarray)
  : list Z :=
  firstn (Z.to_nat nSingularColl_loc)
         (filter (fun c => RegularColl_loc c =? 0) (range nTotalColl)).

(** What holds whenever the condition of the loop of [singular_list] is
    evaluated; [t0] is [RegularColl] as it is before the loop. *)
Definition scan_inv (nTotalColl nSing N base : Z) (loc t0 : iarray) (s : Tables.Scan) : Prop :=
  let seen := filter (fun c => loc c =? 0) (range (Tables.iColl s)) in
  0 <= Tables.iColl s <= nTotalColl
  /\ Tables.iSingular s = Z.of_nat (List.length seen)
  /\ Tables.iSingular s <= nSing
  /\ (forall j, 0 <= j < Tables.iSingular s ->
        Tables.RegularColl s (base + j) = nth (Z.to_nat j) seen 0
        /\ Tables.RegularColl s (N + base + j) = loc (nTotalColl + nth (Z.to_nat j) seen 0))
  /\ (forall z, ~ base <= z < base + Tables.iSingular s ->
                ~ N + base <= z < N + base + Tables.iSingular s ->
                Tables.RegularColl s z = t0 z).

(** What the search for the reference elements is expected to find, and
    what holds while it runs. *)
Section RefEltSpec.
Context {E : Externals}.
Variables (nElt nEltType : Z) (Elt : darray) (TypeID EltParent nGauss nEltDiv : iarray).

(** The type number of element [e]: [(unsigned int)(Elt[nElt+e])]. *)
Definition type_of (e : Z) : Z := double_to_uint (Elt (u32 (nElt + e))).

(** Element [e] is the first one of type [t]. *)
Definition first_of (t e : Z) : Prop :=
  0 <= e < nElt /\ type_of e = TypeID t
  /\ forall e', 0 <= e' < e -> type_of e' <> TypeID t.

(** The number of sample points of an element: those of the triangle rule
    for a triangle, of the subdivided product rule for a quadrilateral, and
    what the array held for any other parent. *)
Definition nXi_of (e old : Z) : Z :=
  if EltParent e =? 1 then nGauss e
  else if EltParent e =? 2 then u32 (nEltDiv e * nEltDiv e * nGauss e * nGauss e)
  else old.

(** The tables after the element of the state has been seen to be of type
    [t0]. *)
Definition mark (s : Tables.Search) (t0 : Z) : Tables.Search :=
  if negb (Tables.GetTypeID s t0) then
    let s := Tables.mkSearch (Tables.iElt s) (Tables.GetAllTypeID s)
                             (iupd (Tables.RefEltType s) t0 (Tables.iElt s))
                             (bupd (Tables.GetTypeID s) t0 true) (Tables.nXi s) in
    if EltParent (Tables.iElt s) =? 1 then
      Tables.mkSearch (Tables.iElt s) (Tables.GetAllTypeID s) (Tables.RefEltType s)
                      (Tables.GetTypeID s)
                      (iupd (Tables.nXi s) t0 (nGauss (Tables.iElt s)))
    else if EltParent (Tables.iElt s) =? 2 then
      Tables.mkSearch (Tables.iElt s) (Tables.GetAllTypeID s) (Tables.RefEltType s)
                      (Tables.GetTypeID s)
                      (iupd (Tables.nXi s) t0
                            (u32 (nEltDiv (Tables.iElt s) * nEltDiv (Tables.iElt s)
                                  * nGauss (Tables.iElt s) * nGauss (Tables.iElt s))))
    else s
  else s.

(** The number of types found. *)
Definition count_found (s : Tables.Search) : Z :=
  Z.of_nat (List.length (filter (Tables.GetTypeID s) (range nEltType))).

(** The loop over the types, for the element of state [s]. *)
Definition inner_inv (s : Tables.Search) (q : Tables.Inner) : Prop :=
  0 <= Tables.iType q <= nEltType
  /\ if Tables.GetEltTypeID q
     then exists t0, 0 <= t0 < nEltType
                     /\ TypeID t0 = type_of (Tables.iElt s)
                     /\ (forall t, 0 <= t < t0 -> TypeID t <> type_of (Tables.iElt s))
                     /\ Tables.found q = mark s t0
     else Tables.found q = s
          /\ forall t, 0 <= t < Tables.iType q -> TypeID t <> type_of (Tables.iElt s).

(** The loop over the elements: no more types have been found than
    elements have been looked at. *)
Definition search_count_inv (s : Tables.Search) : Prop :=
  0 <= Tables.iElt s <= nElt
  /\ count_found s <= Tables.iElt s
  /\ (Tables.GetAllTypeID s = true -> count_found s = nEltType).

(** The loop over the elements: the types found are those of the elements
    looked at, each with its first element; [nXi0] is [nXi] before the
    search. *)
Definition search_inv (nXi0 : iarray) (s : Tables.Search) : Prop :=
  0 <= Tables.iElt s <= nElt
  /\ (forall t, 0 <= t < nEltType ->
        (Tables.GetTypeID s t = true <->
         exists e, 0 <= e < Tables.iElt s /\ type_of e = TypeID t)
        /\ (Tables.GetTypeID s t = true ->
            first_of t (Tables.RefEltType s t)
            /\ Tables.nXi s t = nXi_of (Tables.RefEltType s t) (nXi0 t))
        /\ (Tables.GetTypeID s t = false -> Tables.nXi s t = nXi0 t))
  /\ (Tables.GetAllTypeID s = true <->
      forall t, 0 <= t < nEltType -> Tables.GetTypeID s t = true).

End RefEltSpec.

(** ** [boundaryrec3d.cpp]: receivers that lie on the boundary

    [fminstep] (of [fminstep.h]) and [BemEltCollIndex] (of
    [bemcollpoints.h]) are taken as an interface, like the routines of
    [Externals]: [fminstep] returns the point [xiRec] it has moved to and
    reaches no other storage than through the function it minimises. *)

Module BoundaryRec.
Section Defs.
Context {E : Externals}.

Variable BemEltCollIndex :
  darray -> Z -> Z -> darray -> Z -> Z -> Z -> Z -> iarray.
Variable fminstep :
  (float * float -> float) -> float * float -> float * float -> float * float -> Z ->
  float * float.

Record Args := mkArgs {
  Nod : darray; nNod : Z;
  Elt : darray; nElt : Z; iElt : Z;
  types : TypeTable;
  CollPoints : darray; nTotalColl : Z; nCentroidColl : Z;
  Rec : darray; nRec : Z; nRecDof : Z;
  TmatOut : bool;
  nDof : Z; nGrSet : Z
}.

(** What the routine changes: the flags of the receivers and the matrix. *)
Record Out := mkOut {
  boundaryRec : barray;
  mem : buf -> darray
}.

(** [b[i] = v] *)
Definition store (b : buf) (i : Z) (v : float) (o : Out) : Out :=
  mkOut (boundaryRec o)
        (fun b' => if buf_eqb b' b then upd (mem o b) i v else mem o b').

Definition EltType (a : Args) : Z := double_to_uint (Elt a (u32 (nElt a + iElt a))).
Definition props (a : Args) : EltProps := eltdef (EltType a) (types a).

Definition EltCollIndex (a : Args) : iarray :=
  BemEltCollIndex (Elt a) (iElt a) (nElt a) (CollPoints a) (nCentroidColl a)
                  (nTotalColl a) (p_nEltColl (props a)) (p_nEltNod (props a)).

(** [std::min] and [std::max] *)
Definition min (x y : float) : float := if PrimFloat.ltb y x then y else x.
Definition max (x y : float) : float := if PrimFloat.ltb x y then y else x.

(** The coordinates of the nodes of the element and the box around them. *)
Record Box := mkBox {
  EltNod : darray;
  eltxMin : float; eltyMin : float; eltzMin : float;
  eltxMax : float; eltyMax : float; eltzMax : float
}.

Definition nodes (a : Args) : Box :=
  let nen := p_nEltNod (props a) in
  for_loop nen (fun iEltNod b =>
    let NodID := double_to_uint (Elt a (u32 ((2 + iEltNod) * nElt a + iElt a))) in
    let NodIndex := BemNodeIndex (Nod a) (nNod a) NodID in
    let x := upd (EltNod b) (u32 (0 * nen + iEltNod)) (Nod a (u32 (1 * nNod a + NodIndex))) in
    let x := upd x (u32 (1 * nen + iEltNod)) (Nod a (u32 (2 * nNod a + NodIndex))) in
    let x := upd x (u32 (2 * nen + iEltNod)) (Nod a (u32 (3 * nNod a + NodIndex))) in
    mkBox x
          (min (eltxMin b) (x (u32 (0 * nen + iEltNod))))
          (min (eltyMin b) (x (u32 (1 * nen + iEltNod))))
          (min (eltzMin b) (x (u32 (2 * nen + iEltNod))))
          (max (eltxMax b) (x (u32 (0 * nen + iEltNod))))
          (max (eltyMax b) (x (u32 (1 * nen + iEltNod))))
          (max (eltzMax b) (x (u32 (2 * nen + iEltNod)))))
    (mkBox indet infinity infinity infinity neg_infinity neg_infinity neg_infinity).

(** [double diag=sqrt(sqr(eltxMax-eltxMin)+sqr(eltyMax-eltyMin)+sqr(eltyMax-eltyMin));] *)
Definition diag (b : Box) : float :=
  PrimFloat.sqrt (sqr (eltxMax b .- eltxMin b) .+ sqr (eltyMax b .- eltyMin b)
                  .+ sqr (eltyMax b .- eltyMin b)).

(** The box, a quarter of [diag] wider on every side. *)
Definition widen (b : Box) : Box :=
  mkBox (EltNod b)
        (eltxMin b .- 0.25%float .* diag b)
        (eltyMin b .- 0.25%float .* diag b)
        (eltzMin b .- 0.25%float .* diag b)
        (eltxMax b .+ 0.25%float .* diag b)
        (eltyMax b .+ 0.25%float .* diag b)
        (eltzMax b .+ 0.25%float .* diag b).

(** [// Check if Receiver is near element iElt] *)
Definition near (a : Args) (w : Box) (iRec : Z) : bool :=
  PrimFloat.leb (eltxMin w) (Rec a (u32 (0 * nRec a + iRec)))
  && PrimFloat.leb (Rec a (u32 (0 * nRec a + iRec))) (eltxMax w)
  && PrimFloat.leb (eltyMin w) (Rec a (u32 (1 * nRec a + iRec)))
  && PrimFloat.leb (Rec a (u32 (1 * nRec a + iRec))) (eltyMax w)
  && PrimFloat.leb (eltzMin w) (Rec a (u32 (2 * nRec a + iRec)))
  && PrimFloat.leb (Rec a (u32 (2 * nRec a + iRec))) (eltzMax w).

(** The array [Xi] of the two natural coordinates. *)
Definition Xi_of (xi : float * float) : darray :=
  upd (upd indet 0 (fst xi)) 1 (snd xi).

(** [recDist3d]: the distance between receiver [iRec] and the point of the
    element with natural coordinates [xi]. *)
Definition recDist3d (a : Args) (EltNod : darray) (iRec : Z) (xi : float * float) : float :=
  let nen := p_nEltNod (props a) in
  let N := shapefun (ShapeTypeN (props a)) 1 (Xi_of xi) in
  let p := for_loop nen (fun iEltNod (p : float * float * float) =>
             let '(xi_x, xi_y, xi_z) := p in
             (xi_x .+ N iEltNod .* EltNod (u32 (0 * nen + iEltNod)),
              xi_y .+ N iEltNod .* EltNod (u32 (1 * nen + iEltNod)),
              xi_z .+ N iEltNod .* EltNod (u32 (2 * nen + iEltNod))))
             (0%float, 0%float, 0%float) in
  let '(xi_x, xi_y, xi_z) := p in
  PrimFloat.sqrt (sqr (xi_x .- Rec a (u32 (0 * nRec a + iRec)))
                  .+ sqr (xi_y .- Rec a (u32 (1 * nRec a + iRec)))
                  .+ sqr (xi_z .- Rec a (u32 (2 * nRec a + iRec)))).

(** The point the minimiser has moved to, brought back into the reference
    element. *)
Definition clamp (EltParent : Z) (xiRec : float * float) : float * float :=
  if EltParent =? 1 then
    (* Triangular element *)
    let x := if PrimFloat.ltb (fst xiRec) 0%float then 0%float else fst xiRec in
    let y := if PrimFloat.ltb (snd xiRec) 0%float then 0%float else snd xiRec in
    if PrimFloat.ltb 1%float (x .+ y)
    then (PrimFloat.div x (x .+ y), PrimFloat.div y (x .+ y))
    else (x, y)
  else
    (* Quadrilateral element *)
    let x := if PrimFloat.ltb 1%float (fst xiRec) then 1%float else fst xiRec in
    let x := if PrimFloat.ltb x (-1)%float then (-1)%float else x in
    let y := if PrimFloat.ltb 1%float (snd xiRec) then 1%float else snd xiRec in
    let y := if PrimFloat.ltb y (-1)%float then (-1)%float else y in
    (x, y).

(** The point of the element nearest to receiver [iRec]. *)
Definition nearest (a : Args) (b : Box) (iRec : Z) : float * float :=
  clamp (Parent (props a))
        (fminstep (recDist3d a (EltNod b) iRec) (0%float, 0%float)
                  (0x1.999999999999ap-4%float, 0x1.999999999999ap-4%float)  (* 0.1 *)
                  (0x1.a36e2eb1c432dp-14%float, 0x1.a36e2eb1c432dp-14%float)  (* 1e-4 *)
                  30).

(** [if (dist<0.05*diag)], the constant being the double nearest to 0.05 *)
Definition on_element (a : Args) (b : Box) (iRec : Z) : bool :=
  PrimFloat.ltb (recDist3d a (EltNod b) iRec (nearest a b iRec)) (0x1.999999999999ap-5%float .* diag b).

(** The entries of T written for a receiver that lies on the element. *)
Definition write_T (a : Args) (M : darray) (iRec : Z) (o : Out) : Out :=
  for_loop (p_nEltColl (props a)) (fun iEltColl o =>
    for_loop (nGrSet a) (fun iGrSet o =>
      let ind0 := u32 (nRecDof a * nDof a * iGrSet) in
      let rowBeg := u32 (3 * iRec) in
      let colBeg := u32 (3 * EltCollIndex a iEltColl) in
      let o := store TRe (u32 (ind0 + nRecDof a * (colBeg + 0) + rowBeg + 0))
                     (PrimFloat.opp (M iEltColl)) o in
      let o := store TRe (u32 (ind0 + nRecDof a * (colBeg + 1) + rowBeg + 1))
                     (PrimFloat.opp (M iEltColl)) o in
      store TRe (u32 (ind0 + nRecDof a * (colBeg + 2) + rowBeg + 2))
            (PrimFloat.opp (M iEltColl)) o) o) o.

(** The body of the loop over the receivers. *)
Definition receiver (a : Args) (b : Box) (iRec : Z) (o : Out) : Out :=
  if negb (boundaryRec o iRec) then  (* If receiver is not yet matched to an element *)
    if near a (widen b) iRec then
      if on_element a b iRec then
        let o := mkOut (bupd (boundaryRec o) iRec true) (mem o) in
        (* Evaluate interpolation function *)
        let M := shapefun (ShapeTypeM (props a)) 1 (Xi_of (nearest a b iRec)) in
        if TmatOut a then write_T a M iRec o else o
      else o
    else o
  else o.

Definition boundaryRec3d (a : Args) (o : Out) : Out :=
  for_loop (nRec a) (receiver a (nodes a)) o.

End Defs.
End BoundaryRec.

(** The entry of T that [boundaryRec3d] writes for receiver [iRec],
    collocation point [iEltColl] of the element, Green's function set
    [iGrSet] and direction [c]: entry [(3*iRec+c, 3*EltCollIndex+c)], on the
    diagonal of the 3 x 3 block. *)
Definition T_index {E : Externals} (col : darray -> Z -> Z -> darray -> Z -> Z -> Z -> Z -> iarray)
           (a : BoundaryRec.Args) (iRec iEltColl iGrSet c : Z) : Z :=
  u32 (u32 (BoundaryRec.nRecDof a * BoundaryRec.nDof a * iGrSet)
       + BoundaryRec.nRecDof a * (u32 (3 * BoundaryRec.EltCollIndex col a iEltColl) + c)
       + u32 (3 * iRec) + c).

(** Whether [boundaryRec3d] finds receiver [iRec] to lie on the element. *)
Definition matches {E : Externals}
           (fminstep : (float * float -> float) -> float * float -> float * float ->
                       float * float -> Z -> float * float)
           (a : BoundaryRec.Args) (iRec : Z) : bool :=
  BoundaryRec.near a (BoundaryRec.widen (BoundaryRec.nodes a)) iRec
  && BoundaryRec.on_element fminstep a (BoundaryRec.nodes a) iRec.

(** Value [v] at index [z] of the real part of T has been written by
    [boundaryRec3d] started from [o]: for a receiver that was not flagged
    and lies on the element, it is minus the interpolation function of a
    collocation point of the element at the point nearest to the
    receiver, at the diagonal entry of that receiver and collocation
    point. *)
Definition written {E : Externals}
           (col : darray -> Z -> Z -> darray -> Z -> Z -> Z -> Z -> iarray)
           (fminstep : (float * float -> float) -> float * float -> float * float ->
                       float * float -> Z -> float * float)
           (a : BoundaryRec.Args) (o : BoundaryRec.Out) (z : Z) (v : float) : Prop :=
  exists iRec iEltColl iGrSet c,
    0 <= iRec < BoundaryRec.nRec a
    /\ BoundaryRec.boundaryRec o iRec = false
    /\ matches fminstep a iRec = true
    /\ 0 <= iEltColl < p_nEltColl (BoundaryRec.props a)
    /\ 0 <= iGrSet < BoundaryRec.nGrSet a
    /\ 0 <= c < 3
    /\ z = T_index col a iRec iEltColl iGrSet c
    /\ v = PrimFloat.opp
             (shapefun (ShapeTypeM (BoundaryRec.props a)) 1
                       (BoundaryRec.Xi_of
                          (BoundaryRec.nearest fminstep a (BoundaryRec.nodes a) iRec))
                       iEltColl).

(** ** The gateway [mexFunction] and the parameters of the full space
    solutions

    The argument list [prhs] has [nrhs] entries.  A run that reads
    [prhs[k]] for [k >= nrhs] has undefined behaviour; it ends in
    [Beyond k]. *)

Module Gateway.

Inductive fault :=
| Error (msg : string)   (** [throw(msg)], reported through [mexErrMsgTxt] *)
| Beyond (k : Z).        (** [prhs[k]] read with [k >= nrhs] *)

Inductive result (A : Type) :=
| Ret (a : A)
| Fail (f : fault).
Arguments Ret {A} a.
Arguments Fail {A} f.

Definition bind {A B : Type} (m : result A) (k : A -> result B) : result B :=
  match m with
  | Ret a => k a
  | Fail f => Fail f
  end.

Notation "x <- m ;; k" := (bind m (fun x => k))
  (at level 61, m at next level, right associativity).
Notation "m ;;; k" := (bind m (fun _ => k)) (at level 61, right associativity).

Definition throw_if (c : bool) (msg : string) : result unit :=
  if c then Fail (Error msg) else Ret tt.

Definition lift {A : Type} (m : Mex.res A) : result A :=
  match m with
  | Mex.OK a => Ret a
  | Mex.Err msg => Fail (Error msg)
  end.

(** *** The full space solutions: [// INPUT ARGUMENT PROCESSING] *)

(** [prhs[greenPos+k]] *)
Definition param (i : Mex.Inputs) (k : Z) : result Mex.mxArray :=
  let j := u32 (Mex.greenPos i + k) in
  if j <? Mex.nrhs i then Ret (Mex.prhs i j) else Fail (Beyond j).

(** The four tests of a parameter that must be a real scalar, and of one
    that must be a real vector. *)
Definition scalar (i : Mex.Inputs) (k : Z) (name : string) : result unit :=
  a <- param i k ;; lift (Mex.check_real_scalar a name).

Definition vector (i : Mex.Inputs) (k : Z) (name : string) : result unit :=
  a <- param i k ;; lift (Mex.check_real_vector a name).

(** [mxGetNumberOfElements(prhs[greenPos+k])], read after the tests. *)
Definition numel (i : Mex.Inputs) (k : Z) : Z :=
  u32 (Mex.mxGetNumberOfElements (Mex.prhs i (u32 (Mex.greenPos i + k)))).

Definition wrong_number : string := "Wrong number of input arguments.".

Definition IntegrateFsGreenf (i : Mex.Inputs) : result Mex.Call * Mex.Plhs :=
  match
    throw_if (negb (Mex.nrhs i =? 11)) wrong_number ;;;
    scalar i 1 "Cs" ;;; scalar i 2 "Cp" ;;; scalar i 3 "Ds" ;;; scalar i 4 "Dp" ;;;
    scalar i 5 "rho" ;;; vector i 6 "py" ;;; vector i 7 "omega"
  with
  | Fail f => (Fail f, Mex.mkPlhs None None)
  | Ret _ =>
      let nWave := numel i 6 in
      let nFreq := numel i 7 in
      (Ret (Mex.mkCall 3 (u32 (nFreq * nWave)) 9 true true true 0),
       Mex.IntegrateFsGreenf_outputs (Mex.common i) nWave nFreq)
  end.

Definition IntegrateFsGreen3d (i : Mex.Inputs) : result Mex.Call * Mex.Plhs :=
  let c := Mex.common i in
  match
    (if Mex.probPeriodic c
     then throw_if (negb (Mex.nrhs i =? 13)) wrong_number
     else
       throw_if (u32 (Mex.nrhs i) >? u32 (Mex.greenPos i + 7)) "Too many input arguments." ;;;
       throw_if (u32 (Mex.nrhs i) <? u32 (Mex.greenPos i + 5)) "Not enough input arguments.") ;;;
    scalar i 1 "Cs" ;;; scalar i 2 "Cp" ;;; scalar i 3 "Ds" ;;; scalar i 4 "Dp" ;;;
    scalar i 5 "rho" ;;; vector i 6 "omega" ;;;
    (if Mex.probPeriodic c
     then scalar i 7 "L" ;;; vector i 8 "ky" ;;; scalar i 9 "nmax"
     else Ret tt)
  with
  | Fail f => (Fail f, Mex.mkPlhs None None)
  | Ret _ =>
      let nFreq := numel i 6 in
      let nWave := if Mex.probPeriodic c then numel i 8 else 0 in
      (Ret (Mex.mkCall (if Mex.probAxi c then 2 else 3) nFreq 5 true true false nWave),
       Mex.IntegrateFsGreen3d_outputs c nFreq nWave)
  end.

Definition IntegrateFsGreen3d0 (i : Mex.Inputs) : result Mex.Call * Mex.Plhs :=
  let c := Mex.common i in
  match
    throw_if ((Mex.probPeriodic c && negb (Mex.nrhs i =? 10))
              || (negb (Mex.probPeriodic c)
                  && negb (u32 (Mex.nrhs i) =? u32 (Mex.greenPos i + 3))))
             wrong_number ;;;
    scalar i 1 "E" ;;; scalar i 2 "nu" ;;;
    (if Mex.probPeriodic c
     then scalar i 3 "L" ;;; vector i 4 "ky" ;;; scalar i 5 "nmax"
     else Ret tt)
  with
  | Fail f => (Fail f, Mex.mkPlhs None None)
  | Ret _ =>
      let nWave := if Mex.probPeriodic c then numel i 4 else 0 in
      (Ret (Mex.mkCall (if Mex.probAxi c then 2 else 3) 1 5 false false false nWave),
       Mex.IntegrateFsGreen3d0_outputs c nWave)
  end.

Definition IntegrateFsGreen3dt (i : Mex.Inputs) : result Mex.Call * Mex.Plhs :=
  let c := Mex.common i in
  match
    throw_if (negb (Mex.nrhs i =? 9)) wrong_number ;;;
    scalar i 1 "Cs" ;;; scalar i 2 "Cp" ;;; scalar i 3 "rho" ;;; scalar i 4 "delt" ;;;
    vector i 5 "t"
  with
  | Fail f => (Fail f, Mex.mkPlhs None None)
  | Ret _ =>
      let nTime := numel i 5 in
      (Ret (Mex.mkCall (if Mex.probAxi c then 2 else 3) nTime 5 false false false 0),
       Mex.IntegrateFsGreen3dt_outputs c nTime)
  end.

Definition IntegrateFsGreen2d_inplane (i : Mex.Inputs) : result Mex.Call * Mex.Plhs :=
  match
    throw_if (negb (Mex.nrhs i =? 10)) wrong_number ;;;
    scalar i 1 "Cs" ;;; scalar i 2 "Cp" ;;; scalar i 3 "Ds" ;;; scalar i 4 "Dp" ;;;
    scalar i 5 "rho" ;;; vector i 6 "omega"
  with
  | Fail f => (Fail f, Mex.mkPlhs None None)
  | Ret _ =>
      let nFreq := numel i 6 in
      (Ret (Mex.mkCall 2 nFreq 4 true true true 0),
       Mex.IntegrateFsGreen2d_inplane_outputs (Mex.common i) nFreq)
  end.

Definition IntegrateFsGreen2d_inplane0 (i : Mex.Inputs) : result Mex.Call * Mex.Plhs :=
  match
    throw_if (negb (Mex.nrhs i =? 6)) wrong_number ;;;
    scalar i 1 "E" ;;; scalar i 2 "nu"
  with
  | Fail f => (Fail f, Mex.mkPlhs None None)
  | Ret _ =>
      (Ret (Mex.mkCall 2 1 4 false false false 0),
       Mex.IntegrateFsGreen2d_inplane0_outputs (Mex.common i))
  end.

Definition IntegrateFsGreen2d_outofplane (i : Mex.Inputs) : result Mex.Call * Mex.Plhs :=
  match
    throw_if (negb (Mex.nrhs i =? 8)) wrong_number ;;;
    scalar i 1 "Cs" ;;; scalar i 2 "Ds" ;;; scalar i 3 "rho" ;;; vector i 4 "omega"
  with
  | Fail f => (Fail f, Mex.mkPlhs None None)
  | Ret _ =>
      let nFreq := numel i 4 in
      (Ret (Mex.mkCall 1 nFreq 1 true true true 0),
       Mex.IntegrateFsGreen2d_outofplane_outputs (Mex.common i) nFreq)
  end.

Definition IntegrateFsGreen2d_outofplane0 (i : Mex.Inputs) : result Mex.Call * Mex.Plhs :=
  match
    throw_if (negb (Mex.nrhs i =? 5)) wrong_number ;;;
    scalar i 1 "mu"
  with
  | Fail f => (Fail f, Mex.mkPlhs None None)
  | Ret _ =>
      (Ret (Mex.mkCall 1 1 1 false false false 0),
       Mex.IntegrateFsGreen2d_outofplane0_outputs (Mex.common i))
  end.

(** *** [mexFunction] *)

(** An input argument as the MATLAB API shows it: what has been used of a
    numeric array already, whether it is a string or a cell array, the
    string [mxArrayToString] returns (without the final NUL) and whether
    [mxGetPr] returns a null pointer. *)
Record mxArg := mkArg {
  arr : Mex.mxArray;
  mxIsChar : bool;
  mxIsCell : bool;
  mxArrayToString : string;
  mxGetPr_null : bool
}.

(** The statics that hold the mesh, and the statements of [mexFunction]
    that compute them from the arguments once these have passed the tests
    made in [mexFunction] itself: the copies of [nod] and [elt], the flag
    [keyOpts], and, in [build], everything from
    [nEltType=mxGetM(prhs[2]);] to the end of the block (the type table,
    the collocation points, the tables of the elements and the sample
    points), which may throw.  [cleared] is the mesh after [cleanup()]. *)
Class MeshOps := {
  Mesh : Type;
  probDim_of : Mesh -> Z;
  probAxi_of : Mesh -> bool;
  probPeriodic_of : Mesh -> bool;
  nTotalColl_of : Mesh -> Z;
  set_nod : mxArg -> Mesh -> Mesh;
  set_elt : mxArg -> Mesh -> Mesh;
  set_keyOpts : bool -> Mesh -> Mesh;
  build : mxArg -> Mesh -> option string * Mesh;
  cleared : Mesh -> Mesh
}.

Section Function.
Context {E : Externals} {MO : MeshOps}.

Record Statics := mkStatics {
  CacheValid : bool;
  mesh : Mesh
}.

(** [cleanup()], registered with [mexAtExit] *)
Definition cleanup (st : Statics) : Statics := mkStatics false (cleared (mesh st)).

(** The locals that describe the form of the call. *)
Record Form := mkForm {
  Cache : bool;
  getCache : bool;
  UmatOut : bool;
  (** [s==0] *)
  s_null : bool;
  ms : Z;
  ns : Z;
  greenPos : Z
}.

Section Call.
Variables (nlhs nrhs : Z) (prhs : Z -> mxArg).

(** [prhs[k]] *)
Definition get (k : Z) : result mxArg :=
  if k <? nrhs then Ret (prhs k) else Fail (Beyond k).

(** The tests of a selection and the assignment of [ms], [ns] and [s]. *)
Definition read_s (k : Z) (f : Form) : result Form :=
  p <- get k ;;
  throw_if (negb (Mex.mxIsNumeric (arr p))) "Input argument 's' must be numeric." ;;;
  throw_if (Mex.mxIsSparse (arr p)) "Input argument 's' must not be sparse." ;;;
  throw_if (Mex.mxIsComplex (arr p)) "Input argument 's' must be real." ;;;
  Ret (mkForm (Cache f) (getCache f) (UmatOut f) (mxGetPr_null p)
              (u32 (Mex.mxGetM (arr p))) (u32 (Mex.mxGetN (arr p))) (greenPos f)).

Definition not_supported (k : Z) : result unit :=
  p <- get k ;;
  throw_if (negb (Mex.mxIsEmpty (arr p))) "Currently not supported...".

(** From [// INPUT ARGUMENT PROCESSING] to the test of [getCache]. *)
Definition head : result Form :=
  throw_if (nrhs <? 3) "Not enough input arguments." ;;;
  throw_if (nlhs >? 2) "Too many output arguments." ;;;
  c <- (if nrhs =? 3 then p <- get 0 ;; Ret (negb (mxIsChar p)) else Ret false) ;;
  let f := mkForm c false true true 0 0 3 in
  p0 <- get 0 ;;
  let f := if mxIsChar p0
           then mkForm (Cache f) true (UmatOut f) (s_null f) (ms f) (ns f) 0
           else f in
  p1 <- get 1 ;;
  f <- (if mxIsChar p1
        then read_s 0 (mkForm (Cache f) true (UmatOut f) (s_null f) (ms f) (ns f) 1)
        else Ret f) ;;
  p2 <- get 2 ;;
  (if mxIsChar p2
   then
     let f := mkForm (Cache f) true false (s_null f) (ms f) (ns f) 2 in
     not_supported 0 ;;; read_s 1 f
   else Ret f).

(** The block [if (getCache==false)]: the tests of [nod], [elt] and [typ]
    and the computation of the mesh.  The exception it leaves through, if
    any, and the statics after it. *)
Definition mesh_section (st : Statics) : result unit * Statics :=
  let st := mkStatics true (mesh st) in
  match get 0 with Fail f => (Fail f, st) | Ret p0 =>
  match
    throw_if (negb (Mex.mxIsNumeric (arr p0))) "Input argument 'nod' must be numeric." ;;;
    throw_if (Mex.mxIsSparse (arr p0)) "Input argument 'nod' must not be sparse." ;;;
    throw_if (Mex.mxIsComplex (arr p0)) "Input argument 'nod' must be real." ;;;
    throw_if (negb (Mex.mxGetN (arr p0) =? 4)) "Input argument 'nod' should have 4 columns."
  with Fail f => (Fail f, st) | Ret _ =>
  let st := mkStatics true (set_nod p0 (mesh st)) in
  match get 1 with Fail f => (Fail f, st) | Ret p1 =>
  match
    throw_if (negb (Mex.mxIsNumeric (arr p1))) "Input argument 'elt' must be numeric." ;;;
    throw_if (Mex.mxIsSparse (arr p1)) "Input argument 'elt' must not be sparse." ;;;
    throw_if (Mex.mxIsComplex (arr p1)) "Input argument 'elt' must be real." ;;;
    throw_if (Mex.mxGetN (arr p1) <=? 3) "Input argument 'elt' should have at least 3 columns."
  with Fail f => (Fail f, st) | Ret _ =>
  let st := mkStatics true (set_elt p1 (mesh st)) in
  match get 2 with Fail f => (Fail f, st) | Ret p2 =>
  match
    (if Mex.mxGetN (arr p2) =? 3 then Ret true
     else if Mex.mxGetN (arr p2) =? 2 then Ret false
     else Fail (Error "Input argument 'typ' should have 2 or 3 columns."))
  with Fail f => (Fail f, st) | Ret keyOpts =>
  let st := mkStatics true (set_keyOpts keyOpts (mesh st)) in
  if negb (mxIsCell p2)
  then (Fail (Error "Input argument 'typ' should be a cell array."), st)
  else
    match build p2 (mesh st) with
    | (Some msg, m) => (Fail (Error msg), mkStatics true m)
    | (None, m) => (Ret tt, mkStatics true m)
    end
  end end end end end end.

(** [// s passed] and [// su and st, check if su empty] *)
Definition selection (f : Form) : result Form :=
  p3 <- get 3 ;;
  if negb (mxIsChar p3) then
    let f := mkForm (Cache f) (getCache f) (UmatOut f) (s_null f) (ms f) (ns f) 4 in
    throw_if (nrhs <? 5) "Not enough input arguments." ;;;
    f <- read_s 3 f ;;
    p4 <- get 4 ;;
    if negb (mxIsChar p4) then
      let f := mkForm (Cache f) (getCache f) false (s_null f) (ms f) (ns f) 5 in
      throw_if (nrhs <? 6) "Not enough input arguments." ;;;
      not_supported 3 ;;;
      read_s 4 f
    else Ret f
  else Ret f.

End Call.

(** [strcasecmp(a,b)==0] *)
Definition tolower (c : ascii) : ascii :=
  if (65 <=? nat_of_ascii c)%nat && (nat_of_ascii c <=? 90)%nat
  then ascii_of_nat (nat_of_ascii c + 32)
  else c.

Fixpoint strcasecmp_eq (a b : string) : bool :=
  match a, b with
  | EmptyString, EmptyString => true
  | String x a', String y b' => Ascii.eqb (tolower x) (tolower y) && strcasecmp_eq a' b'
  | _, _ => false
  end.

Inductive Entry :=
| User | Fsgreenf | Fsgreen2d_inplane | Fsgreen2d_inplane0
| Fsgreen2d_outofplane | Fsgreen2d_outofplane0 | Fsgreen3d | Fsgreen3d0 | Fsgreen3dt.

(** The chain of [if (strcasecmp(green,"...")==0)] *)
Definition entry_of (green : string) : option Entry :=
  if strcasecmp_eq green "user" then Some User
  else if strcasecmp_eq green "fsgreenf" then Some Fsgreenf
  else if strcasecmp_eq green "fsgreen2d_inplane" then Some Fsgreen2d_inplane
  else if strcasecmp_eq green "fsgreen2d_inplane0" then Some Fsgreen2d_inplane0
  else if strcasecmp_eq green "fsgreen2d_outofplane" then Some Fsgreen2d_outofplane
  else if strcasecmp_eq green "fsgreen2d_outofplane0" then Some Fsgreen2d_outofplane0
  else if strcasecmp_eq green "fsgreen3d" then Some Fsgreen3d
  else if strcasecmp_eq green "fsgreen3d0" then Some Fsgreen3d0
  else if strcasecmp_eq green "fsgreen3dt" then Some Fsgreen3dt
  else None.

Definition unknown_green : string :=
  "Unknown fundamental solution type for input argument 'green'.".

Definition integrate (e : Entry) (i : Mex.Inputs) : result Mex.Call * Mex.Plhs :=
  match e with
  | User => let r := Mex.IntegrateGreenUser i in (lift (fst r), snd r)
  | Fsgreenf => IntegrateFsGreenf i
  | Fsgreen2d_inplane => IntegrateFsGreen2d_inplane i
  | Fsgreen2d_inplane0 => IntegrateFsGreen2d_inplane0 i
  | Fsgreen2d_outofplane => IntegrateFsGreen2d_outofplane i
  | Fsgreen2d_outofplane0 => IntegrateFsGreen2d_outofplane0 i
  | Fsgreen3d => IntegrateFsGreen3d i
  | Fsgreen3d0 => IntegrateFsGreen3d0 i
  | Fsgreen3dt => IntegrateFsGreen3dt i
  end.

(** What the entry point receives. *)
Definition inputs (nlhs nrhs : Z) (prhs : Z -> mxArg) (f : Form) (m : Mesh) : Mex.Inputs :=
  Mex.mkInputs
    (Mex.mkCommon (probAxi_of m) (probPeriodic_of m) (probDim_of m) (nTotalColl_of m)
                  (UmatOut f) (nlhs >? 1) (negb (s_null f)) (ms f) (ns f))
    nrhs (fun k => arr (prhs k)) (greenPos f).

(** How a call of [mexFunction] ends: normally, after the call of [bemmat]
    by an entry point if there was one, or with a fault; the output
    arguments; the statics. *)
Record Outcome := mkOutcome {
  ended : result (option (Entry * Mex.Call));
  plhs : Mex.Plhs;
  statics : Statics
}.

(** The part of [mexFunction] before [// INTEGRATE GREEN'S FUNCTION] is
    entered with [Cache==false]: the form of the call, once the mesh has
    been computed or found in the cache. *)
Definition front (st : Statics) (nlhs nrhs : Z) (prhs : Z -> mxArg) : result Form * Statics :=
  match head nlhs nrhs prhs with
  | Fail f => (Fail f, st)
  | Ret f =>
      let r := if getCache f then (Ret tt, st) else mesh_section nrhs prhs st in
      match fst r with
      | Fail e => (Fail e, snd r)
      | Ret _ =>
          (throw_if (getCache f && negb (CacheValid (snd r)))
                    "Mesh attributes are not cached!" ;;;
           (if negb (Cache f) && negb (getCache f) then selection nrhs prhs f else Ret f),
           snd r)
      end
  end.

Definition mexFunction (st : Statics) (nlhs nrhs : Z) (prhs : Z -> mxArg) : Outcome :=
  let r := front st nlhs nrhs prhs in
  match fst r with
  | Fail e => mkOutcome (Fail e) (Mex.mkPlhs None None) (snd r)
  | Ret f =>
      if Cache f then mkOutcome (Ret None) (Mex.mkPlhs None None) (snd r)
      else
        match
          p <- get nrhs prhs (greenPos f) ;;
          throw_if (negb (mxIsChar p)) "Input argument 'green' must be a string." ;;;
          match entry_of (mxArrayToString p) with
          | Some e => Ret e
          | None => Fail (Error unknown_green)
          end
        with
        | Fail e => mkOutcome (Fail e) (Mex.mkPlhs None None) (snd r)
        | Ret e =>
            let io := integrate e (inputs nlhs nrhs prhs f (mesh (snd r))) in
            mkOutcome (x <- fst io ;; Ret (Some (e, x))) (snd io) (snd r)
        end
  end.

End Function.

End Gateway.

(** The forms of a call of [bemmat], as [mexFunction] tells them apart. *)
Section Forms.
Context {E : Externals} {MO : Gateway.MeshOps}.

(** The selection in force is argument [k]: a full, real numeric array,
    whose size and data pointer are [ms], [ns] and [s]. *)
Definition selection_is (prhs : Z -> Gateway.mxArg) (k : Z) (f : Gateway.Form) : Prop :=
  Mex.mxIsNumeric (Gateway.arr (prhs k)) = true
  /\ Mex.mxIsSparse (Gateway.arr (prhs k)) = false
  /\ Mex.mxIsComplex (Gateway.arr (prhs k)) = false
  /\ Gateway.s_null f = Gateway.mxGetPr_null (prhs k)
  /\ Gateway.ms f = u32 (Mex.mxGetM (Gateway.arr (prhs k)))
  /\ Gateway.ns f = u32 (Mex.mxGetN (Gateway.arr (prhs k))).

(** No selection: [s==0], [ms==0], [ns==0]. *)
Definition no_selection (f : Gateway.Form) : Prop :=
  Gateway.s_null f = true /\ Gateway.ms f = 0 /\ Gateway.ns f = 0.

(** The name of the Green's function is argument [g]; what precedes it is
    nothing or the mesh ([g] = 0 or 3), a selection ([g] = 1 or 4), or an
    empty array and a selection, in which case only T is computed ([g] = 2
    or 5).  The mesh is taken from the cache when [g <= 2]. *)
Definition form_at (nrhs : Z) (prhs : Z -> Gateway.mxArg) (f : Gateway.Form) : Prop :=
  let g := Gateway.greenPos f in
  0 <= g <= 5 /\ g < nrhs
  /\ (Gateway.getCache f = true <-> g <= 2)
  /\ (Gateway.UmatOut f = false <-> g = 2 \/ g = 5)
  /\ (g = 0 \/ g = 3 -> no_selection f)
  /\ (g = 1 \/ g = 4 -> selection_is prhs (g - 1) f)
  /\ (g = 2 \/ g = 5 ->
      Mex.mxIsEmpty (Gateway.arr (prhs (g - 2))) = true /\ selection_is prhs (g - 1) f).

(** One of the first three arguments is a string: the call refers to the
    cached mesh. *)
Definition cached_form (prhs : Z -> Gateway.mxArg) : bool :=
  Gateway.mxIsChar (prhs 0) || Gateway.mxIsChar (prhs 1) || Gateway.mxIsChar (prhs 2).

End Forms.

(** *** The entry points *)

(** The constant the entry point compares [nrhs] with, for the six full
    space solutions that test [if (!(nrhs==N))]. *)
Definition fixed_count (e : Gateway.Entry) : option Z :=
  match e with
  | Gateway.Fsgreenf => Some 11
  | Gateway.Fsgreen3dt => Some 9
  | Gateway.Fsgreen2d_inplane => Some 10
  | Gateway.Fsgreen2d_inplane0 => Some 6
  | Gateway.Fsgreen2d_outofplane => Some 8
  | Gateway.Fsgreen2d_outofplane0 => Some 5
  | _ => None
  end.

(** The names [mexFunction] compares [green] with. *)
Definition name_of (e : Gateway.Entry) : string :=
  match e with
  | Gateway.User => "user"
  | Gateway.Fsgreenf => "fsgreenf"
  | Gateway.Fsgreen2d_inplane => "fsgreen2d_inplane"
  | Gateway.Fsgreen2d_inplane0 => "fsgreen2d_inplane0"
  | Gateway.Fsgreen2d_outofplane => "fsgreen2d_outofplane"
  | Gateway.Fsgreen2d_outofplane0 => "fsgreen2d_outofplane0"
  | Gateway.Fsgreen3d => "fsgreen3d"
  | Gateway.Fsgreen3d0 => "fsgreen3d0"
  | Gateway.Fsgreen3dt => "fsgreen3dt"
  end.

(** An argument that passes the four tests of a real scalar. *)
Definition real_scalar (a : Mex.mxArray) : Prop :=
  Mex.mxIsNumeric a = true /\ Mex.mxIsSparse a = false /\ Mex.mxIsComplex a = false
  /\ Mex.mxGetNumberOfElements a = 1.

(** * Small instances *)

Module Examples.

(** Four collocation points of which points 1 and 3 are singular. *)
Definition loc (c : Z) : Z := if (c =? 1) || (c =? 3) then 0 else 1.

(** An environment in which the license function has been replaced, and
    one in which it is the expected file. *)
Definition replaced : License.Env :=
  License.mkEnv (fun _ => "bemfunlicense.m"%string)
                (fun _ => "00000000000000000000000000000000"%string) 0.

Definition genuine : License.Env :=
  License.mkEnv (fun _ => "bemfunlicense.m"%string) (fun _ => License.BEMFUNLICENSE_HASH) 0.

(** A table [ug] of 5 x 1 components and tables [sg], [sg0] of 10 x 1. *)
Definition table (n : Z) : Mex.mxArray :=
  Mex.mkMx true false false false n 2 (fun k => if k =? 0 then n else 1) n 1
           Fixtures.zeros 0%float.

(** [[U,T]=bemmat(nod,elt,typ,'user',zs,r,z,ug,sg,sg0)] for a
    three-dimensional problem, with one source depth, one radius and one
    receiver depth. *)
Definition user_inputs : Mex.Inputs :=
  Mex.mkInputs (Mex.mkCommon false false 3 4 true true false 0 0)
    10
    (fun k => if k =? 7 then table 5
              else if (k =? 8) || (k =? 9) then table 10
              else Fixtures.grid [1%float])
    3.

(** Real scalars everywhere: [bemmat(nod,elt,typ,'fsgreen3d',Cs,Cp,Ds,Dp,rho)],
    without [omega]. *)
Definition short_inputs : Mex.Inputs :=
  Mex.mkInputs Fixtures.plain 9 (fun _ => Fixtures.grid [1%float]) 3.

(** [bemmat('fsgreen2d_outofplane0',mu)] *)
Definition cached_inputs : Mex.Inputs :=
  Mex.mkInputs Fixtures.plain 2 (fun _ => Fixtures.grid [1%float]) 0.

(** A mesh of which only the properties the entry points use are kept. *)
Definition mesh_ops : Gateway.MeshOps :=
  {| Gateway.Mesh := unit;
     Gateway.probDim_of := fun _ => 3;
     Gateway.probAxi_of := fun _ => false;
     Gateway.probPeriodic_of := fun _ => false;
     Gateway.nTotalColl_of := fun _ => 4;
     Gateway.set_nod := fun _ m => m;
     Gateway.set_elt := fun _ m => m;
     Gateway.set_keyOpts := fun _ m => m;
     Gateway.build := fun _ m => (None, m);
     Gateway.cleared := fun m => m |}.

Definition number : Gateway.mxArg :=
  Gateway.mkArg (Fixtures.grid [1%float]) false false EmptyString false.

Definition name (s : string) : Gateway.mxArg :=
  Gateway.mkArg (Fixtures.grid []) true false s true.

(** [bemmat('fsgreen3d0',E,nu)] *)
Definition cached_call (k : Z) : Gateway.mxArg :=
  if k =? 0 then name "fsgreen3d0"%string else number.

(** [bemmat(nod,elt,typ)] with a matrix [nod] of one column. *)
Definition mesh_call (k : Z) : Gateway.mxArg := number.

Definition no_mesh : @Gateway.Statics mesh_ops := @Gateway.mkStatics mesh_ops false tt.

End Examples.

(** * Properties *)

(** ** Machine integers *)

Lemma u32_range z : 0 <= u32 z < 2 ^ 32.
Proof. unfold u32. apply Z.mod_pos_bound. lia. Qed.

Lemma u32_small z : 0 <= z < 2 ^ 32 -> u32 z = z.
Proof. intros Hz. unfold u32. apply Z.mod_small. exact Hz. Qed.

Lemma u32_congr x y k : x = y + k * 2 ^ 32 -> u32 x = u32 y.
Proof. intros ->. unfold u32. apply Z_mod_plus_full. Qed.

Lemma u32_decomp x : u32 x = x + (- (x / 2 ^ 32)) * 2 ^ 32.
Proof. unfold u32. rewrite Z.mod_eq by lia. ring. Qed.

Lemma u32_add_l x y : u32 (u32 x + y) = u32 (x + y).
Proof.
  apply u32_congr with (k := - (x / 2 ^ 32)). rewrite (u32_decomp x). ring.
Qed.

Lemma u32_add_r x y : u32 (x + u32 y) = u32 (x + y).
Proof.
  apply u32_congr with (k := - (y / 2 ^ 32)). rewrite (u32_decomp y). ring.
Qed.

(** The index expression of the dense integrators is the wrapped flat
    index of entry [(rb + r, cb + c)] of slice [g]. *)
Lemma ix_flat n g cb c rb r :
  u32 (u32 (n * n * g) + n * (cb + c) + rb + r) = u32 (flat n n (rb + r) (cb + c) g).
Proof.
  unfold flat.
  replace (u32 (n * n * g) + n * (cb + c) + rb + r)
    with (u32 (n * n * g) + (n * (cb + c) + rb + r)) by ring.
  rewrite u32_add_l. f_equal. ring.
Qed.

(** ** Loops *)

Lemma range_from_app k1 k2 i :
  range_from (k1 + k2) i = range_from k1 i ++ range_from k2 (i + Z.of_nat k1).
Proof.
  revert i. induction k1 as [|k1 IH]; intros i; simpl.
  - now rewrite Z.add_0_r.
  - rewrite IH. do 3 f_equal. lia.
Qed.

Lemma in_range_from k i j : In j (range_from k i) <-> i <= j < i + Z.of_nat k.
Proof.
  revert i. induction k as [|k IH]; intros i; simpl.
  - lia.
  - rewrite IH. lia.
Qed.

Lemma in_range n j : In j (range n) <-> 0 <= j < n.
Proof. unfold range. rewrite in_range_from. lia. Qed.

Lemma range_snoc c : 0 <= c -> range (c + 1) = range c ++ [c].
Proof.
  intros Hc. unfold range. replace (Z.to_nat (c + 1)) with (Z.to_nat c + 1)%nat by lia.
  rewrite range_from_app. cbn [range_from]. do 2 f_equal. lia.
Qed.

Lemma for_from_fold {T : Type} k i (body : Z -> T -> T) s :
  for_from k i body s = fold_left (fun acc j => body j acc) (range_from k i) s.
Proof. revert i s. induction k as [|k IH]; intros i s; simpl; [reflexivity|apply IH]. Qed.

Lemma for_loop_fold {T : Type} n (body : Z -> T -> T) s :
  for_loop n body s = fold_left (fun acc j => body j acc) (range n) s.
Proof. apply for_from_fold. Qed.

(** A relation that is reflexive and transitive and that every iteration
    respects is respected by the loop. *)
Section LoopRel.
Context {T : Type} (R : T -> T -> Prop).
Hypothesis R_refl : forall s, R s s.
Hypothesis R_trans : forall s1 s2 s3, R s1 s2 -> R s2 s3 -> R s1 s3.

Lemma for_from_rel k i (body : Z -> T -> T) s :
    (forall j s, i <= j < i + Z.of_nat k -> R s (body j s)) ->
    R s (for_from k i body s).
Proof.
    revert i s. induction k as [|k IH]; intros i s Hb; simpl.
    - apply R_refl.
    - apply (R_trans _ (body i s)); [apply Hb; lia|]. apply IH. intros j s' Hj. apply Hb. lia.
Qed.

Lemma for_loop_rel n (body : Z -> T -> T) s :
    (forall j s, 0 <= j < n -> R s (body j s)) ->
    R s (for_loop n body s).
Proof.
    intros Hb. apply for_from_rel. intros j s' Hj. apply Hb. lia.
Qed.

Lemma block_rel (stmts : list (T -> T)) s :
    Forall (fun f => forall s, R s (f s)) stmts -> R s (block stmts s).
Proof.
    unfold block. intros Hs. revert s.
    induction Hs as [|f fs Hf _ IH]; intros s; simpl.
    - apply R_refl.
    - eapply R_trans; [apply Hf|apply IH].
Qed.

Lemma when_rel c (f : T -> T) s : (forall s, R s (f s)) -> R s (when c f s).
Proof. intros Hf. destruct c; simpl; [apply Hf|apply R_refl]. Qed.
End LoopRel.

(** ** Traces *)

Lemma replay_app m es1 es2 : replay m (es1 ++ es2) = replay (replay m es1) es2.
Proof. apply fold_left_app. Qed.

Lemma new_events_app s s' es : trace s' = trace s ++ es -> new_events s s' = es.
Proof.
  intros Ht. unfold new_events. rewrite Ht.
  rewrite skipn_app, skipn_all, Nat.sub_diag. reflexivity.
Qed.

Lemma emits_refl s : emits [] s s.
Proof. unfold emits. now rewrite app_nil_r. Qed.

Lemma emits_trans es1 es2 s1 s2 s3 :
  emits es1 s1 s2 -> emits es2 s2 s3 -> emits (es1 ++ es2) s1 s3.
Proof.
  intros (Ht1 & Hm1 & Hw1) (Ht2 & Hm2 & Hw2). unfold emits.
  rewrite Ht2, Ht1, Hm2, Hm1, Hw2, Hw1, replay_app, app_assoc. auto.
Qed.

Lemma emits_add b i v es s s' :
  emits es (add_at b i v s) s' -> emits (EAdd b i v :: es) s s'.
Proof.
  intros Hr. apply (emits_trans [EAdd b i v] es s (add_at b i v s) s'); [|exact Hr].
  now unfold emits.
Qed.

Lemma emits_sub b i v es s s' :
  emits es (sub_at b i v s) s' -> emits (ESub b i v :: es) s s'.
Proof.
  intros Hr. apply (emits_trans [ESub b i v] es s (sub_at b i v s) s'); [|exact Hr].
  now unfold emits.
Qed.

Lemma emits_print msg es s s' :
  emits es (mexPrintf msg s) s' -> emits (EPrint msg :: es) s s'.
Proof.
  intros Hr. apply (emits_trans [EPrint msg] es s (mexPrintf msg s) s'); [|exact Hr].
  now unfold emits.
Qed.

(** A loop whose iterations emit [F j] emits the concatenation of the
    [F j], as long as the working storage is [w]. *)
Lemma for_from_emits (w : Work) (F : Z -> list event) k i body s :
  wk s = w ->
  (forall j s, wk s = w -> emits (F j) s (body j s)) ->
  emits (flat_map F (range_from k i)) s (for_from k i body s).
Proof.
  revert i s. induction k as [|k IH]; intros i s Hw Hb; simpl.
  - apply emits_refl.
  - eapply emits_trans; [apply Hb, Hw|].
    apply IH; [|exact Hb]. destruct (Hb i s Hw) as (_ & _ & ->). exact Hw.
Qed.

Lemma for_loop_emits (w : Work) (F : Z -> list event) n body s :
  wk s = w ->
  (forall j s, wk s = w -> emits (F j) s (body j s)) ->
  emits (flat_map F (range n)) s (for_loop n body s).
Proof. apply for_from_emits. Qed.

Ltac straight_line :=
  cbn [block fold_left when opt app];
  repeat first [ apply emits_add | apply emits_sub | apply emits_print ];
  apply emits_refl.

(** ** Working storage threaded through a loop *)

Lemma steps_emits es s s' : emits es s s' <-> steps es (wk s) s s'.
Proof. reflexivity. Qed.

Lemma steps_trans es1 es2 w1 w2 s1 s2 s3 :
  steps es1 w1 s1 s2 -> steps es2 w2 s2 s3 -> steps (es1 ++ es2) w2 s1 s3.
Proof.
  intros (Ht1 & Hm1 & Hw1) (Ht2 & Hm2 & Hw2). unfold steps.
  rewrite Ht2, Ht1, Hm2, Hm1, replay_app, app_assoc. auto.
Qed.

Lemma for_from_steps (F : Z -> Work -> list event) (G : Z -> Work -> Work) k i body s :
  (forall j s, steps (F j (wk s)) (G j (wk s)) s (body j s)) ->
  steps (thread F G (range_from k i) (wk s)) (for_from k i G (wk s)) s
        (for_from k i body s).
Proof.
  intros Hb. revert i s. induction k as [|k IH]; intros i s; simpl.
  - unfold steps. now rewrite app_nil_r.
  - eapply steps_trans; [apply Hb|].
    destruct (Hb i s) as (_ & _ & Hw). rewrite <- Hw. apply IH.
Qed.

Lemma for_loop_steps (F : Z -> Work -> list event) (G : Z -> Work -> Work) n body s :
  (forall j s, steps (F j (wk s)) (G j (wk s)) s (body j s)) ->
  steps (thread F G (range n) (wk s)) (for_loop n G (wk s)) s (for_loop n body s).
Proof. apply for_from_steps. Qed.

Lemma filter_flat_map {A B : Type} (p : B -> bool) (f : A -> list B) l :
  filter p (flat_map f l) = flat_map (fun x => filter p (f x)) l.
Proof.
  induction l as [|x l IH]; simpl; [reflexivity|]. now rewrite filter_app, IH.
Qed.

Lemma filter_thread p F G l w :
  filter p (thread F G l w) = thread (fun j w => filter p (F j w)) G l w.
Proof.
  revert w. induction l as [|j l IH]; intros w; simpl; [reflexivity|].
  now rewrite filter_app, IH.
Qed.

Lemma thread_ext F F' G l w :
  (forall j w, F j w = F' j w) -> thread F G l w = thread F' G l w.
Proof.
  intros HF. revert w. induction l as [|j l IH]; intros w; simpl; [reflexivity|].
  now rewrite HF, IH.
Qed.

Section Reg3dFacts.
Context {E : Externals}.
Import Reg3d.

Lemma dense_grset_emits a w su rb cb g s :
  emits (dense_terms a w su rb cb g) s (dense_grset a w su rb cb g s).
Proof.
  unfold dense_grset, dense_terms.
  rewrite !ix_flat.
  destruct (ugCmplx a), (TmatOut a), (tgCmplx a); straight_line.
Qed.

Lemma dense_sum_emits a g iColl iXi s :
  emits (dense_sum_terms a g iColl iXi (wk s)) s (dense_sum a g iColl iXi s).
Proof.
  unfold dense_sum, dense_sum_terms.
  apply (for_loop_emits (wk s)); [reflexivity|]. intros iEltColl s1 Hw1.
  apply (for_loop_emits (wk s)); [exact Hw1|]. intros iGrSet s2 Hw2.
  rewrite Hw2. apply dense_grset_emits.
Qed.

Lemma eval_point_steps a g iColl iXi s :
  steps [EEval3d (xiR a g iColl iXi) (xiZ a g iColl iXi) (xiTheta a g iColl iXi)]
        (eval_work a g iColl iXi (wk s)) s (eval_point a g iColl iXi s).
Proof. unfold steps. auto. Qed.

Lemma dense_point_steps a g iColl iXi s :
  steps (dense_point_terms a g iColl iXi (wk s)) (eval_work a g iColl iXi (wk s))
        s (dense_point a g iColl iXi s).
Proof.
  unfold dense_point, dense_point_terms.
  change (?e :: ?l) with ([e] ++ l).
  eapply steps_trans; [apply eval_point_steps|].
  apply steps_emits. apply dense_sum_emits.
Qed.

Lemma block_grset_emits a w su i g s :
  emits (block_terms a w su i g) s (block_grset a w su i g s).
Proof.
  unfold block_grset, block_terms, slot_terms.
  rewrite !u32_add_l, !u32_add_r.
  destruct (tgCmplx a); straight_line.
Qed.

Lemma pick_grset_emits a w su i q g s :
  emits (pick_terms a w su i q g) s (pick_grset a w su i q g s).
Proof.
  unfold pick_grset, pick_terms.
  rewrite !u32_add_l, !u32_add_r.
  destruct (negb _), (tgCmplx a); straight_line.
Qed.

Lemma sel_sum_emits a g cumul i iXi s :
  emits (sel_sum_terms a g cumul i iXi (wk s)) s (sel_sum a g cumul i iXi s).
Proof.
  unfold sel_sum, sel_sum_terms.
  apply (for_loop_emits (wk s)); [reflexivity|]. intros iEltColl s1 Hw1.
  destruct (blockdiag a i).
  - apply (for_loop_emits (wk s)); [exact Hw1|]. intros iGrSet s2 Hw2.
    rewrite Hw2. apply block_grset_emits.
  - apply emits_print.
    destruct (InListuniquecollj a (EltCollIndex a iEltColl)); [|apply emits_refl].
    apply (for_loop_emits (wk s)); [exact Hw1|]. intros ii s2 Hw2.
    destruct (scollj a _ =? EltCollIndex a iEltColl); [|apply emits_refl].
    apply (for_loop_emits (wk s)); [exact Hw2|]. intros iGrSet s3 Hw3.
    rewrite Hw3. apply pick_grset_emits.
Qed.

End Reg3dFacts.

Lemma for_fromE_done_steps (F : Z -> Work -> list event) (G : Z -> Work -> Work)
      k i body s :
  (forall j s, i <= j < i + Z.of_nat k ->
               exists s1, body j s = Done s1 /\ steps (F j (wk s)) (G j (wk s)) s s1) ->
  exists s', for_fromE k i body s = Done s'
             /\ steps (thread F G (range_from k i) (wk s)) (for_from k i G (wk s)) s s'.
Proof.
  revert i s. induction k as [|k IH]; intros i s Hb; simpl.
  - exists s. split; [reflexivity|]. unfold steps. now rewrite app_nil_r.
  - destruct (Hb i s) as (s1 & Hs1 & Hst); [lia|]. rewrite Hs1.
    destruct (IH (i + 1) s1) as (s' & Hs' & Hst').
    { intros j s2 Hj. apply Hb. lia. }
    exists s'. split; [exact Hs'|].
    destruct Hst as (Ht & Hm & Hw). rewrite Hw in Hst'.
    eapply steps_trans; [|exact Hst']. unfold steps; eauto.
Qed.

Section Sing2dFacts.
Context {E : Externals}.
Import Sing2d.

Lemma sing_grset_emits a w su rb cb g s :
  emits (sing_terms a w su rb cb g) s (sing_grset a w su rb cb g s).
Proof.
  unfold sing_grset, sing_terms, nColDof.
  rewrite !ix_flat.
  destruct (nugComp a =? 1) eqn:H1.
  { apply Z.eqb_eq in H1. rewrite H1.
    destruct (ugCmplx a), (TmatOut a), (tgCmplx a), (tg0Cmplx a); straight_line. }
  destruct (nugComp a =? 4) eqn:H4.
  { apply Z.eqb_eq in H4. rewrite H4.
    destruct (ugCmplx a), (TmatOut a), (tgCmplx a), (tg0Cmplx a); straight_line. }
  destruct (nugComp a =? 9) eqn:H9.
  { apply Z.eqb_eq in H9. rewrite H9.
    destruct (ugCmplx a), (TmatOut a), (tgCmplx a), (tg0Cmplx a); straight_line. }
  apply emits_refl.
Qed.

Lemma sing_sum_emits a g iXi s :
  emits (sing_sum_terms a g iXi (wk s)) s (sing_sum a g iXi s).
Proof.
  unfold sing_sum, sing_sum_terms.
  apply (for_loop_emits (wk s)); [reflexivity|]. intros iEltColl s1 Hw1.
  apply (for_loop_emits (wk s)); [exact Hw1|]. intros iGrSet s2 Hw2.
  rewrite Hw2. apply sing_grset_emits.
Qed.

Lemma sing_point_done a g iXi s :
  coincides a g iXi = false ->
  exists s1, sing_point a g iXi s = Done s1
             /\ steps (sing_point_terms a g iXi (wk s)) (eval_work a g iXi (wk s)) s s1.
Proof.
  intros Hc. unfold sing_point. rewrite Hc. eexists. split; [reflexivity|].
  unfold sing_point_terms. change (?e :: ?l) with ([e] ++ l).
  apply (steps_trans _ _ (eval_work a g iXi (wk s)) _ s (eval_point a g iXi s)).
  - unfold steps. auto.
  - apply (sing_sum_emits a g iXi (eval_point a g iXi s)).
Qed.

Lemma sing_point_thrown a g iXi s :
  coincides a g iXi = true -> sing_point a g iXi s = Thrown coincide_msg s.
Proof. intros Hc. unfold sing_point. now rewrite Hc. Qed.

End Sing2dFacts.

Section Sing2dRuns.
Context {E : Externals}.
Import Sing2d.

(** The loop over the sample points when none of them coincides with the
    collocation point. *)
Lemma sing_loop_done a g k i s :
  (forall j, i <= j < i + Z.of_nat k -> coincides a g j = false) ->
  exists s', for_fromE k i (sing_point a g) s = Done s'
             /\ steps (thread (sing_point_terms a g) (eval_work a g) (range_from k i) (wk s))
                      (for_from k i (eval_work a g) (wk s)) s s'.
Proof.
  intros Hc. apply for_fromE_done_steps. intros j s1 Hj.
  apply sing_point_done. apply Hc, Hj.
Qed.

(** The loop when sample point [j] coincides: it is left at the first such
    point [i0], with the events of the points before [i0] only. *)
Lemma sing_loop_thrown a g k i s j :
  i <= j < i + Z.of_nat k -> coincides a g j = true ->
  exists i0 s1,
    i <= i0 <= j /\ coincides a g i0 = true
    /\ for_fromE k i (sing_point a g) s = Thrown coincide_msg s1
    /\ steps (thread (sing_point_terms a g) (eval_work a g)
                     (range_from (Z.to_nat (i0 - i)) i) (wk s))
             (for_from (Z.to_nat (i0 - i)) i (eval_work a g) (wk s)) s s1.
Proof.
  revert i s. induction k as [|k IH]; intros i s Hj Hc; [lia|].
  destruct (coincides a g i) eqn:Hi.
  - exists i, s. split; [lia|]. split; [exact Hi|].
    cbn [for_fromE]. rewrite (sing_point_thrown _ _ _ _ Hi). split; [reflexivity|].
    rewrite Z.sub_diag. cbn [Z.to_nat range_from thread for_from].
    unfold steps. now rewrite app_nil_r.
  - assert (Hne : j <> i) by (intros ->; congruence).
    destruct (sing_point_done a g i s Hi) as (s2 & Hs2 & Hst).
    destruct (IH (i + 1) s2) as (i0 & s1 & Hi0 & Hc0 & Hrun & Hst1); [lia|exact Hc|].
    exists i0, s1. split; [lia|]. split; [exact Hc0|].
    cbn [for_fromE]. rewrite Hs2. split; [exact Hrun|].
    replace (Z.to_nat (i0 - i)) with (S (Z.to_nat (i0 - (i + 1)))) by lia.
    cbn [range_from thread for_from]. destruct Hst as (Ht & Hm & Hw). rewrite Hw in Hst1.
    eapply steps_trans; [|exact Hst1]. unfold steps; eauto.
Qed.

End Sing2dRuns.

(** ** Kinds of events in the term lists *)

Lemma filter_opt {A : Type} (p : A -> bool) c l : filter p (opt c l) = opt c (filter p l).
Proof. now destruct c. Qed.

Lemma filter_none {A : Type} (p : A -> bool) l :
  Forall (fun x => p x = false) l -> filter p l = [].
Proof. induction 1 as [|x l Hx _ IH]; simpl; [reflexivity|]. now rewrite Hx. Qed.

Lemma filter_all {A : Type} (p : A -> bool) l :
  Forall (fun x => p x = true) l -> filter p l = l.
Proof. induction 1 as [|x l Hx _ IH]; simpl; [reflexivity|]. now rewrite Hx, IH. Qed.

Lemma acc_terms_adds b nDof n su ker stride rb cb g :
  Forall (fun e => is_add e = true /\ is_sub e = false /\ is_eval e = false)
         (acc_terms b nDof n su ker stride rb cb g).
Proof. unfold acc_terms. apply Forall_map, Forall_forall. intros; simpl; auto. Qed.

Lemma sub_terms_subs b nDof n su ker stride rb g :
  Forall (fun e => is_sub e = true /\ is_add e = false /\ is_eval e = false)
         (sub_terms b nDof n su ker stride rb g).
Proof. unfold sub_terms. apply Forall_map, Forall_forall. intros; simpl; auto. Qed.

Lemma filter_sub_acc b nDof n su ker stride rb cb g :
  filter is_sub (acc_terms b nDof n su ker stride rb cb g) = [].
Proof.
  apply filter_none. eapply Forall_impl; [|apply acc_terms_adds]. now intros e (_ & H & _).
Qed.

Lemma filter_sub_sub b nDof n su ker stride rb g :
  filter is_sub (sub_terms b nDof n su ker stride rb g) = sub_terms b nDof n su ker stride rb g.
Proof.
  apply filter_all. eapply Forall_impl; [|apply sub_terms_subs]. now intros e (H & _).
Qed.

Lemma filter_add_acc b nDof n su ker stride rb cb g :
  filter is_add (acc_terms b nDof n su ker stride rb cb g)
  = acc_terms b nDof n su ker stride rb cb g.
Proof.
  apply filter_all. eapply Forall_impl; [|apply acc_terms_adds]. now intros e (H & _).
Qed.

Lemma filter_add_sub b nDof n su ker stride rb g :
  filter is_add (sub_terms b nDof n su ker stride rb g) = [].
Proof.
  apply filter_none. eapply Forall_impl; [|apply sub_terms_subs]. now intros e (_ & H & _).
Qed.

Ltac filter_terms :=
  repeat rewrite ?filter_app, ?filter_opt, ?filter_sub_acc, ?filter_sub_sub,
                 ?filter_add_acc, ?filter_add_sub;
  repeat rewrite ?app_nil_r, ?app_nil_l.

Section Dense.
Context {E : Externals}.
Import Reg3d.

Lemma dense_terms_static a w su rb cb g :
  TmatOut a = true ->
  filter is_sub (dense_terms a w su rb cb g)
  = sub_terms TRe (nDof a) 3 su (TXi0Re w) 9 rb g
    ++ opt (tgCmplx a) (sub_terms TIm (nDof a) 3 su (TXi0Im w) 9 rb g).
Proof.
  intros HT. unfold dense_terms. rewrite HT. cbn [opt].
  destruct (ugCmplx a), (tgCmplx a); cbn [opt]; filter_terms; reflexivity.
Qed.

Lemma dense_terms_kernel a w su rb cb g :
  TmatOut a = true ->
  filter is_add (dense_terms a w su rb cb g)
  = acc_terms URe (nDof a) 3 su (UXiRe w) 9 rb cb g
    ++ opt (ugCmplx a) (acc_terms UIm (nDof a) 3 su (UXiIm w) 9 rb cb g)
    ++ acc_terms TRe (nDof a) 3 su (TXiRe w) 9 rb cb g
    ++ opt (tgCmplx a) (acc_terms TIm (nDof a) 3 su (TXiIm w) 9 rb cb g).
Proof.
  intros HT. unfold dense_terms. rewrite HT. cbn [opt].
  destruct (ugCmplx a), (tgCmplx a); cbn [opt]; filter_terms; reflexivity.
Qed.

Lemma dense_point_static a g iColl iXi w :
  TmatOut a = true ->
  filter is_sub (dense_point_terms a g iColl iXi w)
  = static_terms a g iColl iXi (eval_work a g iColl iXi w).
Proof.
  intros HT. unfold dense_point_terms, dense_sum_terms, static_terms.
  cbn [filter is_sub]. rewrite filter_flat_map.
  apply flat_map_ext. intros iEltColl. rewrite filter_flat_map.
  apply flat_map_ext. intros iGrSet. now apply dense_terms_static.
Qed.

Lemma dense_point_kernel a g iColl iXi w :
  TmatOut a = true ->
  filter is_add (dense_point_terms a g iColl iXi w)
  = kernel_terms a g iColl iXi (eval_work a g iColl iXi w).
Proof.
  intros HT. unfold dense_point_terms, dense_sum_terms, kernel_terms.
  cbn [filter is_add]. rewrite filter_flat_map.
  apply flat_map_ext. intros iEltColl. rewrite filter_flat_map.
  apply flat_map_ext. intros iGrSet. now apply dense_terms_kernel.
Qed.

(** The whole run in dense mode. *)
Lemma dense_mode_steps a g s :
  steps (thread (fun iColl w =>
                   opt (RegularColl a iColl =? 1)
                       (thread (dense_point_terms a g iColl) (eval_work a g iColl)
                               (range (nXi a)) w))
                (dense_work a g) (range (nColl a)) (wk s))
        (for_loop (nColl a) (dense_work a g) (wk s))
        s (dense_mode a g s).
Proof.
  unfold dense_mode. apply for_loop_steps. intros iColl s1.
  unfold dense_work, when. destruct (RegularColl a iColl =? 1); cbn [opt].
  - apply for_loop_steps. intros iXi s2. apply dense_point_steps.
  - unfold steps. now rewrite app_nil_r.
Qed.

Lemma dense_run_events a s :
  spassed a = false ->
  let g := geometry a in
  let s' := bemintreg3ddiag a s in
  new_events s s'
  = thread (fun iColl w =>
              opt (RegularColl a iColl =? 1)
                  (thread (dense_point_terms a g iColl) (eval_work a g iColl)
                          (range (nXi a)) w))
           (dense_work a g) (range (nColl a)) (init_work a)
  /\ mem s' = replay (mem s) (new_events s s').
Proof.
  intros Hs g s'. subst s'. unfold bemintreg3ddiag. rewrite Hs. fold g.
  destruct (dense_mode_steps a g (set_wk (init_work a) s)) as (Ht & Hm & _).
  cbn [set_wk trace mem wk] in Ht, Hm.
  rewrite (new_events_app _ _ _ Ht). split; [reflexivity|exact Hm].
Qed.

Lemma filter_per_sample_point p a g (T : Z -> Z -> Work -> list event) :
  (forall iColl iXi w,
      filter p (dense_point_terms a g iColl iXi w) = T iColl iXi (eval_work a g iColl iXi w)) ->
  filter p (thread (fun iColl w =>
                      opt (RegularColl a iColl =? 1)
                          (thread (dense_point_terms a g iColl) (eval_work a g iColl)
                                  (range (nXi a)) w))
                   (dense_work a g) (range (nColl a)) (init_work a))
  = per_sample_point a g T.
Proof.
  intros HT. unfold per_sample_point. rewrite filter_thread.
  apply thread_ext. intros iColl w. rewrite filter_opt. f_equal.
  rewrite filter_thread. apply thread_ext. intros iXi w'. apply HT.
Qed.

(** The definitions of the embedding and the interface spelled out agree. *)
Lemma eval_work_kernel3d a g iColl iXi w :
  eval_work a g iColl iXi w = kernel3d a g iColl iXi w.
Proof. reflexivity. Qed.

Lemma sumutil_weight3d a iXi iEltColl :
  sumutil a (geometry a) iXi iEltColl = weight3d a iXi iEltColl.
Proof. reflexivity. Qed.

Lemma thread_ext_both F F' G G' l w :
  (forall j w, F j w = F' j w) -> (forall j w, G j w = G' j w) ->
  thread F G l w = thread F' G' l w.
Proof.
  intros HF HG. revert w. induction l as [|j l IH]; intros w; simpl; [reflexivity|].
  now rewrite HF, HG, IH.
Qed.

Lemma dense_work_kernel_after a g iColl w :
  dense_work a g iColl w = kernel_after a g [iColl] w.
Proof.
  unfold dense_work, kernel_after. cbn [fold_left].
  destruct (RegularColl a iColl =? 1); [|reflexivity].
  apply for_loop_fold.
Qed.

Lemma for_loop_kernel_after a g l w :
  fold_left (fun w iColl => dense_work a g iColl w) l w = kernel_after a g l w.
Proof.
  unfold kernel_after. revert w. induction l as [|iColl l IH]; intros w; [reflexivity|].
  cbn [fold_left]. rewrite IH. f_equal.
  unfold dense_work. destruct (RegularColl a iColl =? 1); [|reflexivity].
  apply for_loop_fold.
Qed.

Lemma per_sample_point_spelled a g (T T' : Z -> Z -> Work -> list event) :
  (forall iColl iXi w, T iColl iXi w = T' iColl iXi w) ->
  per_sample_point a g T = at_sample_points a g T'.
Proof.
  intros HT. unfold per_sample_point, at_sample_points.
  apply thread_ext_both.
  - intros iColl w. f_equal. apply thread_ext_both; [|reflexivity].
    intros iXi w'. rewrite eval_work_kernel3d. apply HT.
  - intros iColl w. apply dense_work_kernel_after.
Qed.

Lemma static_terms_weighted a iColl iXi w :
  static_terms a (geometry a) iColl iXi w = weighted_static a iColl iXi w.
Proof. reflexivity. Qed.

Lemma kernel_terms_weighted a iColl iXi w :
  kernel_terms a (geometry a) iColl iXi w = weighted_kernel a iColl iXi w.
Proof. reflexivity. Qed.

(** The kernel a run in dense mode leaves. *)
Lemma dense_run_work a s :
  spassed a = false ->
  wk (bemintreg3ddiag a s) = kernel_after a (geometry a) (range (nColl a)) (init_work a).
Proof.
  intros Hs. unfold bemintreg3ddiag. rewrite Hs.
  destruct (dense_mode_steps a (geometry a) (set_wk (init_work a) s)) as (_ & _ & Hw).
  rewrite Hw. cbn [set_wk wk]. rewrite for_loop_fold. apply for_loop_kernel_after.
Qed.

(** C1. In dense mode with the traction matrix requested, what a run of
    [bemintreg3ddiag] does to the matrices is the replay of its stores,
    and these are, for every regular collocation point and every sample
    point, in order, the kernel being the one [greeneval3d] and
    [greenrotate3d] return for that sample point: per element collocation
    shape function and per Green's function set, the accumulation of the
    kernel into U and T and the subtraction of the nine components of the
    static traction kernel from the diagonal block of the collocation
    point (rows and columns both at [3*iColl]).  The subtractions and the
    accumulations carry the same weight, the product
    [H[iXi] * M[nEltColl*iXi+iEltColl] * Jac[iXi]] of the quadrature
    weight, the value of the collocation shape function and the Jacobian
    that [jacobian] returns; each happens once per sample point, shape
    function and Green's function set. *)
Theorem dense_static_part_on_diagonal (a : Args) (s : St) :
  spassed a = false -> TmatOut a = true ->
  let g := geometry a in
  let s' := bemintreg3ddiag a s in
  mem s' = replay (mem s) (new_events s s')
  /\ filter is_sub (new_events s s') = at_sample_points a g (weighted_static a)
  /\ filter is_add (new_events s s') = at_sample_points a g (weighted_kernel a)
  /\ wk s' = kernel_after a g (range (nColl a)) (init_work a).
Proof.
  intros Hs HT g s'. destruct (dense_run_events a s Hs) as (Hev & Hm).
  fold g in Hev. fold s' in Hev, Hm. split; [exact Hm|]. rewrite Hev.
  split; [|split].
  - rewrite (filter_per_sample_point is_sub a g (static_terms a g))
      by (intros; now apply dense_point_static).
    apply per_sample_point_spelled. intros. apply static_terms_weighted.
  - rewrite (filter_per_sample_point is_add a g (kernel_terms a g))
      by (intros; now apply dense_point_kernel).
    apply per_sample_point_spelled. intros. apply kernel_terms_weighted.
  - now apply dense_run_work.
Qed.

End Dense.

Lemma dense_static_part_witness :
  @Reg3d.spassed Probe.ext Probe.dense_args = false
  /\ @Reg3d.TmatOut Probe.ext Probe.dense_args = true
  /\ @weight3d Probe.ext Probe.dense_args 0 0 = 30%float
  /\ hd_error (filter is_sub
                 (new_events Probe.s0
                    (@Reg3d.bemintreg3ddiag Probe.ext Probe.dense_args Probe.s0)))
     = Some (ESub TRe 0 210%float)
  /\ List.length (filter is_sub
                    (new_events Probe.s0
                       (@Reg3d.bemintreg3ddiag Probe.ext Probe.dense_args Probe.s0)))
     = 9%nat.
Proof.
  split; [reflexivity|]. split; [reflexivity|]. split; [vm_compute; reflexivity|].
  destruct (@dense_static_part_on_diagonal Probe.ext Probe.dense_args Probe.s0
              eq_refl eq_refl) as (_ & Hsub & _).
  cbv zeta in Hsub. rewrite Hsub. split; vm_compute; reflexivity.
Defined.

(** ** Runs all of whose events satisfy a predicate *)

Lemma runs_refl Q s : runs Q s s.
Proof. exists []. rewrite app_nil_r. auto. Qed.

Lemma runs_trans Q s1 s2 s3 : runs Q s1 s2 -> runs Q s2 s3 -> runs Q s1 s3.
Proof.
  intros (es1 & Ht1 & Hm1 & HQ1) (es2 & Ht2 & Hm2 & HQ2). exists (es1 ++ es2).
  rewrite Ht2, Ht1, Hm2, Hm1, replay_app, app_assoc.
  split; [reflexivity|]. split; [reflexivity|]. apply Forall_app. auto.
Qed.

Lemma steps_runs Q es w s s' : steps es w s s' -> Forall Q es -> runs Q s s'.
Proof. intros (Ht & Hm & _) HQ. exists es. auto. Qed.

Lemma runs_new_events Q s s' : runs Q s s' -> Forall Q (new_events s s').
Proof. intros (es & Ht & _ & HQ). now rewrite (new_events_app _ _ _ Ht). Qed.

Lemma runs_replay Q s s' : runs Q s s' -> mem s' = replay (mem s) (new_events s s').
Proof. intros (es & Ht & Hm & _). now rewrite (new_events_app _ _ _ Ht). Qed.

(** Events that do not store into buffer [b] leave it as it is. *)
Lemma replay_frame b es m :
  Forall (fun e => store_buf e <> Some b) es -> replay m es b = m b.
Proof.
  intros HQ. revert m. induction HQ as [|e es He _ IH]; intros m; [reflexivity|].
  cbn [replay fold_left]. change (fold_left replay1 es (replay1 m e)) with (replay (replay1 m e) es).
  rewrite IH. destruct e as [b' i v|b' i v| | |]; try reflexivity;
    cbn [store_buf] in He; cbn [replay1];
    destruct b, b'; try reflexivity; congruence.
Qed.

(** Only the stores of a trace change the buffers. *)
Lemma replay_stores_only m es : replay m (filter is_store es) = replay m es.
Proof.
  unfold replay. revert m. induction es as [|e es IH]; intros m; [reflexivity|].
  cbn [fold_left filter]. destruct e; cbn [is_store fold_left replay1]; apply IH.
Qed.

Section Selection.
Context {E : Externals}.
Import Reg3d.

Lemma sel_point_steps a g cumul i iXi s :
  steps (EEval3d (xiR a g (uniquescolli a i) iXi) (xiZ a g (uniquescolli a i) iXi)
                  (xiTheta a g (uniquescolli a i) iXi)
         :: sel_sum_terms a g cumul i iXi (eval_work a g (uniquescolli a i) iXi (wk s)))
        (eval_work a g (uniquescolli a i) iXi (wk s)) s (sel_point a g cumul i iXi s).
Proof.
  unfold sel_point. change (?e :: ?l) with ([e] ++ l).
  apply (steps_trans _ _ (eval_work a g (uniquescolli a i) iXi (wk s)) _ s
                     (eval_point a g (uniquescolli a i) iXi s)).
  - apply eval_point_steps.
  - apply (sel_sum_emits a g cumul i iXi (eval_point a g (uniquescolli a i) iXi s)).
Qed.

Lemma Forall_sel_sum_terms (Q : event -> Prop) a g cumul i iXi w :
  (forall msg, Q (EPrint msg)) ->
  (blockdiag a i = true -> forall su iGrSet, Forall Q (block_terms a w su i iGrSet)) ->
  (blockdiag a i = false -> forall su q iGrSet, Forall Q (pick_terms a w su i q iGrSet)) ->
  Forall Q (sel_sum_terms a g cumul i iXi w).
Proof.
  intros Hp Hb Hk. unfold sel_sum_terms.
  apply Forall_flat_map, Forall_forall. intros iEltColl _.
  destruct (blockdiag a i).
  - apply Forall_flat_map, Forall_forall. intros iGrSet _. now apply Hb.
  - constructor; [apply Hp|].
    destruct (InListuniquecollj a (EltCollIndex a iEltColl)); [|constructor].
    apply Forall_flat_map, Forall_forall. intros ii _.
    destruct (scollj a _ =? EltCollIndex a iEltColl); [|constructor].
    apply Forall_flat_map, Forall_forall. intros iGrSet _. now apply Hk.
Qed.

(** A whole run in selection mode, from what holds of the terms of each
    selected collocation point. *)
Lemma sel_mode_runs (Q : event -> Prop) a g s :
  (forall x y t, Q (EEval3d x y t)) ->
  (forall i cumul iXi w, 0 <= i < Nuniquescolli a 0 ->
                         Forall Q (sel_sum_terms a g cumul i iXi w)) ->
  runs Q s (sel_mode a g s).
Proof.
  intros He Hsum. unfold sel_mode.
  apply (for_loop_rel (fun cs1 cs2 : Z * St => runs Q (snd cs1) (snd cs2))).
  - intros cs. apply runs_refl.
  - intros cs1 cs2 cs3. apply runs_trans.
  - intros i cs Hi. unfold sel_step. cbn [snd].
    apply (when_rel (runs Q)); [apply runs_refl|]. intros s1.
    apply (for_loop_rel (runs Q)); [apply runs_refl|apply runs_trans|].
    intros iXi s2 _. eapply steps_runs; [apply sel_point_steps|].
    constructor; [apply He|]. now apply Hsum.
Qed.

Lemma sel_run_runs (Q : event -> Prop) a s :
  spassed a = true ->
  (forall x y t, Q (EEval3d x y t)) ->
  (forall i cumul iXi w, 0 <= i < Nuniquescolli a 0 ->
                         Forall Q (sel_sum_terms a (geometry a) cumul i iXi w)) ->
  runs Q s (bemintreg3ddiag a s).
Proof.
  intros Hs He Hsum. unfold bemintreg3ddiag. rewrite Hs.
  destruct (sel_mode_runs Q a (geometry a) (set_wk (init_work a) s) He Hsum)
    as (es & Ht & Hm & HQ).
  exists es. auto.
Qed.

Lemma slot_terms_in b a su ker i g e :
  In e (slot_terms b a su ker i g) ->
  exists j, 0 <= j < 9
            /\ e = ESub b (u32 (ms a * ns a * g + inddiag a (u32 (9 * i + j))))
                        (su .* ker (u32 (9 * g + j))).
Proof.
  unfold slot_terms. rewrite in_map_iff. intros (j & <- & Hj).
  exists j. split; [|reflexivity]. apply in_range in Hj. lia.
Qed.

Lemma block_terms_in a w su i g e :
  In e (block_terms a w su i g) ->
  exists b ker j,
    ((b = TRe /\ ker = TXi0Re w) \/ (b = TIm /\ ker = TXi0Im w /\ tgCmplx a = true))
    /\ 0 <= j < 9
    /\ e = ESub b (u32 (ms a * ns a * g + inddiag a (u32 (9 * i + j))))
                (su .* ker (u32 (9 * g + j))).
Proof.
  unfold block_terms. rewrite in_app_iff. intros [Hin|Hin].
  - apply slot_terms_in in Hin. destruct Hin as (j & Hj & ->).
    exists TRe, (TXi0Re w), j. auto.
  - destruct (tgCmplx a) eqn:Htg; [|destruct Hin].
    apply slot_terms_in in Hin. destruct Hin as (j & Hj & ->).
    exists TIm, (TXi0Im w), j. auto 6.
Qed.

Lemma pick_terms_in a w su i q g e :
  In e (pick_terms a w su i q g) ->
  let comp := 3 * scompi a q + scompj a q in
  exists b ker,
    ((b = TRe /\ ker = TXi0Re w) \/ (b = TIm /\ ker = TXi0Im w /\ tgCmplx a = true))
    /\ inddiag a (u32 (9 * i + comp)) <> -1
    /\ e = ESub b (u32 (ms a * ns a * g + inddiag a (u32 (9 * i + comp))))
                (su .* ker (u32 (9 * g + comp))).
Proof.
  intros Hin comp. unfold pick_terms in Hin. cbv zeta in Hin. fold comp in Hin.
  destruct (inddiag a (u32 (9 * i + comp)) =? -1) eqn:Hs; [destruct Hin|].
  apply Z.eqb_neq in Hs. cbn [negb opt] in Hin. destruct Hin as [<-|Hin].
  - exists TRe, (TXi0Re w). auto.
  - destruct (tgCmplx a) eqn:Htg; [|destruct Hin].
    destruct Hin as [<-|[]]. exists TIm, (TXi0Im w). auto 6.
Qed.

(** C9. With a selection passed, [bemintreg3ddiag] leaves the
    displacement buffers [URe] and [UIm] as they are; every store it makes
    is a subtraction from [TRe] or [TIm]. *)
Theorem selection_leaves_displacement (a : Args) (s : St) :
  spassed a = true ->
  let s' := bemintreg3ddiag a s in
  mem s' URe = mem s URe /\ mem s' UIm = mem s UIm
  /\ Forall traction_sub (new_events s s').
Proof.
  intros Hs s'.
  assert (Hruns : runs traction_sub s s').
  { apply sel_run_runs; [exact Hs|intros x y t; discriminate|].
    intros i cumul iXi w _. apply Forall_sel_sum_terms.
    - intros msg; discriminate.
    - intros _ su g. apply Forall_forall. intros e He.
      apply block_terms_in in He.
      destruct He as (b & ker & j & [(-> & _)|(-> & _)] & _ & ->); split; cbn; auto.
    - intros _ su q g. apply Forall_forall. intros e He.
      apply pick_terms_in in He.
      destruct He as (b & ker & [(-> & _)|(-> & _)] & _ & ->); split; cbn; auto. }
  pose proof (runs_new_events _ _ _ Hruns) as Hall.
  rewrite (runs_replay _ _ _ Hruns).
  split; [|split; [|exact Hall]].
  - apply replay_frame. eapply Forall_impl; [|exact Hall].
    intros e He Hb. destruct e; try discriminate; destruct He as (_ & [H1|H1]);
      try reflexivity; congruence.
  - apply replay_frame. eapply Forall_impl; [|exact Hall].
    intros e He Hb. destruct e; try discriminate; destruct He as (_ & [H1|H1]);
      try reflexivity; congruence.
Qed.

End Selection.

Lemma selection_leaves_displacement_witness :
  @Reg3d.spassed Fixtures.ext Fixtures.pick_args = true
  /\ mem (@Reg3d.bemintreg3ddiag Fixtures.ext Fixtures.pick_args Fixtures.s0) URe
     = mem Fixtures.s0 URe.
Proof.
  split; [reflexivity|].
  apply (@selection_leaves_displacement Fixtures.ext Fixtures.pick_args Fixtures.s0).
  reflexivity.
Defined.

Section Refinement.
Context {E : Externals}.
Import Reg3d.





(** *** The stores of a whole run in selection mode *)

Lemma sel_entry_steps a g i (cs : Z * St) :
  steps (sel_entry_terms a g (fst cs) i (wk (snd cs)))
        (sel_entry_work a g i (wk (snd cs)))
        (snd cs) (snd (sel_step a g i cs)).
Proof.
  unfold sel_step, sel_entry_terms, sel_entry_work, when. cbn [snd].
  destruct (RegularColl a (uniquescolli a i) =? 1); cbn [opt].
  - apply for_loop_steps. intros iXi s1. apply sel_point_steps.
  - unfold steps. now rewrite app_nil_r.
Qed.

Lemma sel_from_steps a g k i (cs : Z * St) :
  steps (sel_thread a g (range_from k i) (fst cs) (wk (snd cs)))
        (fold_left (fun w j => sel_entry_work a g j w) (range_from k i) (wk (snd cs)))
        (snd cs) (snd (for_from k i (sel_step a g) cs)).
Proof.
  revert i cs. induction k as [|k IH]; intros i cs;
    cbn [for_from range_from sel_thread fold_left].
  - unfold steps. now rewrite app_nil_r.
  - pose proof (sel_entry_steps a g i cs) as Hstep.
    specialize (IH (i + 1) (sel_step a g i cs)).
    destruct Hstep as (Ht & Hm & Hw).
    rewrite Hw in IH. change (fst (sel_step a g i cs))
      with (u32 (fst cs + nuniquescolli a i)) in IH.
    eapply steps_trans; [|exact IH]. unfold steps. auto.
Qed.

Lemma cumul_at_succ a i :
  0 <= i -> cumul_at a (i + 1) = u32 (cumul_at a i + nuniquescolli a i).
Proof.
  intros Hi. unfold cumul_at. rewrite range_snoc by exact Hi.
  now rewrite fold_left_app.
Qed.

Lemma thread_ext_in F F' G l w :
  (forall j w, In j l -> F j w = F' j w) -> thread F G l w = thread F' G l w.
Proof.
  revert w. induction l as [|j l IH]; intros w HF; simpl; [reflexivity|].
  rewrite HF by now left. f_equal. apply IH. intros; apply HF; now right.
Qed.

(** A component whose slot is present is subtracted through it. *)
Lemma guarded_present b a su ker i g l :
  (forall j, In j l -> inddiag a (u32 (9 * i + j)) <> -1) ->
  flat_map (fun j => guarded_slot b a su ker i j g) l
  = map (fun j => ESub b (u32 (ms a * ns a * g + inddiag a (u32 (9 * i + j))))
                       (su .* ker (u32 (9 * g + j)))) l.
Proof.
  induction l as [|j l IH]; intros Hl; [reflexivity|].
  cbn [flat_map map]. rewrite IH by (intros; apply Hl; now right).
  unfold guarded_slot. cbv zeta.
  assert (Hj : inddiag a (u32 (9 * i + j)) <> -1) by (apply Hl; now left).
  apply Z.eqb_neq in Hj. rewrite Hj. reflexivity.
Qed.

Lemma block_terms_guarded a w su i g :
  (forall j, 0 <= j < 9 -> inddiag a (u32 (9 * i + j)) <> -1) ->
  block_terms a w su i g
  = flat_map (fun j => guarded_slot TRe a su (TXi0Re w) i j g) (comps 3)
    ++ opt (tgCmplx a) (flat_map (fun j => guarded_slot TIm a su (TXi0Im w) i j g) (comps 3)).
Proof.
  intros Hp. unfold block_terms, slot_terms.
  rewrite !guarded_present; [reflexivity| |];
    intros j Hj; apply Hp; unfold comps in Hj; apply in_range in Hj; lia.
Qed.

Lemma pick_terms_guarded a w su i q g :
  pick_terms a w su i q g
  = guarded_slot TRe a su (TXi0Re w) i (3 * scompi a q + scompj a q) g
    ++ opt (tgCmplx a)
         (guarded_slot TIm a su (TXi0Im w) i (3 * scompi a q + scompj a q) g).
Proof.
  unfold pick_terms, guarded_slot. cbv zeta.
  destruct (inddiag a (u32 (9 * i + (3 * scompi a q + scompj a q))) =? -1);
    destruct (tgCmplx a); reflexivity.
Qed.

Lemma block_terms_are_stores a w su i g :
  filter is_store (block_terms a w su i g) = block_terms a w su i g.
Proof.
  apply filter_all. apply Forall_forall. intros e He.
  apply block_terms_in in He. destruct He as (b & ker & j & _ & _ & ->). reflexivity.
Qed.

Lemma pick_terms_are_stores a w su i q g :
  filter is_store (pick_terms a w su i q g) = pick_terms a w su i q g.
Proof.
  apply filter_all. apply Forall_forall. intros e He.
  apply pick_terms_in in He. cbv zeta in He. destruct He as (b & ker & _ & _ & ->).
  reflexivity.
Qed.

(** The stores of one sample point: in a block flagged [blockdiag] the
    nine components through their slots, untested; outside, the selected
    components whose slot is not -1. *)
Lemma sel_point_stores a i iXi w :
  filter is_store (sel_sum_terms a (geometry a) (cumul_at a i) i iXi w)
  = if blockdiag a i then untested_stores a i iXi w else guarded_stores a i iXi w.
Proof.
  unfold sel_sum_terms, untested_stores, guarded_stores.
  rewrite filter_flat_map.
  destruct (blockdiag a i).
  - apply flat_map_ext. intros iEltColl. rewrite filter_flat_map.
    apply flat_map_ext. intros iGrSet. cbv zeta. rewrite sumutil_weight3d.
    apply block_terms_are_stores.
  - apply flat_map_ext. intros iEltColl. cbv zeta. cbn [filter is_store].
    destruct (InListuniquecollj a (EltCollIndex a iEltColl)); [|reflexivity].
    rewrite filter_flat_map. apply flat_map_ext. intros k.
    destruct (scollj a _ =? EltCollIndex a iEltColl); [|reflexivity].
    rewrite filter_flat_map. apply flat_map_ext. intros iGrSet.
    rewrite pick_terms_are_stores, sumutil_weight3d. apply pick_terms_guarded.
Qed.

Lemma sel_thread_stores a k i w :
  0 <= i ->
  filter is_store (sel_thread a (geometry a) (range_from k i) (cumul_at a i) w)
  = thread (fun i w =>
              opt (RegularColl a (uniquescolli a i) =? 1)
                  (thread (fun iXi w =>
                             (fun w => if blockdiag a i then untested_stores a i iXi w
                                       else guarded_stores a i iXi w)
                               (kernel3d a (geometry a) (uniquescolli a i) iXi w))
                          (kernel3d a (geometry a) (uniquescolli a i)) (range (nXi a)) w))
           (fun i w => kernel_after a (geometry a) [uniquescolli a i] w)
           (range_from k i) w.
Proof.
  revert i w. induction k as [|k IH]; intros i w Hi; [reflexivity|].
  cbn [range_from sel_thread thread]. rewrite filter_app.
  rewrite <- cumul_at_succ by exact Hi. rewrite IH by lia.
  f_equal.
  - unfold sel_entry_terms. rewrite filter_opt. f_equal. rewrite filter_thread.
    apply thread_ext. intros iXi w'. cbn [filter is_store]. cbv beta.
    apply sel_point_stores.
  - f_equal. unfold sel_entry_work, kernel_after. cbn [fold_left].
    destruct (RegularColl a (uniquescolli a i) =? 1); [|reflexivity].
    apply for_loop_fold.
Qed.

Lemma sel_run_work a s :
  spassed a = true ->
  wk (bemintreg3ddiag a s)
  = kernel_after a (geometry a) (map (uniquescolli a) (range (Nuniquescolli a 0)))
                 (init_work a).
Proof.
  intros Hs. unfold bemintreg3ddiag. rewrite Hs. unfold sel_mode, for_loop.
  destruct (sel_from_steps a (geometry a) (Z.to_nat (Nuniquescolli a 0)) 0
                           (0, set_wk (init_work a) s)) as (_ & _ & Hw).
  rewrite Hw. cbn [snd set_wk wk]. unfold kernel_after, range.
  generalize (range_from (Z.to_nat (Nuniquescolli a 0)) 0) as l.
  generalize (init_work a) as w. intros w l. revert w.
  induction l as [|i l IH]; intros w; [reflexivity|].
  cbn [map fold_left]. rewrite IH. f_equal.
  unfold sel_entry_work. destruct (RegularColl a (uniquescolli a i) =? 1); [|reflexivity].
  apply for_loop_fold.
Qed.

(** C4 as amended.  What a run with a selection does to the matrices is
    the replay of its stores, and these are, for every selected
    collocation point flagged regular and every sample point: outside the
    [blockdiag] branch, the selected components of the static part whose
    slot [inddiag[9*i+j]] is not -1, a component whose slot is -1 being
    dropped without any store; inside that branch, all nine components
    through their slots, without any test.  Hence no write through a slot
    that is -1 occurs provided every block flagged [blockdiag] has its
    nine slots present. *)
Theorem sentinel_respected (a : Args) (s : St) :
  spassed a = true ->
  let s' := bemintreg3ddiag a s in
  mem s' = replay (mem s) (filter is_store (new_events s s'))
  /\ filter is_store (new_events s s')
     = at_selected_points a (geometry a)
         (fun i iXi w => if blockdiag a i then untested_stores a i iXi w
                         else guarded_stores a i iXi w)
  /\ ((forall i j, 0 <= i < Nuniquescolli a 0 -> blockdiag a i = true -> 0 <= j < 9 ->
                   inddiag a (u32 (9 * i + j)) <> -1) ->
      sentinel_rule a s)
  /\ (forall w su i q iGrSet s1,
         inddiag a (u32 (9 * i + (3 * scompi a q + scompj a q))) = -1 ->
         pick_grset a w su i q iGrSet s1 = s1).
Proof.
  intros Hs s'.
  assert (Hrun : steps (sel_thread a (geometry a) (range (Nuniquescolli a 0)) 0 (init_work a))
                       (wk s') s s').
  { subst s'. unfold bemintreg3ddiag. rewrite Hs. unfold sel_mode, for_loop.
    destruct (sel_from_steps a (geometry a) (Z.to_nat (Nuniquescolli a 0)) 0
                             (0, set_wk (init_work a) s)) as (Ht & Hm & _).
    cbn [fst snd set_wk trace mem wk] in Ht, Hm. unfold steps, range. auto. }
  destruct Hrun as (Ht & Hm & _).
  assert (Hst : filter is_store (new_events s s')
                = at_selected_points a (geometry a)
                    (fun i iXi w => if blockdiag a i then untested_stores a i iXi w
                                    else guarded_stores a i iXi w)).
  { rewrite (new_events_app _ _ _ Ht).
    exact (sel_thread_stores a (Z.to_nat (Nuniquescolli a 0)) 0 (init_work a) (Z.le_refl 0)). }
  split; [|split; [exact Hst|split]].
  - rewrite (new_events_app _ _ _ Ht), replay_stores_only. exact Hm.
  - intros Hblk. unfold sentinel_rule. fold s'. rewrite Hst.
    unfold at_selected_points. apply thread_ext_in. intros i w Hi.
    apply in_range in Hi. f_equal. apply thread_ext. intros iXi w'.
    destruct (blockdiag a i) eqn:Hb; [|reflexivity].
    unfold untested_stores, guarded_stores. rewrite Hb.
    apply flat_map_ext. intros iEltColl. apply flat_map_ext. intros iGrSet.
    apply block_terms_guarded. intros j Hj. now apply Hblk.
  - intros w su i q iGrSet s1 Hslot. unfold pick_grset. rewrite Hslot. reflexivity.
Qed.

End Refinement.


Lemma sentinel_respected_witness :
  @Reg3d.spassed Probe.ext Probe.slot_args = true
  /\ (@sentinel_rule Probe.ext Probe.slot_args Probe.s0
      /\ filter is_store
           (new_events Probe.s0
              (@Reg3d.bemintreg3ddiag Probe.ext Probe.slot_args Probe.s0))
         = [ESub TRe 5 210%float])
  /\ (@sentinel_rule Fixtures.ext Fixtures.absent_args Fixtures.s0
      /\ filter is_store
           (new_events Fixtures.s0
              (@Reg3d.bemintreg3ddiag Fixtures.ext Fixtures.absent_args Fixtures.s0))
         = [])
  /\ (@sentinel_rule Probe.ext Probe.full_args Probe.s0
      /\ List.length
           (filter is_store
              (new_events Probe.s0
                 (@Reg3d.bemintreg3ddiag Probe.ext Probe.full_args Probe.s0)))
         = 9%nat).
Proof.
  split; [reflexivity|].
  destruct (@sentinel_respected Probe.ext Probe.slot_args Probe.s0 eq_refl)
    as (_ & Hst & Hrule & _).
  destruct (@sentinel_respected Fixtures.ext Fixtures.absent_args Fixtures.s0 eq_refl)
    as (_ & Hst' & Hrule' & _).
  destruct (@sentinel_respected Probe.ext Probe.full_args Probe.s0 eq_refl)
    as (_ & Hst'' & Hrule'' & _).
  split; [|split]; split.
  - apply Hrule. intros i j _ Hb. cbn in Hb. discriminate Hb.
  - cbv zeta in Hst. rewrite Hst. vm_compute. reflexivity.
  - apply Hrule'. intros i j _ Hb. cbn in Hb. discriminate Hb.
  - cbv zeta in Hst'. rewrite Hst'. vm_compute. reflexivity.
  - apply Hrule''. intros i j _ _ _. cbn. discriminate.
  - cbv zeta in Hst''. rewrite Hst''. vm_compute. reflexivity.
Defined.

(** C4 as stated fails: in a block flagged [blockdiag] of which only slot
    0 is present, the eight components whose slot is -1 are written all
    the same, at [ind0 - 1] (modulo 2^32). *)
Lemma blockdiag_writes_through_sentinel :
  @Reg3d.spassed Probe.ext Probe.mixed_args = true
  /\ @Reg3d.blockdiag Probe.ext Probe.mixed_args 0 = true
  /\ @Reg3d.inddiag Probe.ext Probe.mixed_args (u32 (9 * 0 + 1)) = -1
  /\ In (ESub TRe 4294967295 210%float)
        (new_events Probe.s0
           (@Reg3d.bemintreg3ddiag Probe.ext Probe.mixed_args Probe.s0))
  /\ mem (@Reg3d.bemintreg3ddiag Probe.ext Probe.mixed_args Probe.s0) TRe 4294967295
     = (-1680)%float
  /\ ~ @sentinel_rule Probe.ext Probe.mixed_args Probe.s0.
Proof.
  split; [reflexivity|]. split; [reflexivity|]. split; [reflexivity|].
  split; [vm_compute; auto 12|]. split; [vm_compute; reflexivity|].
  unfold sentinel_rule. intros Hrule.
  apply (f_equal (@List.length event)) in Hrule. vm_compute in Hrule. discriminate Hrule.
Qed.

(** ** The sign helper *)



Lemma thread_const (c : Z -> list event) G l w :
  thread (fun j _ => c j) G l w = flat_map c l.
Proof.
  revert w. induction l as [|j l IH]; intros w; simpl; [reflexivity|]. now rewrite IH.
Qed.

Lemma flat_map_singleton {A B : Type} (f : A -> B) l :
  flat_map (fun x => [f x]) l = map f l.
Proof. induction l as [|x l IH]; simpl; [reflexivity|]. now rewrite IH. Qed.

Section Singular.
Context {E : Externals}.
Import Sing2d.

Lemma sing_sum_terms_stores a g iXi w :
  Forall (fun e => is_eval e = false) (sing_sum_terms a g iXi w).
Proof.
  unfold sing_sum_terms.
  apply Forall_flat_map, Forall_forall. intros iEltColl _.
  apply Forall_flat_map, Forall_forall. intros iGrSet _.
  unfold sing_terms, opt.
  assert (Hacc : forall b n d su ker st rb cb g0,
             Forall (fun e => is_eval e = false) (acc_terms b n d su ker st rb cb g0)).
  { intros. eapply Forall_impl; [|apply acc_terms_adds]. now intros e (_ & _ & H). }
  assert (Hsub : forall b n d su ker st rb g0,
             Forall (fun e => is_eval e = false) (sub_terms b n d su ker st rb g0)).
  { intros. eapply Forall_impl; [|apply sub_terms_subs]. now intros e (_ & _ & H). }
  destruct (_ || _); [|constructor].
  destruct (ugCmplx a), (TmatOut a), (tgCmplx a), (tg0Cmplx a);
    repeat (apply Forall_app; split); auto; constructor.
Qed.

Lemma sing_point_evals a g iXi w :
  filter is_eval (sing_point_terms a g iXi w)
  = [EEval2d (xiR a g iXi) (xiZ a g iXi) (Xsgn a g iXi)].
Proof.
  unfold sing_point_terms. cbn [filter is_eval]. f_equal.
  apply filter_none, sing_sum_terms_stores.
Qed.

Lemma sing_thread_evals a g l w :
  filter is_eval (thread (sing_point_terms a g) (eval_work a g) l w)
  = map (fun iXi => EEval2d (xiR a g iXi) (xiZ a g iXi) (Xsgn a g iXi)) l.
Proof.
  rewrite filter_thread.
  rewrite (thread_ext _ (fun j _ => [EEval2d (xiR a g j) (xiZ a g j) (Xsgn a g j)])).
  - now rewrite thread_const, flat_map_singleton.
  - intros j w'. apply sing_point_evals.
Qed.

(** The definitions of the embedding and the rule spelled out agree. *)
Lemma geometry_of_singular_rule a :
  geometry a = rule_geometry a (singular_count a) (fst (singular_rule a)).
Proof. reflexivity. Qed.

Lemma eval_work_rule_kernel a iXi w :
  eval_work a (geometry a) iXi w
  = rule_kernel a (singular_count a) (fst (singular_rule a)) iXi w.
Proof. reflexivity. Qed.

Lemma sing_sum_terms_rule a iXi w :
  sing_sum_terms a (geometry a) iXi w
  = flat_map (fun iEltColl =>
      flat_map (fun iGrSet =>
        sing_terms a w
          (rule_weight a (singular_count a) (fst (singular_rule a)) (snd (singular_rule a))
                       iXi iEltColl)
          (u32 (nColDof a * iColl a))
          (u32 (nColDof a * EltCollIndex a iEltColl)) iGrSet)
        (range (nGrSet a)))
      (range (p_nEltColl (props a))).
Proof. reflexivity. Qed.

Lemma sing_sum_terms_are_stores a g iXi w :
  Forall (fun e => is_store e = true) (sing_sum_terms a g iXi w).
Proof.
  unfold sing_sum_terms.
  apply Forall_flat_map, Forall_forall. intros iEltColl _.
  apply Forall_flat_map, Forall_forall. intros iGrSet _.
  unfold sing_terms, opt.
  assert (Hacc : forall b n d su ker st rb cb g0,
             Forall (fun e => is_store e = true) (acc_terms b n d su ker st rb cb g0)).
  { intros. unfold acc_terms. apply Forall_map, Forall_forall. reflexivity. }
  assert (Hsub : forall b n d su ker st rb g0,
             Forall (fun e => is_store e = true) (sub_terms b n d su ker st rb g0)).
  { intros. unfold sub_terms. apply Forall_map, Forall_forall. reflexivity. }
  destruct (_ || _); [|constructor].
  destruct (ugCmplx a), (TmatOut a), (tgCmplx a), (tg0Cmplx a);
    repeat (apply Forall_app; split); auto; constructor.
Qed.

Lemma sing_point_stores a g iXi w :
  filter is_store (sing_point_terms a g iXi w) = sing_sum_terms a g iXi (eval_work a g iXi w).
Proof.
  unfold sing_point_terms. cbn [filter is_store].
  apply filter_all, sing_sum_terms_are_stores.
Qed.

(** The stores and the kernel of the whole loop, for the singular rule. *)
Lemma sing_thread_stores a w :
  filter is_store (thread (sing_point_terms a (geometry a)) (eval_work a (geometry a))
                          (range (nXi a)) w)
  = thread (fun iXi w =>
              flat_map (fun iEltColl =>
                flat_map (fun iGrSet =>
                  sing_terms a (rule_kernel a (singular_count a) (fst (singular_rule a)) iXi w)
                    (rule_weight a (singular_count a) (fst (singular_rule a))
                                 (snd (singular_rule a)) iXi iEltColl)
                    (u32 (nColDof a * iColl a))
                    (u32 (nColDof a * EltCollIndex a iEltColl)) iGrSet)
                  (range (nGrSet a)))
                (range (p_nEltColl (props a))))
           (rule_kernel a (singular_count a) (fst (singular_rule a)))
           (range (singular_count a)) w.
Proof.
  rewrite filter_thread.
  change (range (nXi a)) with (range (singular_count a)).
  generalize (range (singular_count a)) as l. intros l. revert w.
  induction l as [|iXi l IH]; intros w; [reflexivity|].
  cbn [thread]. rewrite sing_point_stores, IH.
  rewrite eval_work_rule_kernel, sing_sum_terms_rule. reflexivity.
Qed.

(** C7. [bemintsing2d] integrates with the singular rule.  When no point
    of the rule [gausspw1D(nEltDivSing,nGaussSing)] coincides with the
    collocation point the run ends normally.  The kernel it leaves is the
    one obtained by calling [greeneval2d] and [greenrotate2d] once for each
    of the [nEltDivSing*nGaussSing] points of that rule, in order, each
    time with the radial offset [fabs(Xdiff)], the vertical offset [Zdiff]
    and the sign [sign(Xdiff)] of that point.  What it does to the matrices
    is the replay of its stores, and these are, point by point, the terms
    of the kernel so evaluated, with the weight of that rule times the
    interpolation function at its points times the Jacobian there. *)
Theorem singular_rule_and_signed_radius (a : Args) (s : St) :
  (forall iXi, 0 <= iXi < singular_count a ->
     coincides a (rule_geometry a (singular_count a) (fst (singular_rule a))) iXi = false) ->
  exists s',
    bemintsing2d a s = Done s'
    /\ wk s' = rule_work a (singular_count a) (fst (singular_rule a))
    /\ filter is_store (new_events s s')
       = rule_stores a (singular_count a) (fst (singular_rule a)) (snd (singular_rule a))
    /\ mem s'
       = replay (mem s)
                (rule_stores a (singular_count a) (fst (singular_rule a))
                             (snd (singular_rule a))).
Proof.
  intros Hno. unfold bemintsing2d, for_loopE.
  destruct (sing_loop_done a (geometry a) (Z.to_nat (nXi a)) 0 (set_wk (init_work a) s))
    as (s' & Hrun & Ht & Hm & Hw).
  { intros j Hj. rewrite geometry_of_singular_rule. apply Hno.
    change (singular_count a) with (nXi a). lia. }
  exists s'. split; [exact Hrun|].
  cbn [set_wk trace wk mem] in Ht, Hm, Hw.
  assert (Hst : filter is_store (new_events s s')
                = rule_stores a (singular_count a) (fst (singular_rule a))
                              (snd (singular_rule a))).
  { rewrite (new_events_app _ _ _ Ht). fold (range (nXi a)). apply sing_thread_stores. }
  split; [|split; [exact Hst|]].
  - rewrite Hw. fold (for_loop (nXi a) (eval_work a (geometry a)) (init_work a)).
    rewrite for_loop_fold. reflexivity.
  - rewrite <- Hst, replay_stores_only, (new_events_app _ _ _ Ht). exact Hm.
Qed.

(** C2. If the offset of a sample point from the collocation point is
    zero radially and vertically, [bemintsing2d] leaves through the
    exception "An integration point coincides with the collocation point
    for singular integration."; it does so at the first such sample point
    [i0], and what the run has done by then is what the sample points
    before [i0] contribute: the evaluator is not called for [i0] and
    nothing is stored for it. *)
Theorem coinciding_sample_point_is_fatal (a : Args) (s : St) (iXi : Z) :
  0 <= iXi < nXi a ->
  PrimFloat.eqb (xiR a (geometry a) iXi) 0 = true ->
  PrimFloat.eqb (xiZ a (geometry a) iXi) 0 = true ->
  exists i0 s1,
    0 <= i0 <= iXi
    /\ coincides a (geometry a) i0 = true
    /\ bemintsing2d a s = Thrown coincide_msg s1
    /\ new_events s s1
       = thread (sing_point_terms a (geometry a)) (eval_work a (geometry a))
                (range i0) (init_work a)
    /\ mem s1 = replay (mem s) (new_events s s1)
    /\ filter is_eval (new_events s s1)
       = map (fun j => EEval2d (xiR a (geometry a) j) (xiZ a (geometry a) j)
                               (Xsgn a (geometry a) j))
             (range i0).
Proof.
  intros Hi HR HZ.
  assert (Hc : coincides a (geometry a) iXi = true).
  { unfold coincides. now rewrite HR, HZ. }
  unfold bemintsing2d, for_loopE.
  destruct (sing_loop_thrown a (geometry a) (Z.to_nat (nXi a)) 0
                             (set_wk (init_work a) s) iXi)
    as (i0 & s1 & Hi0 & Hc0 & Hrun & Ht & Hm & _); [lia|exact Hc|].
  exists i0, s1. rewrite Z.sub_0_r in Ht, Hm. fold (range i0) in Ht, Hm.
  cbn [set_wk trace wk mem] in Ht, Hm.
  rewrite (new_events_app _ _ _ Ht).
  split; [exact Hi0|]. split; [exact Hc0|]. split; [exact Hrun|].
  split; [reflexivity|]. split; [exact Hm|]. apply sing_thread_evals.
Qed.

Lemma sing_point_static a g iXi w :
  TmatOut a = true ->
  filter is_sub (sing_point_terms a g iXi w)
  = sing_static_terms a g iXi (eval_work a g iXi w).
Proof.
  intros HT. unfold sing_point_terms, sing_sum_terms, sing_static_terms.
  cbn [filter is_sub]. rewrite filter_flat_map.
  apply flat_map_ext. intros iEltColl. rewrite filter_flat_map.
  apply flat_map_ext. intros iGrSet. unfold sing_terms. rewrite HT. cbv zeta.
  rewrite filter_opt. f_equal.
  destruct (ugCmplx a), (tgCmplx a); cbn [opt]; filter_terms; reflexivity.
Qed.

(** The counterpart of C1 for [bemintsing2d]: in a run that ends normally
    with the traction matrix requested, the subtractions are, for every
    sample point, shape function and Green's function set, those of the
    components of the static traction kernel from the diagonal block of
    the collocation point, weighted by [H[iXi]*M[..]*Jac[iXi]]. *)
Lemma singular_static_part_on_diagonal (a : Args) (s : St) :
  TmatOut a = true ->
  (forall iXi, 0 <= iXi < nXi a -> coincides a (geometry a) iXi = false) ->
  exists s',
    bemintsing2d a s = Done s'
    /\ mem s' = replay (mem s) (new_events s s')
    /\ filter is_sub (new_events s s')
       = thread (fun iXi w =>
                   sing_static_terms a (geometry a) iXi (eval_work a (geometry a) iXi w))
                (eval_work a (geometry a)) (range (nXi a)) (init_work a).
Proof.
  intros HT Hno. unfold bemintsing2d, for_loopE.
  destruct (sing_loop_done a (geometry a) (Z.to_nat (nXi a)) 0 (set_wk (init_work a) s))
    as (s' & Hrun & Ht & Hm & _).
  { intros j Hj. apply Hno. lia. }
  exists s'. split; [exact Hrun|].
  cbn [set_wk trace wk mem] in Ht, Hm. rewrite (new_events_app _ _ _ Ht).
  split; [exact Hm|]. rewrite filter_thread. apply thread_ext.
  intros iXi w. now apply sing_point_static.
Qed.


End Singular.

Lemma singular_rule_witness :
  exists s',
    @Sing2d.bemintsing2d Probe.ext Probe.sing_args Probe.s0 = Done s'
    /\ (UgrRe (wk s') 0 = 3%float /\ Tgr0Re (wk s') 0 = 1%float)
    /\ filter is_store (new_events Probe.s0 s')
       = [EAdd URe 0 (-30)%float; EAdd TRe 0 40%float; ESub TRe 0 10%float;
          EAdd URe 0 30%float; EAdd TRe 0 40%float; ESub TRe 0 10%float].
Proof.
  destruct (@singular_rule_and_signed_radius Probe.ext Probe.sing_args Probe.s0)
    as (s' & Hrun & Hw & Hst & _).
  - intros iXi Hi. change (@singular_count Probe.ext Probe.sing_args) with 2 in Hi.
    assert (Hc : iXi = 0 \/ iXi = 1) by lia.
    destruct Hc as [-> | ->]; vm_compute; reflexivity.
  - exists s'. split; [exact Hrun|]. rewrite Hw, Hst.
    split; [split; vm_compute; reflexivity|vm_compute; reflexivity].
Defined.

Lemma coinciding_sample_point_witness :
  0 <= 0 < @Sing2d.nXi Fixtures.ext Fixtures.on_args
  /\ exists s1, @Sing2d.bemintsing2d Fixtures.ext Fixtures.on_args Fixtures.s0
                = Thrown Sing2d.coincide_msg s1.
Proof.
  assert (Hi : 0 <= 0 < @Sing2d.nXi Fixtures.ext Fixtures.on_args).
  { change (@Sing2d.nXi Fixtures.ext Fixtures.on_args) with 1. lia. }
  split; [exact Hi|].
  destruct (@coinciding_sample_point_is_fatal Fixtures.ext Fixtures.on_args Fixtures.s0 0 Hi)
    as (i0 & s1 & _ & _ & Hrun & _).
  - vm_compute. reflexivity.
  - vm_compute. reflexivity.
  - exists s1. exact Hrun.
Defined.


(** ** The entry points *)

Section EntryPoints.
Context {E : Externals}.
Import Mex.

Lemma bind_err_l {A B : Type} (m : res A) (k : A -> res B) :
  (exists msg, m = Err msg) -> exists msg, bind m k = Err msg.
Proof. intros (msg & ->). now exists msg. Qed.

Lemma bind_err_r {A B : Type} (m : res A) (k : A -> res B) :
  (forall x, exists msg, k x = Err msg) -> exists msg, bind m k = Err msg.
Proof.
  intros Hk. destruct m as [x|msg]; simpl; [apply Hk|now exists msg].
Qed.

Lemma increasing_from_ok k i a msg :
  1 <= i -> i + Z.of_nat k <= 2 ^ 32 ->
  increasing_from k i a msg = OK tt ->
  forall j, i <= j < i + Z.of_nat k -> PrimFloat.ltb (a (j - 1)) (a j) = true.
Proof.
  revert i. induction k as [|k IH]; intros i Hi Hk Hok j Hj; [lia|].
  cbn [increasing_from] in Hok.
  rewrite (u32_small (i - 1)) in Hok by lia.
  destruct (PrimFloat.ltb (a (i - 1)) (a i)) eqn:Hlt; [|discriminate].
  cbn [negb] in Hok.
  destruct (Z.eq_dec j i) as [->|Hne]; [exact Hlt|].
  apply (IH (i + 1)); [lia|lia|exact Hok|lia].
Qed.

Lemma increasing_from_cases k i a msg :
  increasing_from k i a msg = OK tt \/ increasing_from k i a msg = Err msg.
Proof.
  revert i. induction k as [|k IH]; intros i; cbn [increasing_from]; [now left|].
  destruct (negb _); [now right|apply IH].
Qed.

Lemma check_increasing_err n a msg :
  0 <= n <= 2 ^ 32 -> ~ strictly_increasing n a -> check_increasing n a msg = Err msg.
Proof.
  intros Hn Hnot. unfold check_increasing.
  destruct (increasing_from_cases (Z.to_nat (n - 1)) 1 a msg) as [Hok|Herr]; [|exact Herr].
  exfalso. apply Hnot. intros j Hj.
  apply (increasing_from_ok (Z.to_nat (n - 1)) 1 a msg); [lia|lia|exact Hok|lia].
Qed.

Lemma check_grid_err a name :
  ~ strictly_increasing (u32 (mxGetNumberOfElements a)) (mxGetPr a) ->
  exists msg, check_grid a name = Err msg.
Proof.
  intros Hnot. unfold check_grid.
  do 3 (apply bind_err_r; intros _).
  eexists. apply check_increasing_err; [|exact Hnot].
  pose proof (u32_range (mxGetNumberOfElements a)). lia.
Qed.

Lemma validate_grids i :
  ~ strictly_increasing (nzs i) (zs i)
  \/ ~ strictly_increasing (nr i) (r i)
  \/ ~ strictly_increasing (nz i) (z i) ->
  exists msg, validate i = Err msg.
Proof.
  intros Hnot. unfold validate.
  apply bind_err_r; intros _.
  destruct Hnot as [Hzs|[Hr|Hz]].
  - apply bind_err_l. now apply check_grid_err.
  - apply bind_err_r; intros _. apply bind_err_l. now apply check_grid_err.
  - do 2 (apply bind_err_r; intros _). apply bind_err_l. now apply check_grid_err.
Qed.

(** C5. [IntegrateGreenUser] tests the grids [zs], [r] and [z], each
    once and before anything is allocated.  If one of them is not strictly
    increasing the function leaves through an exception, and neither
    output argument has been assigned. *)
Theorem nonmonotonic_grid_aborts (i : Inputs) :
  ~ strictly_increasing (nzs i) (zs i)
  \/ ~ strictly_increasing (nr i) (r i)
  \/ ~ strictly_increasing (nz i) (z i) ->
  exists msg, IntegrateGreenUser i = (Err msg, mkPlhs None None).
Proof.
  intros Hnot. destruct (validate_grids i Hnot) as (msg & Hv).
  exists msg. unfold IntegrateGreenUser. now rewrite Hv.
Qed.

Lemma bind_ok {A B : Type} (m : res A) (k : A -> res B) y :
  bind m k = OK y -> exists x, m = OK x /\ k x = OK y.
Proof. destruct m as [x|msg]; simpl; [eauto|discriminate]. Qed.

Lemma check_grid_ok a name :
  check_grid a name = OK tt ->
  strictly_increasing (u32 (mxGetNumberOfElements a)) (mxGetPr a).
Proof.
  unfold check_grid. intros Hok.
  do 3 (apply bind_ok in Hok; destruct Hok as (_ & _ & Hok)).
  unfold check_increasing in Hok. intros j Hj.
  pose proof (u32_range (mxGetNumberOfElements a)).
  eapply (increasing_from_ok (Z.to_nat (u32 (mxGetNumberOfElements a) - 1)) 1
                             (mxGetPr a)); [| |exact Hok|]; lia.
Qed.

(** An entry point that returns has found the three grids strictly
    increasing. *)
Lemma accepted_grids_increase (i : Inputs) c p :
  IntegrateGreenUser i = (OK c, p) ->
  strictly_increasing (nzs i) (zs i)
  /\ strictly_increasing (nr i) (r i)
  /\ strictly_increasing (nz i) (z i).
Proof.
  unfold IntegrateGreenUser. destruct (validate i) as [[]|msg] eqn:Hv; [|discriminate].
  intros _. unfold validate in Hv.
  apply bind_ok in Hv. destruct Hv as (_ & _ & Hv).
  apply bind_ok in Hv. destruct Hv as ([] & Hzs & Hv).
  apply bind_ok in Hv. destruct Hv as ([] & Hr & Hv).
  apply bind_ok in Hv. destruct Hv as ([] & Hz & Hv).
  split; [|split]; eapply check_grid_ok; eassumption.
Qed.

End EntryPoints.

Lemma nonmonotonic_grid_witness :
  ~ strictly_increasing (@Mex.nzs Fixtures.flat_grid_inputs)
                        (@Mex.zs Fixtures.flat_grid_inputs)
  /\ exists msg, @Mex.IntegrateGreenUser Fixtures.ext Fixtures.flat_grid_inputs
                 = (Mex.Err msg, Mex.mkPlhs None None).
Proof.
  assert (Hnot : ~ strictly_increasing (@Mex.nzs Fixtures.flat_grid_inputs)
                                       (@Mex.zs Fixtures.flat_grid_inputs)).
  { intros Hsi.
    assert (Hf : PrimFloat.ltb (@Mex.zs Fixtures.flat_grid_inputs (1 - 1))
                               (@Mex.zs Fixtures.flat_grid_inputs 1) = true).
    { apply Hsi. change (1 <= 1 < 2). lia. }
    vm_compute in Hf. discriminate Hf. }
  split; [exact Hnot|].
  apply (@nonmonotonic_grid_aborts Fixtures.ext Fixtures.flat_grid_inputs).
  left. exact Hnot.
Defined.

(** ** Layout *)






Lemma Forall_opt {A : Type} (P : A -> Prop) c l : Forall P l -> Forall P (opt c l).
Proof. destruct c; [auto|constructor]. Qed.

Section Layout.
Context {E : Externals}.



Import Mex.



Ltac rule :=
  unfold complex_rule; cbn [plhs0 plhs1];
  split; [ intros u Hu; injection Hu as <-; cbn [out_complex]
         | intros t Ht;
           match type of Ht with
           | context [TmatOut ?c] => destruct (TmatOut c)
           end; [injection Ht as <-; cbn [out_complex]|discriminate Ht] ];
  repeat match goal with
         | |- context [probPeriodic ?c] => destruct (probPeriodic c)
         | |- context [ugCmplx ?i] => destruct (ugCmplx i)
         | |- context [tgCmplx ?i] => destruct (tgCmplx i)
         end; reflexivity.

(** C8 as amended.  [IntegrateGreenUser], [IntegrateFsGreen3d] and
    [IntegrateFsGreen3d0] allocate U complex exactly when the displacement
    kernel is complex or the problem is periodic, and T exactly when the
    traction kernel is complex or the problem is periodic.  The other six
    entry points allocate U and T complex exactly when the kernel is
    complex, whether or not the problem is periodic. *)
Theorem storage_class_per_entry_point (i : Inputs) (c : Common) (nFreq nWave nTime : Z) :
  complex_rule (IntegrateGreenUser_outputs i) (ugCmplx i) (tgCmplx i)
               (probPeriodic (common i))
  /\ complex_rule (IntegrateFsGreen3d_outputs c nFreq nWave) true true (probPeriodic c)
  /\ complex_rule (IntegrateFsGreen3d0_outputs c nWave) false false (probPeriodic c)
  /\ complex_rule (IntegrateFsGreenf_outputs c nWave nFreq) true true false
  /\ complex_rule (IntegrateFsGreen3dt_outputs c nTime) false false false
  /\ complex_rule (IntegrateFsGreen2d_inplane_outputs c nFreq) true true false
  /\ complex_rule (IntegrateFsGreen2d_inplane0_outputs c) false false false
  /\ complex_rule (IntegrateFsGreen2d_outofplane_outputs c nFreq) true true false
  /\ complex_rule (IntegrateFsGreen2d_outofplane0_outputs c) false false false.
Proof.
  split; [|split; [|split; [|split; [|split; [|split; [|split; [|split]]]]]]].
  - unfold IntegrateGreenUser_outputs. rule.
  - unfold IntegrateFsGreen3d_outputs. rule.
  - unfold IntegrateFsGreen3d0_outputs. rule.
  - unfold IntegrateFsGreenf_outputs. rule.
  - unfold IntegrateFsGreen3dt_outputs. rule.
  - unfold IntegrateFsGreen2d_inplane_outputs. rule.
  - unfold IntegrateFsGreen2d_inplane0_outputs. rule.
  - unfold IntegrateFsGreen2d_outofplane_outputs. rule.
  - unfold IntegrateFsGreen2d_outofplane0_outputs. rule.
Qed.

End Layout.



(** C8 as stated fails: for a periodic problem [IntegrateFsGreen3dt]
    allocates both matrices real. *)
Lemma periodic_transient_is_real :
  Mex.probPeriodic Fixtures.periodic = true
  /\ Mex.plhs0 (Mex.IntegrateFsGreen3dt_outputs Fixtures.periodic 5)
     = Some (Mex.mkOut [12; 12; 5] false)
  /\ ~ complex_rule (Mex.IntegrateFsGreen3dt_outputs Fixtures.periodic 5)
                    false false (Mex.probPeriodic Fixtures.periodic).
Proof.
  split; [reflexivity|]. split; [reflexivity|].
  intros (HU & _).
  specialize (HU (Mex.mkOut [12; 12; 5] false) eq_refl).
  vm_compute in HU. discriminate HU.
Qed.

(** * Further properties of the integrators *)

(** ** Buffers a run does not store into *)

Lemma Forall_thread (Q : event -> Prop) F G l w :
  (forall j w, Forall Q (F j w)) -> Forall Q (thread F G l w).
Proof.
  intros HF. revert w. induction l as [|j l IH]; intros w; simpl; [constructor|].
  apply Forall_app. split; [apply HF|apply IH].
Qed.

Lemma acc_terms_avoid b b' nDof n su ker stride rb cb g :
  b <> b' -> Forall (fun e => store_buf e <> Some b') (acc_terms b nDof n su ker stride rb cb g).
Proof.
  intros Hb. unfold acc_terms. apply Forall_map, Forall_forall. intros j _.
  cbn [store_buf]. congruence.
Qed.

Lemma sub_terms_avoid b b' nDof n su ker stride rb g :
  b <> b' -> Forall (fun e => store_buf e <> Some b') (sub_terms b nDof n su ker stride rb g).
Proof.
  intros Hb. unfold sub_terms. apply Forall_map, Forall_forall. intros j _.
  cbn [store_buf]. congruence.
Qed.

Ltac avoid_terms :=
  repeat first
    [ apply Forall_nil
    | apply Forall_app; split
    | apply Forall_opt
    | apply acc_terms_avoid; discriminate
    | apply sub_terms_avoid; discriminate ].

Section Frames.
Context {E : Externals}.

Lemma dense_terms_avoid_UIm (a : Reg3d.Args) w su rb cb g :
  Reg3d.ugCmplx a = false ->
  Forall (fun e => store_buf e <> Some UIm) (dense_terms a w su rb cb g).
Proof. intros H. unfold dense_terms. rewrite H. cbn [opt]. avoid_terms. Qed.

Lemma dense_terms_avoid_T (a : Reg3d.Args) w su rb cb g :
  Reg3d.TmatOut a = false ->
  Forall (fun e => store_buf e <> Some TRe /\ store_buf e <> Some TIm)
         (dense_terms a w su rb cb g).
Proof.
  intros H. unfold dense_terms. rewrite H. cbn [opt]. rewrite app_nil_r.
  apply Forall_app. split.
  - unfold acc_terms. apply Forall_map, Forall_forall. intros j _.
    cbn [store_buf]. split; congruence.
  - destruct (Reg3d.ugCmplx a); cbn [opt]; [|constructor].
    unfold acc_terms. apply Forall_map, Forall_forall. intros j _.
    cbn [store_buf]. split; congruence.
Qed.

Lemma dense_terms_avoid_TIm (a : Reg3d.Args) w su rb cb g :
  Reg3d.tgCmplx a = false ->
  Forall (fun e => store_buf e <> Some TIm) (dense_terms a w su rb cb g).
Proof. intros H. unfold dense_terms. rewrite H. cbn [opt]. avoid_terms. Qed.

(** The events of a whole run in dense mode satisfy what the terms of every
    Green's function set satisfy. *)
Lemma dense_run_Forall (Q : event -> Prop) (a : Reg3d.Args) (s : St) :
  Reg3d.spassed a = false ->
  (forall x y t, Q (EEval3d x y t)) ->
  (forall w su rb cb g, Forall Q (dense_terms a w su rb cb g)) ->
  Forall Q (new_events s (Reg3d.bemintreg3ddiag a s)).
Proof.
  intros Hs He Ht. destruct (dense_run_events a s Hs) as (Hev & _).
  cbv zeta in Hev. rewrite Hev. apply Forall_thread. intros iColl w.
  apply Forall_opt, Forall_thread. intros iXi w1.
  unfold dense_point_terms. constructor; [apply He|].
  unfold dense_sum_terms. apply Forall_flat_map, Forall_forall. intros iEltColl _.
  apply Forall_flat_map, Forall_forall. intros iGrSet _. apply Ht.
Qed.

(** X1.  In dense mode [bemintreg3ddiag] leaves the imaginary part of U as it
    is when the displacement kernel is real, both parts of T when the
    traction matrix is not requested, and the imaginary part of T when the
    traction kernel is real: the flag [tg0Cmplx] plays no part in what is
    stored. *)
Theorem dense_mode_leaves_unused_buffers (a : Reg3d.Args) (s : St) :
  Reg3d.spassed a = false ->
  (Reg3d.ugCmplx a = false ->
   mem (Reg3d.bemintreg3ddiag a s) UIm = mem s UIm)
  /\ (Reg3d.TmatOut a = false ->
      mem (Reg3d.bemintreg3ddiag a s) TRe = mem s TRe
      /\ mem (Reg3d.bemintreg3ddiag a s) TIm = mem s TIm)
  /\ (Reg3d.tgCmplx a = false ->
      mem (Reg3d.bemintreg3ddiag a s) TIm = mem s TIm).
Proof.
  intros Hs. destruct (dense_run_events a s Hs) as (_ & Hm). cbv zeta in Hm.
  split; [|split].
  - intros Hu. rewrite Hm. apply replay_frame.
    apply dense_run_Forall; [exact Hs|intros; cbn; discriminate|].
    intros. now apply dense_terms_avoid_UIm.
  - intros HT.
    assert (HF : Forall (fun e => store_buf e <> Some TRe /\ store_buf e <> Some TIm)
                        (new_events s (Reg3d.bemintreg3ddiag a s))).
    { apply dense_run_Forall; [exact Hs|intros; cbn; split; discriminate|].
      intros. now apply dense_terms_avoid_T. }
    rewrite Hm. split; apply replay_frame; eapply Forall_impl; try exact HF;
      cbn beta; intros e (H1 & H2); assumption.
  - intros Ht. rewrite Hm. apply replay_frame.
    apply dense_run_Forall; [exact Hs|intros; cbn; discriminate|].
    intros. now apply dense_terms_avoid_TIm.
Qed.

End Frames.

Lemma dense_mode_leaves_unused_buffers_witness :
  Reg3d.spassed Fixtures.dense_args = false
  /\ mem (Reg3d.bemintreg3ddiag Fixtures.dense_args Fixtures.s0) UIm = mem Fixtures.s0 UIm
  /\ mem (Reg3d.bemintreg3ddiag Fixtures.dense_args Fixtures.s0) TIm = mem Fixtures.s0 TIm.
Proof.
  split; [reflexivity|].
  destruct (@dense_mode_leaves_unused_buffers Fixtures.ext Fixtures.dense_args Fixtures.s0
              eq_refl) as (HU & _ & HT).
  split; [apply HU; reflexivity|apply HT; reflexivity].
Defined.


Section SingularFrames.
Context {E : Externals}.
Import Sing2d.





End SingularFrames.


(** ** The calls of the evaluator in [bemintreg3ddiag] *)

Section Evaluations.
Context {E : Externals}.
Import Reg3d.

Lemma dense_terms_no_eval (a : Args) w su rb cb g :
  Forall (fun e => is_eval e = false) (dense_terms a w su rb cb g).
Proof.
  unfold dense_terms.
  assert (Hacc : forall b n d su ker st rb cb g0,
             Forall (fun e => is_eval e = false) (acc_terms b n d su ker st rb cb g0)).
  { intros. eapply Forall_impl; [|apply acc_terms_adds]. now intros e (_ & _ & H). }
  assert (Hsub : forall b n d su ker st rb g0,
             Forall (fun e => is_eval e = false) (sub_terms b n d su ker st rb g0)).
  { intros. eapply Forall_impl; [|apply sub_terms_subs]. now intros e (_ & _ & H). }
  repeat first [apply Forall_app; split | apply Forall_opt | apply Hacc | apply Hsub].
Qed.

Lemma dense_point_evals a g iColl iXi w :
  filter is_eval (dense_point_terms a g iColl iXi w)
  = [EEval3d (xiR a g iColl iXi) (xiZ a g iColl iXi) (xiTheta a g iColl iXi)].
Proof.
  unfold dense_point_terms. cbn [filter is_eval]. f_equal.
  apply filter_none. unfold dense_sum_terms.
  apply Forall_flat_map, Forall_forall. intros iEltColl _.
  apply Forall_flat_map, Forall_forall. intros iGrSet _. apply dense_terms_no_eval.
Qed.

Lemma sel_sum_terms_no_eval a g cumul i iXi w :
  Forall (fun e => is_eval e = false) (sel_sum_terms a g cumul i iXi w).
Proof.
  apply Forall_sel_sum_terms.
  - reflexivity.
  - intros _ su iGrSet. apply Forall_forall. intros e He.
    apply block_terms_in in He. destruct He as (b & ker & j & _ & _ & ->). reflexivity.
  - intros _ su q iGrSet. apply Forall_forall. intros e He.
    apply pick_terms_in in He. cbv zeta in He. destruct He as (b & ker & _ & _ & ->).
    reflexivity.
Qed.

Lemma sel_thread_evals a g cumul i l w :
  filter is_eval
    (thread (fun iXi w =>
               EEval3d (xiR a g (uniquescolli a i) iXi) (xiZ a g (uniquescolli a i) iXi)
                       (xiTheta a g (uniquescolli a i) iXi)
               :: sel_sum_terms a g cumul i iXi (eval_work a g (uniquescolli a i) iXi w))
            (eval_work a g (uniquescolli a i)) l w)
  = map (fun iXi => EEval3d (xiR a g (uniquescolli a i) iXi) (xiZ a g (uniquescolli a i) iXi)
                            (xiTheta a g (uniquescolli a i) iXi)) l.
Proof.
  rewrite filter_thread.
  rewrite (thread_ext _ (fun j _ => [EEval3d (xiR a g (uniquescolli a i) j)
                                             (xiZ a g (uniquescolli a i) j)
                                             (xiTheta a g (uniquescolli a i) j)])).
  - now rewrite thread_const, flat_map_singleton.
  - intros j w'. cbn [filter is_eval]. f_equal.
    apply filter_none, sel_sum_terms_no_eval.
Qed.

Lemma sel_from_evals a g k i (cs : Z * St) :
  exists es,
    trace (snd (for_from k i (sel_step a g) cs)) = trace (snd cs) ++ es
    /\ filter is_eval es
       = flat_map (fun j => evals_at a g (uniquescolli a j)) (range_from k i).
Proof.
  revert i cs. induction k as [|k IH]; intros i cs; cbn [for_from range_from flat_map].
  - exists []. now rewrite app_nil_r.
  - assert (Hstep : exists es1,
               trace (snd (sel_step a g i cs)) = trace (snd cs) ++ es1
               /\ filter is_eval es1 = evals_at a g (uniquescolli a i)).
    { unfold sel_step, when, evals_at. cbn [snd].
      destruct (RegularColl a (uniquescolli a i) =? 1); cbn [opt].
      - destruct (for_loop_steps
                    (fun iXi w =>
                       EEval3d (xiR a g (uniquescolli a i) iXi)
                               (xiZ a g (uniquescolli a i) iXi)
                               (xiTheta a g (uniquescolli a i) iXi)
                       :: sel_sum_terms a g (fst cs) i iXi
                                        (eval_work a g (uniquescolli a i) iXi w))
                    (eval_work a g (uniquescolli a i)) (nXi a)
                    (sel_point a g (fst cs) i) (snd cs)) as (Ht1 & _).
        { intros j s. apply sel_point_steps. }
        eexists. split; [exact Ht1|]. apply sel_thread_evals.
      - exists []. now rewrite app_nil_r. }
    destruct Hstep as (es1 & Ht1 & Hf1).
    destruct (IH (i + 1) (sel_step a g i cs)) as (es2 & Ht2 & Hf2).
    exists (es1 ++ es2). split.
    + now rewrite Ht2, Ht1, app_assoc.
    + now rewrite filter_app, Hf1, Hf2.
Qed.

(** X3.  In either mode [bemintreg3ddiag] evaluates the Green's function
    once for every sample point of every collocation point it treats that
    is flagged regular ([RegularColl[iColl]==1]), in that order: all
    collocation points in dense mode, the collocation points
    [uniquescolli] of the selection otherwise.  The kernel buffers after
    the run are those obtained by calling [greeneval3d] and then
    [greenrotate3d] at these sample points in turn, on the buffers of the
    previous call, with the radial distance, the vertical offset and the
    angle of the sample point seen from the collocation point; the log of
    the calls lists them likewise.  A collocation point that is not
    flagged is skipped without any call. *)
Theorem regular_kernel_evaluations (a : Args) (s : St) :
  wk (bemintreg3ddiag a s) = kernel_after a (geometry a) (treated a) (init_work a)
  /\ filter is_eval (new_events s (bemintreg3ddiag a s))
     = flat_map (evals_at a (geometry a)) (treated a).
Proof.
  unfold treated. split.
  - destruct (spassed a) eqn:Hs; [now apply sel_run_work|now apply dense_run_work].
  - destruct (spassed a) eqn:Hs.
    + unfold bemintreg3ddiag. rewrite Hs. unfold sel_mode, for_loop.
      destruct (sel_from_evals a (geometry a) (Z.to_nat (Nuniquescolli a 0)) 0
                               (0, set_wk (init_work a) s)) as (es & Ht & Hf).
      cbn [snd set_wk trace] in Ht. rewrite (new_events_app _ _ _ Ht), Hf.
      unfold range. generalize (range_from (Z.to_nat (Nuniquescolli a 0)) 0).
      intros l. induction l as [|j l IH]; cbn [flat_map map]; [reflexivity|].
      now rewrite IH.
    + destruct (dense_run_events a s Hs) as (Hev & _). cbv zeta in Hev. rewrite Hev.
      rewrite filter_thread.
      rewrite (thread_ext _ (fun iColl _ => evals_at a (geometry a) iColl)).
      * apply thread_const.
      * intros iColl w. unfold evals_at. rewrite filter_opt. f_equal.
        rewrite filter_thread.
        rewrite (thread_ext _ (fun j _ => [EEval3d (xiR a (geometry a) iColl j)
                                                   (xiZ a (geometry a) iColl j)
                                                   (xiTheta a (geometry a) iColl j)])).
        -- now rewrite thread_const, flat_map_singleton.
        -- intros j w'. apply dense_point_evals.
Qed.

End Evaluations.

Lemma regular_kernel_evaluations_witness :
  @treated Probe.ext Probe.dense_args = [0]
  /\ UXiRe (wk (@Reg3d.bemintreg3ddiag Probe.ext Probe.dense_args Probe.s0)) 0 = 5%float
  /\ TXiRe (wk (@Reg3d.bemintreg3ddiag Probe.ext Probe.dense_args Probe.s0)) 0 = 12%float
  /\ TXi0Re (wk (@Reg3d.bemintreg3ddiag Probe.ext Probe.dense_args Probe.s0)) 0 = 7%float.
Proof.
  destruct (@regular_kernel_evaluations Probe.ext Probe.dense_args Probe.s0) as (Hw & _).
  rewrite Hw. vm_compute. repeat split; reflexivity.
Defined.

(** * Further properties of [IntegrateGreenUser] *)

Section UserTable.
Context {E : Externals}.
Import Mex.

Lemma throw_if_ok c msg x : throw_if c msg = OK x -> c = false.
Proof. unfold throw_if. destruct c; [discriminate|reflexivity]. Qed.

Lemma throw_if_bind_ok {B : Type} c msg (k : res B) y :
  (throw_if c msg ;;; k) = OK y -> c = false /\ k = OK y.
Proof. unfold throw_if. destruct c; [discriminate|]. cbn [bind]. auto. Qed.

Lemma dims_agree_from_ok k i d e msg :
  dims_agree_from k i d e msg = OK tt ->
  forall j, i <= j < i + Z.of_nat k -> d j = e j.
Proof.
  revert i. induction k as [|k IH]; intros i Hok j Hj; [lia|].
  cbn [dims_agree_from] in Hok.
  destruct (d i =? e i) eqn:Hd; [|discriminate]. cbn [negb] in Hok.
  destruct (Z.eq_dec j i) as [->|Hne]; [now apply Z.eqb_eq|].
  apply (IH (i + 1)); [exact Hok|lia].
Qed.

Lemma check_stress_ok i k name :
  check_stress i k name = OK tt ->
  mxGetDimensions (arg i k) 0 = ntgComp i
  /\ u32 (mxGetNumberOfDimensions (arg i k)) = nugdim i
  /\ forall j, 1 <= j < nugdim i -> mxGetDimensions (arg i k) j = ugdim i j.
Proof.
  unfold check_stress. cbv zeta. intros Hok.
  apply throw_if_bind_ok in Hok. destruct Hok as (_ & Hok).
  apply throw_if_bind_ok in Hok. destruct Hok as (_ & Hok).
  apply throw_if_bind_ok in Hok. destruct Hok as (H0 & Hok).
  apply throw_if_bind_ok in Hok. destruct Hok as (Hn & Hok).
  apply negb_false_iff, Z.eqb_eq in H0, Hn.
  split; [exact H0|]. split; [now symmetry|].
  intros j Hj. symmetry.
  apply (dims_agree_from_ok _ _ _ _ _ Hok). pose proof (u32_range 0). lia.
Qed.

(** X4.  A table [ug] that [IntegrateGreenUser] accepts for a problem of
    dimension 2 or 3 has a number of components that fits the kind of
    problem, so that the number of DOFs per collocation point passed on and
    the number of stress components are assigned values and never the
    content of the unassigned locals: 1, 4 or 9 components in two
    dimensions (1, 2 or 3 DOFs; 2, 6 or 18 stress components), 5 for an
    axisymmetric or a three-dimensional problem (10 stress components; 2
    DOFs if axisymmetric, 3 otherwise).  Its second to fourth dimensions
    are the lengths of [zs], [r] and [z].  When the traction matrix is
    requested, [sg] and [sg0] have that number of stress components as
    first dimension and the other dimensions of [ug]. *)
Theorem accepted_table_fits_problem (i : Inputs) (c : Call) (p : Plhs) :
  IntegrateGreenUser i = (OK c, p) ->
  (probDim (common i) = 2 \/ probDim (common i) = 3 ->
   (probDim (common i) = 2 /\ probAxi (common i) = false
    /\ ((nugComp i = 1 /\ c_nColDof c = 1 /\ ntgComp i = 2)
        \/ (nugComp i = 4 /\ c_nColDof c = 2 /\ ntgComp i = 6)
        \/ (nugComp i = 9 /\ c_nColDof c = 3 /\ ntgComp i = 18)))
   \/ ((probDim (common i) = 3 \/ probAxi (common i) = true)
       /\ nugComp i = 5 /\ ntgComp i = 10
       /\ c_nColDof c = (if probAxi (common i) then 2 else 3)))
  /\ nzs i = (if nugdim i >? 1 then ugdim i 1 else 1)
  /\ nr i = (if nugdim i >? 2 then ugdim i 2 else 1)
  /\ nz i = (if nugdim i >? 3 then ugdim i 3 else 1)
  /\ (TmatOut (common i) = true ->
      forall k, k = 5 \/ k = 6 ->
        mxGetDimensions (arg i k) 0 = ntgComp i
        /\ u32 (mxGetNumberOfDimensions (arg i k)) = nugdim i
        /\ forall j, 1 <= j < nugdim i -> mxGetDimensions (arg i k) j = ugdim i j).
Proof.
  unfold IntegrateGreenUser. destruct (validate i) as [[]|msg] eqn:Hv; [|discriminate].
  intros Hc. injection Hc as <- _. cbn [c_nColDof].
  unfold validate in Hv. cbv zeta in Hv.
  apply bind_ok in Hv. destruct Hv as (_ & _ & Hv).
  apply bind_ok in Hv. destruct Hv as (_ & _ & Hv).
  apply bind_ok in Hv. destruct Hv as (_ & _ & Hv).
  apply bind_ok in Hv. destruct Hv as (_ & _ & Hv).
  apply throw_if_bind_ok in Hv. destruct Hv as (_ & Hv).
  apply throw_if_bind_ok in Hv. destruct Hv as (_ & Hv).
  apply throw_if_bind_ok in Hv. destruct Hv as (_ & Hv).
  apply bind_ok in Hv. destruct Hv as (xd & Hdim & Hv).
  apply throw_if_bind_ok in Hv. destruct Hv as (Hzs & Hv).
  apply throw_if_bind_ok in Hv. destruct Hv as (Hr & Hv).
  apply throw_if_bind_ok in Hv. destruct Hv as (Hz & Hv).
  apply bind_ok in Hv. destruct Hv as (xt & HT & _).
  apply negb_false_iff, Z.eqb_eq in Hzs, Hr, Hz.
  split; [|split; [exact Hzs|split; [exact Hr|split; [exact Hz|]]]].
  - intros Hd. unfold nColDof, ntgComp.
    destruct (probDim (common i) =? 2) eqn:H2.
    + apply Z.eqb_eq in H2.
      apply throw_if_bind_ok in Hdim. destruct Hdim as (Hna & Hax).
      apply throw_if_ok in Hax.
      destruct (probAxi (common i)) eqn:Ha.
      * right. cbn [andb] in Hax. apply negb_false_iff in Hax.
        rewrite Hax. apply Z.eqb_eq in Hax. rewrite Hax. cbn.
        split; [now right|]. repeat split; reflexivity.
      * left. cbn [negb andb] in Hna. apply negb_false_iff in Hna.
        split; [exact H2|]. split; [reflexivity|].
        rewrite !andb_false_r.
        destruct (nugComp i =? 1) eqn:E1.
        { left. apply Z.eqb_eq in E1. rewrite E1. cbn. auto. }
        destruct (nugComp i =? 4) eqn:E4.
        { right; left. apply Z.eqb_eq in E4. rewrite E4. cbn. auto. }
        destruct (nugComp i =? 9) eqn:E9; [|discriminate].
        right; right. apply Z.eqb_eq in E9. rewrite E9. cbn. auto.
    + destruct (probDim (common i) =? 3) eqn:H3.
      * apply Z.eqb_eq in H3. apply throw_if_ok in Hdim. apply negb_false_iff in Hdim.
        right. rewrite Hdim. apply Z.eqb_eq in Hdim. rewrite Hdim. cbn.
        split; [now left|]. split; [reflexivity|]. split; [reflexivity|].
        now destruct (probAxi (common i)).
      * apply Z.eqb_neq in H2, H3. lia.
  - intros Ht k Hk. rewrite Ht in HT.
    apply throw_if_bind_ok in HT. destruct HT as (_ & HT).
    apply bind_ok in HT. destruct HT as ([] & Hsg & Hsg0).
    destruct Hk as [->| ->]; [exact (check_stress_ok _ _ _ Hsg)|].
    destruct xt. exact (check_stress_ok _ _ _ Hsg0).
Qed.

End UserTable.

Lemma accepted_table_fits_problem_witness :
  Mex.nugComp Examples.user_inputs = 5
  /\ @Mex.ntgComp Fixtures.ext Examples.user_inputs = 10
  /\ Mex.mxGetDimensions (Mex.arg Examples.user_inputs 5) 0 = 10.
Proof.
  destruct (@accepted_table_fits_problem Fixtures.ext Examples.user_inputs
              (Mex.mkCall 3 1 5 false false false 0)
              (snd (@Mex.IntegrateGreenUser Fixtures.ext Examples.user_inputs)))
    as (Hd & _ & _ & _ & HT).
  - vm_compute. reflexivity.
  - destruct Hd as [(H2 & _)|(_ & Hu & Ht & _)]; [right; reflexivity| |].
    + vm_compute in H2. discriminate.
    + split; [exact Hu|]. split; [exact Ht|].
      destruct (HT eq_refl 5) as (H0 & _); [left; reflexivity|].
      rewrite H0. exact Ht.
Defined.

(** * The license check *)

Section LicenseFacts.
Import License.

Lemma checklicense_cached env now st :
  licenseStatus st <> -1 -> now - lastVerified st < 7200 ->
  checklicense env now st = (None, st).
Proof.
  intros Hs Ht. unfold checklicense.
  destruct (now - lastVerified st >=? 7200) eqn:Hge; [lia|].
  apply Z.eqb_neq in Hs. now rewrite Hs.
Qed.

(** X5.  Once a status other than -1 has been recorded at time [t0], every
    call made before [t0 + 7200] (also one made with the clock set back
    before [t0]) returns normally without consulting MATLAB or the license
    file, whatever they would answer, and leaves the statics as they are:
    a license function that was replaced or a license that was withdrawn is
    not noticed for two hours. *)
Theorem license_verdict_is_kept_two_hours (l : list (Env * Z)) (status t0 : Z) :
  status <> -1 ->
  Forall (fun c => snd c < t0 + 7200) l ->
  calls l (mkStatics status t0)
  = (map (fun _ => None) l, mkStatics status t0).
Proof.
  intros Hs Hl. induction Hl as [|[env now] l Hnow _ IH]; [reflexivity|].
  cbn [calls map]. cbn [snd] in Hnow.
  rewrite checklicense_cached by (cbn [licenseStatus lastVerified]; lia).
  cbn [fst snd]. now rewrite IH.
Qed.

(** X6.  When the status is unknown or two hours have passed since the last
    verification, the call verifies: if the digest of the file that
    implements [bemfunlicense] is not the expected one the call leaves
    through the exception, the status is unknown afterwards and the time
    of the last verification is not changed, so that the next call verifies
    again whenever it is made; otherwise the call records the time and the
    value [bemfunlicense] returned and returns normally whatever that value
    is. *)
Theorem license_verification (env : Env) (now : Z) (st : Statics) :
  licenseStatus st = -1 \/ 7200 <= now - lastVerified st ->
  (rmdfile env (which env "bemfunlicense") <> BEMFUNLICENSE_HASH ->
   checklicense env now st = (Some invalid_msg, mkStatics (-1) (lastVerified st))
   /\ forall env' now',
        rmdfile env' (which env' "bemfunlicense") = BEMFUNLICENSE_HASH ->
        checklicense env' now' (mkStatics (-1) (lastVerified st))
        = (None, mkStatics (VerifyOnce env') now'))
  /\ (rmdfile env (which env "bemfunlicense") = BEMFUNLICENSE_HASH ->
      checklicense env now st = (None, mkStatics (VerifyOnce env) now)).
Proof.
  intros Hst.
  assert (Hreset : (if now - lastVerified st >=? 7200
                    then mkStatics (-1) (lastVerified st) else st)
                   = mkStatics (-1) (lastVerified st)).
  { destruct (now - lastVerified st >=? 7200) eqn:Hge; [reflexivity|].
    destruct Hst as [Hs|Ht]; [|lia]. destruct st as [s t]. cbn in Hs |- *. now rewrite Hs. }
  split.
  - intros Hbad. split.
    + unfold checklicense. rewrite Hreset. cbn [licenseStatus Z.eqb].
      unfold checkintegrity. apply String.eqb_neq in Hbad. rewrite Hbad. reflexivity.
    + intros env' now' Hgood. unfold checklicense. cbn [licenseStatus lastVerified].
      assert (Hif : (if now' - lastVerified st >=? 7200
                     then mkStatics (-1) (lastVerified st)
                     else mkStatics (-1) (lastVerified st))
                    = mkStatics (-1) (lastVerified st))
        by (destruct (now' - lastVerified st >=? 7200); reflexivity).
      rewrite Hif. cbn [licenseStatus Z.eqb].
      unfold checkintegrity. apply String.eqb_eq in Hgood. rewrite Hgood. reflexivity.
  - intros Hgood. unfold checklicense. rewrite Hreset. cbn [licenseStatus Z.eqb].
    unfold checkintegrity. apply String.eqb_eq in Hgood. rewrite Hgood. reflexivity.
Qed.

End LicenseFacts.

Lemma license_verdict_is_kept_two_hours_witness :
  License.calls [(Examples.replaced, 100); (Examples.replaced, 7199)] (License.mkStatics 1 0)
  = ([None; None], License.mkStatics 1 0).
Proof.
  apply (license_verdict_is_kept_two_hours
           [(Examples.replaced, 100); (Examples.replaced, 7199)] 1 0).
  - discriminate.
  - repeat constructor.
Defined.

Lemma license_verification_witness :
  License.checklicense Examples.genuine 7200 (License.mkStatics 1 0)
  = (None, License.mkStatics 0 7200).
Proof.
  apply (license_verification Examples.genuine 7200 (License.mkStatics 1 0)).
  - right. cbn. lia.
  - reflexivity.
Defined.

(** * The tables of the mesh *)

Lemma iupd_same a i v : iupd a i v i = v.
Proof. unfold iupd. now rewrite Z.eqb_refl. Qed.

Lemma iupd_other a i v j : j <> i -> iupd a i v j = a j.
Proof. intros H. unfold iupd. apply Z.eqb_neq in H. now rewrite H. Qed.

Lemma sum_upto_step n i :
  1 <= i -> sum_upto n (Z.to_nat i) = sum_upto n (Z.to_nat (i - 1)) + n i.
Proof.
  intros Hi. replace (Z.to_nat i) with (S (Z.to_nat (i - 1))) by lia.
  cbn [sum_upto]. f_equal. f_equal. lia.
Qed.

Lemma sum_upto_mono n m i j :
  (forall k, 0 <= k < m -> 0 <= n k) ->
  0 <= i <= j -> j < m -> sum_upto n (Z.to_nat i) <= sum_upto n (Z.to_nat j).
Proof.
  intros Hn Hij Hj.
  replace j with (i + Z.of_nat (Z.to_nat (j - i))) in * by lia.
  generalize dependent (Z.to_nat (j - i)). intros d. induction d as [|d IH]; intros Hij Hj.
  - rewrite Z.add_0_r. lia.
  - rewrite (sum_upto_step n (i + Z.of_nat (S d))) by lia.
    replace (i + Z.of_nat (S d) - 1) with (i + Z.of_nat d) by lia.
    specialize (Hn (i + Z.of_nat (S d))). lia.
Qed.

Lemma sum_upto_nonneg n m i :
  (forall k, 0 <= k < m -> 0 <= n k) -> 0 <= i < m -> 0 <= sum_upto n (Z.to_nat i).
Proof.
  intros Hn Hi. change 0 with (sum_upto n (Z.to_nat 0)) at 1.
  apply (sum_upto_mono n m); [exact Hn|lia|lia].
Qed.

Section TableFacts.
Import Tables.

(** The loop of [cumulate], entered at [i] with the entries below [i]
    already the partial sums. *)
Lemma cumulate_from n m k i t :
  (forall j, 0 <= j < m -> 0 <= n j) ->
  1 <= i -> i + Z.of_nat k = m -> m <= 2 ^ 32 ->
  sum_upto n (Z.to_nat (m - 1)) < 2 ^ 32 ->
  (forall j, 0 <= j < i -> t j = sum_upto n (Z.to_nat j)) ->
  forall j, 0 <= j < m ->
    for_from k i (fun iElt t => iupd t iElt (u32 (t (u32 (iElt - 1)) + n iElt))) t j
    = sum_upto n (Z.to_nat j).
Proof.
  intros Hn. revert i t. induction k as [|k IH]; intros i t Hi Hm Hm32 Hb Ht j Hj;
    cbn [for_from].
  - apply Ht. lia.
  - apply (IH (i + 1)); [lia|lia|exact Hm32|exact Hb| |exact Hj].
    intros j' Hj'. destruct (Z.eq_dec j' i) as [->|Hne].
    + rewrite iupd_same. rewrite (u32_small (i - 1)) by lia.
      rewrite Ht by lia. rewrite <- sum_upto_step by lia.
      apply u32_small.
      pose proof (sum_upto_nonneg n m i Hn).
      pose proof (sum_upto_mono n m i (m - 1) Hn). lia.
    + rewrite iupd_other by exact Hne. apply Ht. lia.
Qed.

Lemma cumulate_sum nElt n t :
  0 < nElt <= 2 ^ 32 ->
  (forall j, 0 <= j < nElt -> 0 <= n j) ->
  sum_upto n (Z.to_nat (nElt - 1)) < 2 ^ 32 ->
  forall i, 0 <= i < nElt -> cumulate nElt n t i = sum_upto n (Z.to_nat i).
Proof.
  intros HnElt Hn Hb i Hi. unfold cumulate.
  apply (cumulate_from n nElt); try assumption; try lia.
  intros j Hj. assert (j = 0) as -> by lia. now rewrite iupd_same.
Qed.

(** The offset table in terms of the sizes of the blocks. *)
Lemma cumulate_blocks (nElt : Z) (n t : iarray) :
  0 < nElt <= 2 ^ 32 ->
  (forall j, 0 <= j < nElt -> 0 <= n j) ->
  sum_upto n (Z.to_nat (nElt - 1)) + n (nElt - 1) < 2 ^ 32 ->
  cumulate nElt n t 0 = 0
  /\ (forall i, 0 <= i -> i + 1 < nElt ->
        cumulate nElt n t (i + 1) = cumulate nElt n t i + n (i + 1))
  /\ total nElt n (cumulate nElt n t) = sum_upto n (Z.to_nat (nElt - 1)) + n (nElt - 1).
Proof.
  intros HnElt Hn Hb.
  assert (Hb' : sum_upto n (Z.to_nat (nElt - 1)) < 2 ^ 32).
  { specialize (Hn (nElt - 1)). lia. }
  assert (Hc : forall i, 0 <= i < nElt -> cumulate nElt n t i = sum_upto n (Z.to_nat i)).
  { intros i Hi. now apply cumulate_sum. }
  split; [now rewrite Hc by lia|]. split.
  - intros i Hi Hi1. rewrite !Hc by lia.
    rewrite (sum_upto_step n (i + 1)) by lia. replace (i + 1 - 1) with i by lia.
    reflexivity.
  - unfold total. rewrite (u32_small (nElt - 1)) by lia. rewrite Hc by lia.
    apply u32_small. pose proof (sum_upto_nonneg n nElt (nElt - 1) Hn).
    specialize (Hn (nElt - 1)). lia.
Qed.

(** X7.  As long as no sum exceeds 32 bits, entry [i] of an offset table is
    [n[1] + ... + n[i]]: the offsets advance by the size of the block they
    lead to, not by the size of the block they leave, and the size of the
    flat array is [n[1] + ... + n[nElt-1] + n[nElt-1]].  So the blocks of
    elements [i] and [i+1] do not overlap exactly when element [i+1] has at
    least as many entries as element [i], and when all elements have [c]
    entries the block of element [i] starts at [c*i] and the array has
    [c*nElt] entries. *)
Theorem offsets_advance_by_next_block (nElt : Z) (n t : iarray) :
  0 < nElt <= 2 ^ 32 ->
  (forall j, 0 <= j < nElt -> 0 <= n j) ->
  sum_upto n (Z.to_nat (nElt - 1)) + n (nElt - 1) < 2 ^ 32 ->
  let ncumul := cumulate nElt n t in
  ncumul 0 = 0
  /\ (forall i, 0 <= i -> i + 1 < nElt ->
        ncumul (i + 1) = ncumul i + n (i + 1)
        /\ (ncumul i + n i <= ncumul (i + 1) <-> n i <= n (i + 1)))
  /\ total nElt n ncumul = sum_upto n (Z.to_nat (nElt - 1)) + n (nElt - 1)
  /\ (forall c, (forall j, 0 <= j < nElt -> n j = c) ->
        (forall i, 0 <= i < nElt -> ncumul i = c * i)
        /\ total nElt n ncumul = c * nElt).
Proof.
  intros HnElt Hn Hb ncumul.
  destruct (cumulate_blocks nElt n t HnElt Hn Hb) as (H0 & Hstep & Htot).
  fold ncumul in H0, Hstep, Htot.
  split; [exact H0|]. split; [|split; [exact Htot|]].
  - intros i Hi Hi1. split; [now apply Hstep|]. rewrite Hstep by lia. lia.
  - intros c Hcst.
    assert (Hi : forall k, (k < Z.to_nat nElt)%nat -> ncumul (Z.of_nat k) = c * Z.of_nat k).
    { induction k as [|k IH]; intros Hk.
      - cbn [Z.of_nat]. rewrite H0. lia.
      - replace (Z.of_nat (S k)) with (Z.of_nat k + 1) by lia.
        rewrite Hstep, IH, Hcst by lia. lia. }
    split.
    + intros i Hi'. replace i with (Z.of_nat (Z.to_nat i)) by lia. apply Hi. lia.
    + assert (Hlast : ncumul (nElt - 1) = c * (nElt - 1)).
      { replace (nElt - 1) with (Z.of_nat (Z.to_nat (nElt - 1))) by lia. apply Hi. lia. }
      assert (Hsum : ncumul (nElt - 1) = sum_upto n (Z.to_nat (nElt - 1))).
      { apply cumulate_sum; try assumption; try lia. specialize (Hn (nElt - 1)). lia. }
      unfold total. rewrite (u32_small (nElt - 1)) by lia.
      rewrite u32_small.
      * rewrite Hlast, Hcst by lia. lia.
      * rewrite Hsum. pose proof (sum_upto_nonneg n nElt (nElt - 1) Hn).
        specialize (Hn (nElt - 1)). lia.
Qed.

(** The inner loop of the copy writes the block of one element and nothing
    else. *)
Lemma fill_block off cnt (loc : iarray) k t :
  0 <= off -> off + cnt <= 2 ^ 32 -> Z.of_nat k <= cnt ->
  let t' := for_from k (cnt - Z.of_nat k)
              (fun j t => iupd t (u32 (off + j)) (loc j)) t in
  (forall j, cnt - Z.of_nat k <= j < cnt -> t' (off + j) = loc j)
  /\ (forall z, z < off + (cnt - Z.of_nat k) \/ off + cnt <= z -> t' z = t z).
Proof.
  intros Hoff Hb. revert t. induction k as [|k IH]; intros t Hk; cbn [for_from]; cbv zeta.
  - split; [intros j Hj; lia|reflexivity].
  - replace (cnt - Z.of_nat (S k) + 1) with (cnt - Z.of_nat k) by lia.
    destruct (IH (iupd t (u32 (off + (cnt - Z.of_nat (S k)))) (loc (cnt - Z.of_nat (S k)))))
      as (Hin & Hout); [lia|]. cbv zeta in Hin, Hout.
    rewrite (u32_small (off + (cnt - Z.of_nat (S k)))) in * by lia.
    split.
    + intros j Hj. destruct (Z.eq_dec j (cnt - Z.of_nat (S k))) as [->|Hne].
      * rewrite Hout by lia. apply iupd_same.
      * apply Hin. lia.
    + intros z Hz. rewrite Hout by lia. apply iupd_other. lia.
Qed.

(** X8.  Reading the flat array back.  When the numbers of collocation points
    per element do not decrease along the mesh (in particular when all
    elements are of one type) and the sizes fit 32 bits, every entry
    [(iElt, k)] lies inside the array of [NEltCollIndex] entries and, after
    the copy, holds what [BemEltCollIndex] returned for it. *)
Theorem eltCollIndex_reads_back (nElt : Z) (nEltColl t : iarray) (loc : Z -> iarray)
        (eltCollIndex : iarray) :
  0 < nElt <= 2 ^ 32 ->
  (forall j, 0 <= j < nElt -> 0 <= nEltColl j) ->
  (forall j, 0 <= j -> j + 1 < nElt -> nEltColl j <= nEltColl (j + 1)) ->
  sum_upto nEltColl (Z.to_nat (nElt - 1)) + nEltColl (nElt - 1) < 2 ^ 32 ->
  forall iElt k, 0 <= iElt < nElt -> 0 <= k < nEltColl iElt ->
    0 <= ncumulEltCollIndex nElt nEltColl t iElt + k < NEltCollIndex nElt nEltColl t
    /\ fill_eltCollIndex nElt (ncumulEltCollIndex nElt nEltColl t) nEltColl loc eltCollIndex
         (ncumulEltCollIndex nElt nEltColl t iElt + k)
       = loc iElt k.
Proof.
  intros HnElt Hn Hmono Hb.
  destruct (cumulate_blocks nElt nEltColl t HnElt Hn Hb) as (H0 & Hstep & Htot).
  unfold NEltCollIndex, ncumulEltCollIndex.
  set (off := cumulate nElt nEltColl t) in *.
  assert (Hoff : forall i, 0 <= i < nElt -> off i = sum_upto nEltColl (Z.to_nat i)).
  { intros i Hi. apply cumulate_sum; try assumption. specialize (Hn (nElt - 1)). lia. }
  (* the blocks are in increasing order and end where the next one starts or before *)
  assert (Hend : forall i j, 0 <= i -> i < j -> j < nElt -> off i + nEltColl i <= off j).
  { intros i j Hi Hij Hj.
    replace j with (i + 1 + Z.of_nat (Z.to_nat (j - i - 1))) in * by lia.
    generalize dependent (Z.to_nat (j - i - 1)). intros d.
    induction d as [|d IH]; intros Hij Hj.
    - rewrite Z.add_0_r in *. rewrite Hstep by lia. specialize (Hmono i). lia.
    - replace (i + 1 + Z.of_nat (S d)) with (i + 1 + Z.of_nat d + 1) in * by lia.
      rewrite (Hstep (i + 1 + Z.of_nat d)) by lia. specialize (IH ltac:(lia) ltac:(lia)).
      specialize (Hn (i + 1 + Z.of_nat d + 1)). lia. }
  assert (Hlast : forall i, 0 <= i < nElt -> off i + nEltColl i <= total nElt nEltColl off).
  { intros i Hi. rewrite Htot, <- Hoff by lia.
    destruct (Z.eq_dec i (nElt - 1)) as [->|Hne]; [lia|].
    specialize (Hend i (nElt - 1)). specialize (Hn (nElt - 1)). lia. }
  assert (Hpos : forall i, 0 <= i < nElt -> 0 <= off i).
  { intros i Hi. rewrite Hoff by lia. now apply (sum_upto_nonneg nEltColl nElt). }
  assert (Htot32 : total nElt nEltColl off < 2 ^ 32) by lia.
  (* after the blocks of the elements below m have been copied *)
  assert (Hinv : forall m, (m <= Z.to_nat nElt)%nat ->
            forall i k, 0 <= i < Z.of_nat m -> 0 <= k < nEltColl i ->
              for_from m 0 (fun iElt t =>
                for_loop (nEltColl iElt) (fun q t =>
                  iupd t (u32 (off iElt + q)) (loc iElt q)) t) eltCollIndex (off i + k)
              = loc i k).
  { intros m. 
    assert (Hgen : forall d i0 t0, i0 + Z.of_nat d <= nElt -> 0 <= i0 ->
              forall i k, 0 <= i < i0 + Z.of_nat d -> 0 <= k < nEltColl i ->
                (i < i0 -> t0 (off i + k) = loc i k) ->
                for_from d i0 (fun iElt t =>
                  for_loop (nEltColl iElt) (fun q t =>
                    iupd t (u32 (off iElt + q)) (loc iElt q)) t) t0 (off i + k)
                = loc i k).
    { induction d as [|d IHd]; intros i0 t0 Hd Hi0 i k Hi Hk Hprev; cbn [for_from].
      - apply Hprev. lia.
      - apply IHd; [lia|lia|lia|exact Hk|]. intros Hlt.
        unfold for_loop.
        destruct (fill_block (off i0) (nEltColl i0) (loc i0) (Z.to_nat (nEltColl i0)) t0)
          as (Hin & Hout).
        { apply Hpos. lia. }
        { specialize (Hlast i0). lia. }
        { specialize (Hn i0). lia. }
        cbv zeta in Hin, Hout.
        replace (nEltColl i0 - Z.of_nat (Z.to_nat (nEltColl i0))) with 0 in Hin, Hout
          by (specialize (Hn i0); lia).
        destruct (Z.eq_dec i i0) as [->|Hne].
        + apply Hin. lia.
        + rewrite Hout; [apply Hprev; lia|]. left.
          specialize (Hend i i0). lia. }
    intros Hm i k Hi Hk. apply Hgen; try lia. }
  intros iElt k Hi Hk. split.
  - specialize (Hlast iElt Hi). specialize (Hpos iElt Hi). lia.
  - unfold fill_eltCollIndex, for_loop. apply Hinv; lia.
Qed.

End TableFacts.

Lemma offsets_advance_by_next_block_witness :
  Tables.cumulate 3 (fun j => if j =? 0 then 4 else 3) (fun _ => 7) 2 = 6
  /\ Tables.total 3 (fun j => if j =? 0 then 4 else 3)
                  (Tables.cumulate 3 (fun j => if j =? 0 then 4 else 3) (fun _ => 7)) = 9.
Proof.
  destruct (offsets_advance_by_next_block 3 (fun j => if j =? 0 then 4 else 3) (fun _ => 7))
    as (H0 & Hstep & Htot & _).
  - split; [reflexivity|vm_compute; discriminate].
  - intros j Hj. destruct (j =? 0); lia.
  - vm_compute. reflexivity.
  - cbv zeta in H0, Hstep, Htot. split; [|exact Htot].
    destruct (Hstep 1) as (H2 & _); [lia|lia|].
    destruct (Hstep 0) as (H1 & _); [lia|lia|].
    change (1 + 1) with 2 in H2. change (0 + 1) with 1 in H1.
    rewrite H2, H1, H0. reflexivity.
Defined.

Lemma eltCollIndex_reads_back_witness :
  Tables.fill_eltCollIndex 2 (Tables.ncumulEltCollIndex 2 (fun _ => 3) (fun _ => 7))
                           (fun _ => 3) (fun iElt k => 10 * iElt + k) (fun _ => 0)
                           (Tables.ncumulEltCollIndex 2 (fun _ => 3) (fun _ => 7) 1 + 2)
  = 12.
Proof.
  destruct (eltCollIndex_reads_back 2 (fun _ => 3) (fun _ => 7)
              (fun iElt k => 10 * iElt + k) (fun _ => 0)) with (iElt := 1) (k := 2)
    as (_ & H).
  - split; [reflexivity|vm_compute; discriminate].
  - intros j Hj. lia.
  - intros j Hj1 Hj2. lia.
  - vm_compute. reflexivity.
  - lia.
  - lia.
  - exact H.
Defined.

(** ** Loops with a condition *)

Lemma while_invariant {T : Type} (I : T -> Prop) (mu : T -> nat)
      (cond : T -> bool) (body : T -> T) fuel s :
  I s -> (mu s <= fuel)%nat ->
  (forall s, I s -> cond s = true -> I (body s) /\ (mu (body s) < mu s)%nat) ->
  I (while fuel cond body s) /\ cond (while fuel cond body s) = false.
Proof.
  intros Hs Hfuel Hstep. revert s Hs Hfuel.
  induction fuel as [|fuel IH]; intros s Hs Hfuel; cbn [while].
  - split; [exact Hs|]. destruct (cond s) eqn:Hc; [|reflexivity].
    destruct (Hstep s Hs Hc). lia.
  - destruct (cond s) eqn:Hc; [|auto].
    destruct (Hstep s Hs Hc) as (Hb & Hmu). apply IH; [exact Hb|lia].
Qed.

Lemma range_split c n : 0 <= c <= n -> range n = range c ++ range_from (Z.to_nat (n - c)) c.
Proof.
  intros Hc. unfold range. replace (Z.to_nat n) with (Z.to_nat c + Z.to_nat (n - c))%nat by lia.
  rewrite range_from_app. do 2 f_equal. lia.
Qed.

Lemma length_range_from k i : List.length (range_from k i) = k.
Proof. revert i. induction k as [|k IH]; intros i; cbn; [reflexivity|]. now rewrite IH. Qed.

Lemma nth_range_from k i a : (a < k)%nat -> nth a (range_from k i) 0 = i + Z.of_nat a.
Proof.
  revert i a. induction k as [|k IH]; intros i a Ha; [lia|].
  destruct a as [|a]; cbn [range_from nth]; [lia|]. rewrite IH by lia. lia.
Qed.

(** A sublist of an increasing list is increasing. *)
Lemma filter_increasing (p : Z -> bool) (l : list Z) :
  (forall a b, (a < b < List.length l)%nat -> nth a l 0 < nth b l 0) ->
  forall a b, (a < b < List.length (filter p l))%nat ->
              nth a (filter p l) 0 < nth b (filter p l) 0.
Proof.
  induction l as [|x l IH]; intros Hl a b Hab; [cbn in Hab; lia|].
  assert (Hl' : forall a b, (a < b < List.length l)%nat -> nth a l 0 < nth b l 0).
  { intros a' b' Hab'. apply (Hl (S a') (S b')). cbn [List.length]. lia. }
  cbn [filter] in *. destruct (p x).
  - destruct a as [|a], b as [|b]; try lia; cbn [nth List.length] in *.
    + assert (Hin : In (nth b (filter p l) 0) l).
      { assert (H : In (nth b (filter p l) 0) (filter p l)) by (apply nth_In; lia).
        now apply filter_In in H. }
      apply (In_nth _ _ 0) in Hin. destruct Hin as (k & Hk & <-).
      apply (Hl 0%nat (S k)). cbn [List.length]. lia.
    + apply IH; [exact Hl'|lia].
  - apply IH; [exact Hl'|exact Hab].
Qed.

Section ScanFacts.
Import Tables.

Variables (nTotalColl nSing N base : Z) (loc t0 : iarray).
Hypothesis HnTot : 0 <= nTotalColl /\ 2 * nTotalColl <= 2 ^ 32.
Hypothesis HnSing : 0 <= nSing <= N.
Hypothesis Hbase : 0 <= base /\ N + base + nSing <= 2 ^ 32.

Lemma scan_step s :
  scan_inv nTotalColl nSing N base loc t0 s -> scan_cond nTotalColl nSing s = true ->
  scan_inv nTotalColl nSing N base loc t0 (scan_body nTotalColl N base loc s)
  /\ (Z.to_nat (nTotalColl - iColl (scan_body nTotalColl N base loc s))
      < Z.to_nat (nTotalColl - iColl s))%nat.
Proof.
  intros Hinv Hcond. unfold scan_inv in Hinv. cbv zeta in Hinv.
  destruct Hinv as (Hc & Hq & Hle & Hin & Hout).
  unfold scan_cond in Hcond. apply andb_true_iff in Hcond.
  destruct Hcond as (Hc1 & Hq1). apply Z.ltb_lt in Hc1, Hq1.
  unfold scan_body.
  destruct (loc (iColl s) =? 0) eqn:Hz; cbn [iColl iSingular RegularColl];
    rewrite (u32_small (iColl s + 1)) by lia.
  - rewrite (u32_small (iSingular s + 1)) by lia.
    rewrite (u32_small (base + iSingular s)) by lia.
    rewrite (u32_small (N + base + iSingular s)) by lia.
    rewrite (u32_small (nTotalColl + iColl s)) by lia.
    split; [|lia]. unfold scan_inv. cbv zeta. cbn [iColl iSingular RegularColl].
    rewrite range_snoc by lia. rewrite filter_app. cbn [filter]. rewrite Hz.
    split; [lia|]. split; [rewrite length_app; cbn [List.length]; lia|].
    split; [lia|]. split.
    + intros j Hj. destruct (Z.eq_dec j (iSingular s)) as [->|Hne].
      * replace (Z.to_nat (iSingular s))
          with (List.length (filter (fun c => loc c =? 0) (range (iColl s)))) by lia.
        rewrite nth_middle.
        rewrite iupd_other by lia. rewrite iupd_same. rewrite iupd_same. auto.
      * rewrite !app_nth1 by lia. rewrite !iupd_other by lia. apply Hin. lia.
    + intros z Hz1 Hz2. rewrite !iupd_other by lia. apply Hout; lia.
  - split; [|lia]. unfold scan_inv. cbv zeta. cbn [iColl iSingular RegularColl].
    rewrite range_snoc by lia. rewrite filter_app. cbn [filter]. rewrite Hz.
    rewrite app_nil_r. auto with zarith.
Qed.

(** X9.  The loop ends, and when it has ended the list of element [iElt] holds
    the singular collocation points of the element in increasing order,
    as many as [BemRegularColl] reported or as there are if there are
    fewer: entry [j] of the first half of [RegularColl] is the [j]th point
    and entry [j] of the second half is what [RegularColl_loc] holds at
    [nTotalColl] plus that point.  Nothing else in [RegularColl] is
    written. *)
Theorem singular_list_is_filtered :
  let s := singular_list nTotalColl nSing N base loc t0 in
  let pts := singular_points nTotalColl nSing loc in
  scan_cond nTotalColl nSing s = false
  /\ iSingular s = Z.of_nat (List.length pts)
  /\ (forall j, 0 <= j < Z.of_nat (List.length pts) ->
        RegularColl s (base + j) = nth (Z.to_nat j) pts 0
        /\ RegularColl s (N + base + j) = loc (nTotalColl + nth (Z.to_nat j) pts 0))
  /\ (forall z, ~ base <= z < base + Z.of_nat (List.length pts) ->
                ~ N + base <= z < N + base + Z.of_nat (List.length pts) ->
                RegularColl s z = t0 z)
  /\ (forall j, 0 <= j -> j + 1 < Z.of_nat (List.length pts) ->
        nth (Z.to_nat j) pts 0 < nth (Z.to_nat (j + 1)) pts 0).
Proof.
  cbv zeta. unfold singular_list.
  destruct (while_invariant (scan_inv nTotalColl nSing N base loc t0) (fun s => Z.to_nat (nTotalColl - iColl s))
              (scan_cond nTotalColl nSing) (scan_body nTotalColl N base loc)
              (Z.to_nat nTotalColl) (mkScan 0 0 t0)) as (Hinv & Hend).
  { unfold scan_inv. cbv zeta. cbn [iColl iSingular RegularColl]. cbn.
    split; [lia|]. split; [reflexivity|]. split; [lia|]. split; [intros; lia|auto]. }
  { cbn [iColl]. lia. }
  { apply scan_step. }
  set (s := while _ _ _ _) in *.
  unfold scan_inv in Hinv. cbv zeta in Hinv.
  destruct Hinv as (Hc & Hq & Hle & Hin & Hout).
  assert (Hpts : singular_points nTotalColl nSing loc = filter (fun c => loc c =? 0) (range (iColl s))).
  { unfold singular_points.
    rewrite (range_split (iColl s) nTotalColl) by lia. rewrite filter_app.
    unfold scan_cond in Hend. apply andb_false_iff in Hend.
    destruct Hend as [He|He]; [apply Z.ltb_ge in He|apply Z.ltb_ge in He].
    - replace (Z.to_nat (nTotalColl - iColl s)) with 0%nat by lia.
      cbn [range_from filter]. rewrite app_nil_r. apply firstn_all2. lia.
    - set (l := filter (fun c => loc c =? 0) (range (iColl s))) in *.
      rewrite firstn_app.
      replace (Z.to_nat nSing - List.length l)%nat with 0%nat by lia.
      cbn [firstn]. rewrite app_nil_r. apply firstn_all2. lia. }
  rewrite Hpts. rewrite <- Hq.
  split; [exact Hend|]. split; [reflexivity|]. split; [exact Hin|]. split; [exact Hout|].
  intros j Hj Hj1.
  apply filter_increasing; [|lia].
  intros a b Hab. unfold range in *. rewrite length_range_from in Hab.
  rewrite !nth_range_from by lia. lia.
Qed.

End ScanFacts.

Lemma singular_list_is_filtered_witness :
  Tables.iSingular (Tables.singular_list 4 2 2 0 Examples.loc (fun _ => 7)) = 2
  /\ Tables.RegularColl (Tables.singular_list 4 2 2 0 Examples.loc (fun _ => 7)) 1 = 3.
Proof.
  destruct (singular_list_is_filtered 4 2 2 0 Examples.loc (fun _ => 7))
    as (_ & Hn & Hin & _).
  - split; [lia|vm_compute; discriminate].
  - lia.
  - split; [lia|vm_compute; discriminate].
  - cbv zeta in Hn, Hin. split; [exact Hn|].
    destruct (Hin 1) as (H1 & _); [vm_compute; split; [discriminate|reflexivity]|].
    exact H1.
Defined.

(** ** The reference element of every type *)

Lemma bupd_same a i v : bupd a i v i = v.
Proof. unfold bupd. now rewrite Z.eqb_refl. Qed.

Lemma bupd_other a i v j : j <> i -> bupd a i v j = a j.
Proof. intros H. unfold bupd. apply Z.eqb_neq in H. now rewrite H. Qed.

Lemma NoDup_range_from k i : NoDup (range_from k i).
Proof.
  revert i. induction k as [|k IH]; intros i; cbn [range_from]; constructor.
  - rewrite in_range_from. lia.
  - apply IH.
Qed.

Lemma filter_length_all {A : Type} (p : A -> bool) l :
  List.length (filter p l) = List.length l <-> forall x, In x l -> p x = true.
Proof.
  induction l as [|x l IH]; cbn [filter List.length In].
  - split; [intros _ y []|reflexivity].
  - pose proof (filter_length_le p l) as Hle. destruct (p x) eqn:Hx; cbn [List.length].
    + split.
      * intros H y [<-|Hy]; [exact Hx|]. apply IH; [lia|exact Hy].
      * intros H. f_equal. apply IH. auto.
    + split; [lia|]. intros H. specialize (H x (or_introl eq_refl)). congruence.
Qed.

Lemma filter_bupd_length (g : barray) t0 l :
  NoDup l ->
  (List.length (filter (bupd g t0 true) l) <= List.length (filter g l) + 1)%nat.
Proof.
  induction 1 as [|x l Hx Hnd IH]; cbn [filter List.length]; [lia|].
  destruct (Z.eq_dec x t0) as [->|Hne].
  - rewrite bupd_same.
    assert (Heq : filter (bupd g t0 true) l = filter g l).
    { apply filter_ext_in. intros y Hy. apply bupd_other. intros ->. contradiction. }
    rewrite Heq. destruct (g t0); cbn [List.length]; lia.
  - rewrite bupd_other by exact Hne. destruct (g x); cbn [List.length]; lia.
Qed.

Lemma count_loop (g : barray) l a :
  0 <= a -> a + Z.of_nat (List.length l) < 2 ^ 32 ->
  fold_left (fun acc j => if g j then u32 (acc + 1) else acc) l a
  = a + Z.of_nat (List.length (filter g l)).
Proof.
  revert a. induction l as [|x l IH]; intros a Ha Hb; cbn [fold_left filter List.length] in *.
  - lia.
  - destruct (g x); cbn [List.length].
    + rewrite u32_small by lia. rewrite IH by lia. lia.
    + rewrite IH by lia. lia.
Qed.

Section SearchFacts.
Context {E : Externals}.
Import Tables.

Variables (nElt nEltType : Z) (Elt : darray) (TypeID EltParent nGauss nEltDiv : iarray).
Hypothesis HnElt : 0 <= nElt < 2 ^ 32.
Hypothesis HnEltType : 0 <= nEltType < 2 ^ 32.

Lemma auxvar_count s : auxvar nEltType s = count_found nEltType s.
Proof.
  unfold auxvar, count_found. rewrite for_loop_fold.
  rewrite count_loop; [lia|lia|]. unfold range. rewrite length_range_from. lia.
Qed.

Lemma count_found_all s :
  count_found nEltType s = nEltType <->
  forall t, 0 <= t < nEltType -> GetTypeID s t = true.
Proof.
  unfold count_found.
  assert (Hlen : Z.of_nat (List.length (range nEltType)) = nEltType).
  { unfold range. rewrite length_range_from. lia. }
  split.
  - intros H t Ht. apply (proj1 (filter_length_all (GetTypeID s) (range nEltType))).
    + lia.
    + now apply in_range.
  - intros H. rewrite <- Hlen at 2. f_equal.
    apply filter_length_all. intros t Ht. apply H. now apply in_range.
Qed.

Lemma mark_fields s t0 :
  iElt (mark EltParent nGauss nEltDiv s t0) = iElt s
  /\ GetAllTypeID (mark EltParent nGauss nEltDiv s t0) = GetAllTypeID s
  /\ (forall t, GetTypeID (mark EltParent nGauss nEltDiv s t0) t
                = bupd (GetTypeID s) t0 true t)
  /\ (forall t, t <> t0 ->
        RefEltType (mark EltParent nGauss nEltDiv s t0) t = RefEltType s t
        /\ nXi (mark EltParent nGauss nEltDiv s t0) t = nXi s t)
  /\ (GetTypeID s t0 = false ->
      RefEltType (mark EltParent nGauss nEltDiv s t0) t0 = iElt s
      /\ nXi (mark EltParent nGauss nEltDiv s t0) t0
         = nXi_of EltParent nGauss nEltDiv (iElt s) (nXi s t0))
  /\ (GetTypeID s t0 = true -> mark EltParent nGauss nEltDiv s t0 = s).
Proof.
  unfold mark, nXi_of. destruct (GetTypeID s t0) eqn:Hg; cbn [negb].
  - repeat split; try reflexivity; try discriminate.
    intros t. unfold bupd. destruct (t =? t0) eqn:Ht; [|reflexivity].
    apply Z.eqb_eq in Ht. now subst.
  - cbv zeta. cbn [iElt GetAllTypeID RefEltType GetTypeID nXi].
    destruct (EltParent (iElt s) =? 1); [|destruct (EltParent (iElt s) =? 2)];
      cbn [iElt GetAllTypeID RefEltType GetTypeID nXi];
      (split; [reflexivity|]); (split; [reflexivity|]); (split; [reflexivity|]);
      (split; [intros t Ht; rewrite ?iupd_other by exact Ht; auto|]);
      (split; [intros _; rewrite ?iupd_same; auto|discriminate]).
Qed.

Lemma inner_step s q :
  inner_inv nElt nEltType Elt TypeID EltParent nGauss nEltDiv s q ->
  inner_cond nEltType q = true ->
  inner_inv nElt nEltType Elt TypeID EltParent nGauss nEltDiv s
            (inner_body nElt Elt TypeID EltParent nGauss nEltDiv q)
  /\ (Z.to_nat (nEltType - iType (inner_body nElt Elt TypeID EltParent nGauss nEltDiv q))
      < Z.to_nat (nEltType - iType q))%nat.
Proof.
  intros (Hi & Hq) Hc. unfold inner_cond in Hc. apply andb_true_iff in Hc.
  destruct Hc as (Hlt & Hf). apply Z.ltb_lt in Hlt. apply negb_true_iff in Hf.
  rewrite Hf in Hq. destruct Hq as (Hs & Hno).
  unfold inner_body. cbv zeta. rewrite Hs.
  fold (type_of nElt Elt (iElt s)).
  destruct (type_of nElt Elt (iElt s) =? TypeID (iType q)) eqn:Hm;
    cbn [iType GetEltTypeID found]; rewrite (u32_small (iType q + 1)) by lia.
  - apply Z.eqb_eq in Hm. split; [|lia]. unfold inner_inv.
    cbn [iType GetEltTypeID found]. split; [lia|].
    exists (iType q). split; [lia|]. split; [now symmetry|]. split; [exact Hno|].
    unfold mark. reflexivity.
  - apply Z.eqb_neq in Hm. split; [|lia]. unfold inner_inv.
    cbn [iType GetEltTypeID found]. split; [lia|]. rewrite Hf.
    split; [exact Hs|]. intros t Ht.
    destruct (Z.eq_dec t (iType q)) as [->|Hne]; [congruence|apply Hno; lia].
Qed.

(** The loop over the types ends; it has recorded the element for the
    first type whose number is the element's, if there is one and it had
    not been found before, and changed nothing otherwise. *)
Lemma inner_result s :
  let q := while (Z.to_nat nEltType) (inner_cond nEltType)
                 (inner_body nElt Elt TypeID EltParent nGauss nEltDiv)
                 (mkInner 0 false s) in
  inner_cond nEltType q = false
  /\ ((found q = s /\ forall t, 0 <= t < nEltType -> TypeID t <> type_of nElt Elt (iElt s))
      \/ exists t0, 0 <= t0 < nEltType
                    /\ TypeID t0 = type_of nElt Elt (iElt s)
                    /\ (forall t, 0 <= t < t0 -> TypeID t <> type_of nElt Elt (iElt s))
                    /\ found q = mark EltParent nGauss nEltDiv s t0).
Proof.
  cbv zeta.
  destruct (while_invariant
              (inner_inv nElt nEltType Elt TypeID EltParent nGauss nEltDiv s)
              (fun q => Z.to_nat (nEltType - iType q))
              (inner_cond nEltType)
              (inner_body nElt Elt TypeID EltParent nGauss nEltDiv)
              (Z.to_nat nEltType) (mkInner 0 false s)) as ((Hi & Hq) & Hend).
  { split; cbn [iType GetEltTypeID found]; [lia|]. split; [reflexivity|intros; lia]. }
  { cbn [iType]. lia. }
  { apply inner_step. }
  split; [exact Hend|].
  set (q := while _ _ _ _) in *.
  destruct (GetEltTypeID q) eqn:Hf.
  - right. exact Hq.
  - left. destruct Hq as (Hs & Hno). split; [exact Hs|].
    intros t Ht. apply Hno. unfold inner_cond in Hend. rewrite Hf in Hend.
    cbn [negb] in Hend. rewrite andb_true_r in Hend. apply Z.ltb_ge in Hend. lia.
Qed.

Lemma count_found_mark s t0 :
  count_found nEltType (mark EltParent nGauss nEltDiv s t0) <= count_found nEltType s + 1.
Proof.
  unfold count_found.
  destruct (mark_fields s t0) as (_ & _ & Hg & _).
  rewrite (filter_ext _ _ Hg).
  pose proof (filter_bupd_length (GetTypeID s) t0 (range nEltType)
                                 (NoDup_range_from _ _)). lia.
Qed.

Lemma search_count_step s :
  search_count_inv nElt nEltType s -> search_cond nElt s = true ->
  search_count_inv nElt nEltType
     (search_body nElt nEltType Elt TypeID EltParent nGauss nEltDiv s)
  /\ (Z.to_nat (nElt - iElt (search_body nElt nEltType Elt TypeID EltParent nGauss nEltDiv s))
      < Z.to_nat (nElt - iElt s))%nat.
Proof.
  intros (Hm & Hcnt & Hall) Hc. unfold search_cond in Hc. apply andb_true_iff in Hc.
  destruct Hc as (Hlt & Hg). apply Z.ltb_lt in Hlt. apply negb_true_iff in Hg.
  unfold search_body. cbv zeta.
  destruct (inner_result s) as (_ & Hres). cbv zeta in Hres.
  set (s1 := found (while _ _ _ _)) in *.
  assert (H1 : iElt s1 = iElt s /\ GetAllTypeID s1 = false
               /\ count_found nEltType s1 <= count_found nEltType s + 1).
  { destruct Hres as [(-> & _)|(t0 & _ & _ & _ & ->)].
    - split; [reflexivity|]. split; [exact Hg|lia].
    - destruct (mark_fields s t0) as (He & Ha & _).
      rewrite He, Ha. split; [reflexivity|]. split; [exact Hg|apply count_found_mark]. }
  destruct H1 as (He & Ha & Hc1).
  rewrite auxvar_count.
  destruct (count_found nEltType s1 =? nEltType) eqn:Hfull;
    cbn [iElt GetAllTypeID RefEltType GetTypeID nXi]; rewrite He;
    rewrite (u32_small (iElt s + 1)) by lia.
  - apply Z.eqb_eq in Hfull. split; [|lia]. unfold search_count_inv, count_found.
    cbn [iElt GetAllTypeID GetTypeID]. unfold count_found in Hfull, Hc1, Hcnt.
    split; [lia|]. split; [lia|auto].
  - split; [|lia]. unfold search_count_inv, count_found.
    cbn [iElt GetAllTypeID GetTypeID]. unfold count_found in Hc1, Hcnt.
    split; [lia|]. split; [lia|]. rewrite Ha. discriminate.
Qed.

Lemma cumulate_const (c : Z) k i t :
  1 <= i -> i + Z.of_nat k <= 2 ^ 32 ->
  (forall j, 0 <= j < i -> t j = u32 (j * c)) ->
  forall j, 0 <= j < i + Z.of_nat k ->
    for_from k i (fun iType t => iupd t iType (u32 (t (u32 (iType - 1)) + c))) t j
    = u32 (j * c).
Proof.
  revert i t. induction k as [|k IH]; intros i t Hi Hb Ht j Hj; cbn [for_from].
  - apply Ht. lia.
  - apply (IH (i + 1)); [lia|lia| |lia].
    intros j' Hj'. destruct (Z.eq_dec j' i) as [->|Hne].
    + rewrite iupd_same. rewrite (u32_small (i - 1)) by lia.
      rewrite Ht by lia. rewrite u32_add_l. f_equal. ring.
    + rewrite iupd_other by exact Hne. apply Ht. lia.
Qed.

(** X10.  The search for the reference elements ends.  If it has found every
    type, it has looked at no fewer elements than there are types, and
    otherwise at all of them; either way the variable [iElt] it leaves is
    an element count.  The offsets of the sample points are then computed
    from [nXi[iElt]], an entry of the array of [nEltType] counts that is
    indexed by that element count: the table is [iType * nXi[iElt]]
    (modulo 2^32), and with two types or more, all of them in use, the
    entry read lies beyond the end of [nXi]. *)
Theorem quadrature_offsets_use_element_count (RefEltType0 nXi0 t : iarray) (GetTypeID0 : barray) :
  let s := search nElt nEltType Elt TypeID EltParent nGauss nEltDiv
                  RefEltType0 nXi0 GetTypeID0 in
  search_cond nElt s = false
  /\ (GetAllTypeID s = true -> nEltType <= iElt s <= nElt)
  /\ (GetAllTypeID s = false -> iElt s = nElt)
  /\ forall iType, 0 <= iType < nEltType ->
       ncumulnXi nEltType s t iType = u32 (iType * nXi s (iElt s)).
Proof.
  cbv zeta. unfold search.
  destruct (while_invariant (search_count_inv nElt nEltType)
              (fun s => Z.to_nat (nElt - iElt s))
              (search_cond nElt)
              (search_body nElt nEltType Elt TypeID EltParent nGauss nEltDiv)
              (Z.to_nat nElt)
              (mkSearch 0 false RefEltType0
                        (for_loop nEltType (fun i g => bupd g i false) GetTypeID0) nXi0))
    as ((Hm & Hcnt & Hall) & Hend).
  { unfold search_count_inv, count_found. cbn [iElt GetAllTypeID GetTypeID].
    split; [lia|]. split; [|discriminate].
    assert (Hz : forall t, In t (range nEltType) ->
               for_loop nEltType (fun i g => bupd g i false) GetTypeID0 t = false).
    { intros t0 Ht0. unfold for_loop, range in *. revert Ht0.
      generalize GetTypeID0. generalize 0 at 1 2.
      induction (Z.to_nat nEltType) as [|k IH]; intros i g Ht0; [destruct Ht0|].
      cbn [for_from range_from In] in *.
      destruct (Z.eq_dec t0 i) as [->|Hne].
      - clear IH Ht0. assert (Hk : forall k j g, g i = false -> i < j ->
                                   for_from k j (fun i g => bupd g i false) g i = false).
        { clear. induction k as [|k IH]; intros j g Hg Hj; cbn [for_from]; [exact Hg|].
          apply IH; [|lia]. rewrite bupd_other by lia. exact Hg. }
        apply Hk; [apply bupd_same|lia].
      - apply IH. destruct Ht0; [congruence|assumption]. }
    rewrite (filter_none _ _ (proj2 (Forall_forall _ _) Hz)). cbn. lia. }
  { cbn [iElt]. lia. }
  { apply search_count_step. }
  set (s := while _ _ _ _) in *.
  split; [exact Hend|]. split; [|split].
  - intros Ha. specialize (Hall Ha). lia.
  - intros Ha. unfold search_cond in Hend. rewrite Ha in Hend. cbn [negb] in Hend.
    rewrite andb_true_r in Hend. apply Z.ltb_ge in Hend. lia.
  - intros iType Hi. unfold ncumulnXi.
    destruct (Z.eq_dec nEltType 0) as [->|Hne]; [lia|].
    apply (cumulate_const (nXi s (iElt s))); [lia|lia| |lia].
    intros j Hj. assert (j = 0) as -> by lia. now rewrite iupd_same.
Qed.

End SearchFacts.

Lemma quadrature_offsets_use_element_count_witness :
  Tables.search_cond 2
    (@Tables.search Fixtures.ext 2 1 Fixtures.zeros (Fixtures.const 1) (Fixtures.const 1)
                    (Fixtures.const 3) (Fixtures.const 1)
                    (Fixtures.const 0) (Fixtures.const 0) (fun _ => false))
  = false.
Proof.
  destruct (@quadrature_offsets_use_element_count Fixtures.ext 2 1 Fixtures.zeros
              (Fixtures.const 1) (Fixtures.const 1) (Fixtures.const 3) (Fixtures.const 1))
    with (RefEltType0 := Fixtures.const 0) (nXi0 := Fixtures.const 0)
         (t := Fixtures.const 0) (GetTypeID0 := fun _ : Z => false)
    as (Hend & _).
  - split; [lia|reflexivity].
  - split; [lia|reflexivity].
  - exact Hend.
Defined.

Lemma GetTypeID_init (g : barray) n t :
  0 <= t < n -> for_loop n (fun i g => bupd g i false) g t = false.
Proof.
  intros Ht. unfold for_loop.
  assert (Hgen : forall k i g, i <= t < i + Z.of_nat k \/ g t = false ->
                               for_from k i (fun i g => bupd g i false) g t = false).
  { induction k as [|k IH]; intros i g0 H; cbn [for_from].
    - destruct H; [lia|assumption].
    - apply IH. destruct (Z.eq_dec t i) as [->|Hne].
      + right. apply bupd_same.
      + destruct H as [H|H]; [left; lia|right; now rewrite bupd_other]. }
  apply Hgen. left. lia.
Qed.

Section ReferenceElements.
Context {E : Externals}.
Import Tables.

Variables (nElt nEltType : Z) (Elt : darray) (TypeID EltParent nGauss nEltDiv : iarray).
Variable nXi0 : iarray.
Hypothesis HnElt : 0 <= nElt < 2 ^ 32.
Hypothesis HnEltType : 0 < nEltType < 2 ^ 32.
Hypothesis Hdistinct :
  forall t t', 0 <= t < nEltType -> 0 <= t' < nEltType -> TypeID t = TypeID t' -> t = t'.

Lemma search_step s :
  search_inv nElt nEltType Elt TypeID EltParent nGauss nEltDiv nXi0 s ->
  search_cond nElt s = true ->
  search_inv nElt nEltType Elt TypeID EltParent nGauss nEltDiv nXi0
             (search_body nElt nEltType Elt TypeID EltParent nGauss nEltDiv s)
  /\ (Z.to_nat (nElt - iElt (search_body nElt nEltType Elt TypeID EltParent nGauss nEltDiv s))
      < Z.to_nat (nElt - iElt s))%nat.
Proof.
  intros (Hm & Ht & Hall) Hc. unfold search_cond in Hc. apply andb_true_iff in Hc.
  destruct Hc as (Hlt & Hg). apply Z.ltb_lt in Hlt. apply negb_true_iff in Hg.
  unfold search_body. cbv zeta.
  destruct (inner_result nElt nEltType Elt TypeID EltParent nGauss nEltDiv
                         ltac:(lia) s) as (_ & Hres).
  cbv zeta in Hres. set (s1 := found (while _ _ _ _)) in *.
  (* what the loop over the types has left *)
  assert (H1 : iElt s1 = iElt s /\ GetAllTypeID s1 = false
               /\ forall t, 0 <= t < nEltType ->
                    (GetTypeID s1 t = true <->
                     exists e, 0 <= e < iElt s + 1 /\ type_of nElt Elt e = TypeID t)
                    /\ (GetTypeID s1 t = true ->
                        first_of nElt Elt TypeID t (RefEltType s1 t)
                        /\ nXi s1 t = nXi_of EltParent nGauss nEltDiv (RefEltType s1 t) (nXi0 t))
                    /\ (GetTypeID s1 t = false -> nXi s1 t = nXi0 t)).
  { destruct Hres as [(-> & Hno)|(t0 & Ht0 & Hty & _ & ->)].
    - split; [reflexivity|]. split; [exact Hg|]. intros t Htr.
      destruct (Ht t Htr) as (Hi & Hii & Hiii). split; [|auto].
      rewrite Hi. split.
      + intros (e & He & Hte). exists e. split; [lia|exact Hte].
      + intros (e & He & Hte). exists e. split; [|exact Hte].
        destruct (Z.eq_dec e (iElt s)) as [->|Hne]; [|lia].
        exfalso. apply (Hno t Htr). now symmetry.
    - destruct (mark_fields EltParent nGauss nEltDiv s t0)
        as (He & Ha & Hgt & Hoth & Hnew & Hold).
      rewrite He, Ha. split; [reflexivity|]. split; [exact Hg|]. intros t Htr.
      rewrite Hgt. destruct (Ht t Htr) as (Hi & Hii & Hiii).
      destruct (Z.eq_dec t t0) as [->|Hne].
      + rewrite bupd_same. split; [|split; [|discriminate]].
        * split; [|reflexivity]. intros _. exists (iElt s). split; [lia|now symmetry].
        * intros _. destruct (GetTypeID s t0) eqn:Hgs.
          -- rewrite (Hold eq_refl). now apply Hii.
          -- destruct (Hnew eq_refl) as (-> & ->). rewrite (Hiii eq_refl).
             split; [|reflexivity]. split; [lia|]. split; [now symmetry|].
             intros e' He' Hte'.
             assert (Hex : false = true) by (apply Hi; exists e'; split; [lia|exact Hte']).
             discriminate Hex.
      + rewrite bupd_other by exact Hne. destruct (Hoth t Hne) as (-> & ->).
        split; [|auto]. rewrite Hi. split.
        * intros (e & He' & Hte). exists e. split; [lia|exact Hte].
        * intros (e & He' & Hte). exists e. split; [|exact Hte].
          destruct (Z.eq_dec e (iElt s)) as [->|Hne']; [|lia].
          exfalso. apply Hne. apply Hdistinct; [exact Htr|exact Ht0|]. congruence. }
  destruct H1 as (He & Ha & Ht1).
  rewrite (auxvar_count nEltType ltac:(lia)).
  pose proof (count_found_all nEltType ltac:(lia) s1) as Hfull.
  destruct (count_found nEltType s1 =? nEltType) eqn:Hcnt;
    cbn [iElt GetAllTypeID RefEltType GetTypeID nXi]; rewrite He;
    rewrite (u32_small (iElt s + 1)) by lia;
    (split; [|lia]); unfold search_inv; cbn [iElt GetAllTypeID RefEltType GetTypeID nXi];
    (split; [lia|]); (split; [exact Ht1|]).
  - apply Z.eqb_eq in Hcnt. split; [intros _; now apply Hfull|reflexivity].
  - apply Z.eqb_neq in Hcnt. rewrite Ha. split; [discriminate|].
    intros H. exfalso. apply Hcnt. now apply Hfull.
Qed.

(** X11.  When the type numbers of the type table are pairwise different and
    every type is used by some element, the search ends having found every
    type; the reference element of each type is the first element of that
    type in the mesh, and the number of sample points recorded for the type
    is [nGauss] of that element for a triangle, and
    [nEltDiv*nEltDiv*nGauss*nGauss] for a quadrilateral (for any other
    parent it is left unassigned). *)
Theorem reference_element_is_first_of_type (RefEltType0 : iarray) (GetTypeID0 : barray) :
  (forall t, 0 <= t < nEltType -> exists e, 0 <= e < nElt /\ type_of nElt Elt e = TypeID t) ->
  let s := search nElt nEltType Elt TypeID EltParent nGauss nEltDiv
                  RefEltType0 nXi0 GetTypeID0 in
  search_cond nElt s = false
  /\ GetAllTypeID s = true
  /\ forall t, 0 <= t < nEltType ->
       first_of nElt Elt TypeID t (RefEltType s t)
       /\ RefEltType s t < iElt s
       /\ nXi s t = nXi_of EltParent nGauss nEltDiv (RefEltType s t) (nXi0 t).
Proof.
  intros Hocc. cbv zeta. unfold search.
  destruct (while_invariant
              (search_inv nElt nEltType Elt TypeID EltParent nGauss nEltDiv nXi0)
              (fun s => Z.to_nat (nElt - iElt s))
              (search_cond nElt)
              (search_body nElt nEltType Elt TypeID EltParent nGauss nEltDiv)
              (Z.to_nat nElt)
              (mkSearch 0 false RefEltType0
                        (for_loop nEltType (fun i g => bupd g i false) GetTypeID0) nXi0))
    as ((Hm & Ht & Hall) & Hend).
  { unfold search_inv. cbn [iElt GetAllTypeID RefEltType GetTypeID nXi].
    split; [lia|]. split.
    - intros t Htr. rewrite (GetTypeID_init _ _ _ Htr).
      split; [|split; [discriminate|reflexivity]].
      split; [discriminate|]. intros (e & He & _). lia.
    - split; [discriminate|]. intros H. specialize (H 0 ltac:(lia)).
      rewrite GetTypeID_init in H by lia. discriminate. }
  { cbn [iElt]. lia. }
  { apply search_step. }
  set (s := while _ _ _ _) in *.
  assert (Hfound : forall t, 0 <= t < nEltType -> GetTypeID s t = true).
  { unfold search_cond in Hend. apply andb_false_iff in Hend. destruct Hend as [He|He].
    - apply Z.ltb_ge in He. intros t Htr. apply (Ht t Htr).
      destruct (Hocc t Htr) as (e & Hbe & Hte). exists e. split; [lia|exact Hte].
    - apply negb_false_iff in He. now apply Hall. }
  split; [exact Hend|]. split; [now apply Hall|].
  intros t Htr. destruct (Ht t Htr) as (Hi & Hii & _).
  destruct (Hii (Hfound t Htr)) as (Hfirst & HnXi).
  split; [exact Hfirst|]. split; [|exact HnXi].
  destruct (proj1 Hi (Hfound t Htr)) as (e & He & Hte).
  destruct Hfirst as (_ & _ & Hmin).
  destruct (Z.lt_ge_cases (RefEltType s t) (iElt s)) as [Hlt|Hge]; [exact Hlt|].
  exfalso. apply (Hmin e); [lia|exact Hte].
Qed.

End ReferenceElements.

Lemma reference_element_is_first_of_type_witness :
  Tables.GetAllTypeID
    (@Tables.search Fixtures.ext 2 1 Fixtures.zeros (Fixtures.const 1) (Fixtures.const 1)
                    (Fixtures.const 3) (Fixtures.const 1)
                    (Fixtures.const 0) (Fixtures.const 0) (fun _ => false))
  = true.
Proof.
  destruct (@reference_element_is_first_of_type Fixtures.ext 2 1 Fixtures.zeros
              (Fixtures.const 1) (Fixtures.const 1) (Fixtures.const 3) (Fixtures.const 1)
              (Fixtures.const 0))
    with (RefEltType0 := Fixtures.const 0) (GetTypeID0 := fun _ : Z => false)
    as (_ & Hall & _).
  - split; [lia|reflexivity].
  - split; [lia|reflexivity].
  - intros t t' Ht Ht' _. lia.
  - intros t Ht. exists 0. split; [lia|reflexivity].
  - exact Hall.
Defined.

(** * Receivers on the boundary *)

Section BoundaryRecFacts.
Context {E : Externals}.
Import BoundaryRec.

Variable col : darray -> Z -> Z -> darray -> Z -> Z -> Z -> Z -> iarray.
Variable fmin :
  (float * float -> float) -> float * float -> float * float -> float * float -> Z ->
  float * float.

Lemma write_T_flags a M iRec o : boundaryRec (write_T col a M iRec o) = boundaryRec o.
Proof.
  unfold write_T.
  apply (for_loop_rel (fun o1 o2 : Out => boundaryRec o2 = boundaryRec o1));
    [reflexivity|intros; congruence|].
  intros k o1 _.
  apply (for_loop_rel (fun o1 o2 : Out => boundaryRec o2 = boundaryRec o1));
    [reflexivity|intros; congruence|].
  intros g o2 _. reflexivity.
Qed.

Lemma receiver_flags a iRec o i :
  boundaryRec (receiver col fmin a (nodes a) iRec o) i
  = if i =? iRec then boundaryRec o iRec || matches fmin a iRec else boundaryRec o i.
Proof.
  unfold receiver, matches.
  destruct (boundaryRec o iRec) eqn:Hb; cbn [negb orb].
  - destruct (i =? iRec) eqn:Hi; [apply Z.eqb_eq in Hi; now subst|reflexivity].
  - destruct (near a (widen (nodes a)) iRec); cbn [andb].
    + destruct (on_element fmin a (nodes a) iRec).
      * destruct (TmatOut a); rewrite ?write_T_flags; cbn [boundaryRec]; unfold bupd;
          destruct (i =? iRec); reflexivity.
      * destruct (i =? iRec) eqn:Hi; [apply Z.eqb_eq in Hi; now subst|reflexivity].
    + destruct (i =? iRec) eqn:Hi; [apply Z.eqb_eq in Hi; now subst|reflexivity].
Qed.



End BoundaryRecFacts.

Section BoundaryRecT.
Context {E : Externals}.
Import BoundaryRec.

Variable col : darray -> Z -> Z -> darray -> Z -> Z -> Z -> Z -> iarray.
Variable fmin :
  (float * float -> float) -> float * float -> float * float -> float * float -> Z ->
  float * float.

Lemma receiver_mem_without_T a iRec o :
  TmatOut a = false -> mem (receiver col fmin a (nodes a) iRec o) = mem o.
Proof.
  intros HT. unfold receiver. rewrite HT.
  destruct (negb (boundaryRec o iRec)), (near a (widen (nodes a)) iRec),
    (on_element fmin a (nodes a) iRec); reflexivity.
Qed.

Lemma store_other b i v o b' : b' <> b -> mem (store b i v o) b' = mem o b'.
Proof. intros H. cbn [store mem]. destruct b, b'; try reflexivity; congruence. Qed.

Lemma store_TRe i v o z :
  mem (store TRe i v o) TRe z = if z =? i then v else mem o TRe z.
Proof. reflexivity. Qed.

(** The entries of [o1] are those of [o] or have been written. *)
Lemma write_T_entries a o iRec o1 :
  0 <= iRec < nRec a -> boundaryRec o iRec = false -> matches fmin a iRec = true ->
  ((forall b, b <> TRe -> mem o1 b = mem o b)
   /\ forall z, mem o1 TRe z = mem o TRe z \/ written col fmin a o z (mem o1 TRe z)) ->
  let o2 := write_T col a (shapefun (ShapeTypeM (props a)) 1
                                    (Xi_of (nearest fmin a (nodes a) iRec))) iRec o1 in
  (forall b, b <> TRe -> mem o2 b = mem o b)
  /\ forall z, mem o2 TRe z = mem o TRe z \/ written col fmin a o z (mem o2 TRe z).
Proof.
  intros Hi Hb Hm. cbv zeta. unfold write_T. revert o1.
  set (Inv := fun o1 : Out =>
         (forall b, b <> TRe -> mem o1 b = mem o b)
         /\ forall z, mem o1 TRe z = mem o TRe z \/ written col fmin a o z (mem o1 TRe z)).
  intros o1.
  apply (for_loop_rel (fun o1 o2 : Out => Inv o1 -> Inv o2)); [auto|auto|].
  intros k o3 Hk.
  apply (for_loop_rel (fun o1 o2 : Out => Inv o1 -> Inv o2)); [auto|auto|].
  intros g o4 Hg. cbv zeta.
  assert (Hstore : forall c o5, 0 <= c < 3 -> Inv o5 ->
             Inv (store TRe (u32 (u32 (nRecDof a * nDof a * g)
                                  + nRecDof a * (u32 (3 * EltCollIndex col a k) + c)
                                  + u32 (3 * iRec) + c))
                        (PrimFloat.opp (shapefun (ShapeTypeM (props a)) 1
                                          (Xi_of (nearest fmin a (nodes a) iRec)) k)) o5)).
  { intros c o5 Hc (Hoth & Hz). split.
    - intros b Hb'. rewrite store_other by exact Hb'. now apply Hoth.
    - intros z. rewrite store_TRe.
      destruct (z =? _) eqn:Hzi; [|apply Hz].
      apply Z.eqb_eq in Hzi. right. exists iRec, k, g, c.
      repeat split; try assumption; try lia. }
  intros H4. apply (Hstore 2); [lia|]. apply (Hstore 1); [lia|]. apply (Hstore 0); [lia|].
  exact H4.
Qed.

Lemma receivers_entries a o k i0 o1 :
  0 <= i0 -> i0 + Z.of_nat k <= nRec a ->
  (forall i, i0 <= i -> boundaryRec o1 i = boundaryRec o i) ->
  ((forall b, b <> TRe -> mem o1 b = mem o b)
   /\ forall z, mem o1 TRe z = mem o TRe z \/ written col fmin a o z (mem o1 TRe z)) ->
  let o2 := for_from k i0 (receiver col fmin a (nodes a)) o1 in
  (forall b, b <> TRe -> mem o2 b = mem o b)
  /\ forall z, mem o2 TRe z = mem o TRe z \/ written col fmin a o z (mem o2 TRe z).
Proof.
  revert i0 o1. induction k as [|k IH]; intros i0 o1 Hi0 Hk Hfl Hinv; cbn [for_from].
  - exact Hinv.
  - apply IH; [lia|lia| |].
    + intros i Hi. rewrite receiver_flags.
      replace (i =? i0) with false by (symmetry; apply Z.eqb_neq; lia).
      apply Hfl. lia.
    + unfold receiver. rewrite (Hfl i0) by lia.
      destruct (boundaryRec o i0) eqn:Hb; cbn [negb]; [exact Hinv|].
      destruct (near a (widen (nodes a)) i0) eqn:Hn; [|exact Hinv].
      destruct (on_element fmin a (nodes a) i0) eqn:Hon; [|exact Hinv].
      destruct (TmatOut a); [|exact Hinv].
      apply (write_T_entries a o i0); [lia|exact Hb| |exact Hinv].
      unfold matches. now rewrite Hn, Hon.
Qed.

(** X13.  What [boundaryRec3d] does to the matrix.  It stores into the real part
    of T only, and not at all when T is not requested.  Every entry of the
    real part of T either is as it was or has been overwritten (not
    accumulated) for a receiver that was not flagged before and lies on
    the element: it is then a diagonal entry [(3*iRec+c, 3*iColl+c)] of
    the block of that receiver and of a collocation point of the element,
    in some Green's function set, and holds minus the interpolation
    function of that collocation point at the point of the element nearest
    to the receiver.  The off-diagonal entries of the blocks are never
    written. *)
Theorem receivers_T_entries (a : Args) (o : Out) :
  (forall b, b <> TRe -> mem (boundaryRec3d col fmin a o) b = mem o b)
  /\ (TmatOut a = false -> mem (boundaryRec3d col fmin a o) = mem o)
  /\ forall z,
       mem (boundaryRec3d col fmin a o) TRe z = mem o TRe z
       \/ written col fmin a o z (mem (boundaryRec3d col fmin a o) TRe z).
Proof.
  unfold boundaryRec3d, for_loop.
  destruct (Z.le_gt_cases 0 (nRec a)) as [Hn|Hn].
  - destruct (receivers_entries a o (Z.to_nat (nRec a)) 0 o) as (Hoth & Hz);
      [lia|lia|reflexivity|split; [reflexivity|now left]|].
    cbv zeta in Hoth, Hz. split; [exact Hoth|]. split; [|exact Hz].
    intros HT.
    apply (for_from_rel (fun o1 o2 : Out => mem o2 = mem o1));
      [reflexivity|intros; congruence|].
    intros j o1 _. now apply receiver_mem_without_T.
  - replace (Z.to_nat (nRec a)) with 0%nat by lia. cbn [for_from].
    split; [reflexivity|]. split; [reflexivity|now left].
Qed.

(** X14.  The point at which a quadrilateral element is evaluated lies in the
    reference square: after the correction neither coordinate is above 1
    or below -1 (a coordinate that is not a number is left as it is), and
    correcting a corrected point changes nothing. *)
Theorem quadrilateral_point_is_clamped (EltParent : Z) (xiRec : float * float) :
  EltParent <> 1 ->
  PrimFloat.ltb 1 (fst (clamp EltParent xiRec)) = false
  /\ PrimFloat.ltb (fst (clamp EltParent xiRec)) (-1) = false
  /\ PrimFloat.ltb 1 (snd (clamp EltParent xiRec)) = false
  /\ PrimFloat.ltb (snd (clamp EltParent xiRec)) (-1) = false
  /\ clamp EltParent (clamp EltParent xiRec) = clamp EltParent xiRec.
Proof.
  intros Hp. unfold clamp. apply Z.eqb_neq in Hp. rewrite Hp. cbv zeta.
  destruct xiRec as [x y]. cbn [fst snd].
  assert (H1 : forall v,
             let v1 := if PrimFloat.ltb 1 v then 1%float else v in
             let v2 := if PrimFloat.ltb v1 (-1) then (-1)%float else v1 in
             PrimFloat.ltb 1 v2 = false /\ PrimFloat.ltb v2 (-1) = false).
  { intros v. cbv zeta. destruct (PrimFloat.ltb 1 v) eqn:Ha.
    - change (PrimFloat.ltb 1 (-1)) with false. cbv iota. split; reflexivity.
    - destruct (PrimFloat.ltb v (-1)) eqn:Hb.
      + split; reflexivity.
      + split; assumption. }
  destruct (H1 x) as (Hx1 & Hx2). destruct (H1 y) as (Hy1 & Hy2). cbv zeta in *.
  repeat split; try assumption.
  rewrite Hx1, Hx2, Hy1, Hy2. reflexivity.
Qed.

End BoundaryRecT.

Lemma quadrilateral_point_is_clamped_witness :
  PrimFloat.ltb 1 (fst (BoundaryRec.clamp 2 (2%float, (-3)%float))) = false
  /\ PrimFloat.ltb (snd (BoundaryRec.clamp 2 (2%float, (-3)%float))) (-1) = false.
Proof.
  destruct (quadrilateral_point_is_clamped 2 (2%float, (-3)%float))
    as (H1 & _ & _ & H4 & _).
  - discriminate.
  - split; [exact H1|exact H4].
Defined.

(** * The gateway *)

Section GatewayFacts.
Context {E : Externals} {MO : Gateway.MeshOps}.
Import Gateway.

Lemma get_in nrhs prhs k : k < nrhs -> get nrhs prhs k = Ret (prhs k).
Proof. intros H. unfold get. apply Z.ltb_lt in H. now rewrite H. Qed.

Lemma read_s_cases nrhs prhs k f :
  k < nrhs ->
  (exists msg, read_s nrhs prhs k f = Fail (Error msg))
  \/ (read_s nrhs prhs k f
      = Ret (mkForm (Cache f) (getCache f) (UmatOut f) (mxGetPr_null (prhs k))
                    (u32 (Mex.mxGetM (arr (prhs k)))) (u32 (Mex.mxGetN (arr (prhs k))))
                    (greenPos f))
      /\ Mex.mxIsNumeric (arr (prhs k)) = true
      /\ Mex.mxIsSparse (arr (prhs k)) = false
      /\ Mex.mxIsComplex (arr (prhs k)) = false).
Proof.
  intros Hk. unfold read_s. rewrite (get_in _ _ _ Hk). cbn [bind].
  destruct (Mex.mxIsNumeric (arr (prhs k))); cbn; [|left; eauto].
  destruct (Mex.mxIsSparse (arr (prhs k))); cbn; [left; eauto|].
  destruct (Mex.mxIsComplex (arr (prhs k))); cbn; [left; eauto|].
  right. auto.
Qed.

Lemma not_supported_cases nrhs prhs k :
  k < nrhs ->
  (exists msg, not_supported nrhs prhs k = Fail (Error msg))
  \/ (not_supported nrhs prhs k = Ret tt /\ Mex.mxIsEmpty (arr (prhs k)) = true).
Proof.
  intros Hk. unfold not_supported. rewrite (get_in _ _ _ Hk). cbn [bind].
  destruct (Mex.mxIsEmpty (arr (prhs k))); cbn; [right; auto|left; eauto].
Qed.

(** What the first part of the argument processing leaves. *)
Lemma head_cases nlhs nrhs prhs :
  (exists msg, head nlhs nrhs prhs = Fail (Error msg)
               /\ (nrhs < 3 \/ 2 < nlhs \/ cached_form prhs = true))
  \/ exists f,
       head nlhs nrhs prhs = Ret f
       /\ 3 <= nrhs /\ nlhs <= 2
       /\ Cache f = (nrhs =? 3) && negb (mxIsChar (prhs 0))
       /\ getCache f = cached_form prhs
       /\ greenPos f = (if mxIsChar (prhs 2) then 2
                        else if mxIsChar (prhs 1) then 1
                        else if mxIsChar (prhs 0) then 0 else 3)
       /\ UmatOut f = negb (mxIsChar (prhs 2))
       /\ (if mxIsChar (prhs 2)
           then Mex.mxIsEmpty (arr (prhs 0)) = true /\ selection_is prhs 1 f
           else if mxIsChar (prhs 1) then selection_is prhs 0 f
           else no_selection f).
Proof.
  unfold head. destruct (nrhs <? 3) eqn:Hn; cbn [throw_if bind].
  { apply Z.ltb_lt in Hn. left. eauto. }
  apply Z.ltb_ge in Hn.
  destruct (nlhs >? 2) eqn:Hl; cbn [throw_if bind].
  { rewrite Z.gtb_ltb in Hl. apply Z.ltb_lt in Hl. left. eauto. }
  assert (Hl' : nlhs <= 2) by (rewrite Z.gtb_ltb in Hl; apply Z.ltb_ge in Hl; lia).
  rewrite !(get_in nrhs prhs 0), (get_in nrhs prhs 1), (get_in nrhs prhs 2) by lia.
  assert (HC : (if nrhs =? 3 then p <- Ret (prhs 0);; Ret (negb (mxIsChar p)) else Ret false)
               = Ret ((nrhs =? 3) && negb (mxIsChar (prhs 0)))).
  { destruct (nrhs =? 3); reflexivity. }
  rewrite HC. cbn [bind]. unfold cached_form.
  set (C := (nrhs =? 3) && negb (mxIsChar (prhs 0))).
  destruct (mxIsChar (prhs 0)) eqn:H0, (mxIsChar (prhs 1)) eqn:H1,
           (mxIsChar (prhs 2)) eqn:H2;
    cbn [Cache getCache UmatOut s_null ms ns greenPos orb negb];
    repeat match goal with
      | |- context [read_s nrhs prhs ?k ?f] =>
          let Hr := fresh "Hr" in
          destruct (read_s_cases nrhs prhs k f ltac:(lia)) as [(? & Hr)|(Hr & ? & ? & ?)];
          rewrite Hr; cbn [bind Cache getCache UmatOut s_null ms ns greenPos]
      | |- context [not_supported nrhs prhs ?k] =>
          let Hr := fresh "Hr" in
          destruct (not_supported_cases nrhs prhs k ltac:(lia)) as [(? & Hr)|(Hr & ?)];
          rewrite Hr; cbn [bind Cache getCache UmatOut s_null ms ns greenPos]
      end;
    first
      [ left; eexists; split; [reflexivity|right; right; reflexivity]
      | right; eexists; (split; [reflexivity|]);
        cbn [Cache getCache UmatOut s_null ms ns greenPos];
        unfold selection_is, no_selection; cbn [Cache getCache UmatOut s_null ms ns greenPos];
        repeat split; auto ].
Qed.

Lemma selection_cases nrhs prhs f :
  4 <= nrhs ->
  (exists msg, selection nrhs prhs f = Fail (Error msg))
  \/ exists f',
       selection nrhs prhs f = Ret f'
       /\ Cache f' = Cache f /\ getCache f' = getCache f
       /\ ((mxIsChar (prhs 3) = true /\ f' = f)
           \/ (mxIsChar (prhs 3) = false /\ 5 <= nrhs /\ mxIsChar (prhs 4) = true
               /\ greenPos f' = 4 /\ UmatOut f' = UmatOut f /\ selection_is prhs 3 f')
           \/ (mxIsChar (prhs 3) = false /\ 6 <= nrhs /\ mxIsChar (prhs 4) = false
               /\ greenPos f' = 5 /\ UmatOut f' = false
               /\ Mex.mxIsEmpty (arr (prhs 3)) = true /\ selection_is prhs 4 f')).
Proof.
  intros Hn. unfold selection. rewrite (get_in nrhs prhs 3) by lia. cbn [bind].
  destruct (mxIsChar (prhs 3)) eqn:H3; cbn [negb].
  { right. exists f. split; [reflexivity|]. split; [reflexivity|]. split; [reflexivity|]. left. auto. }
  destruct (nrhs <? 5) eqn:H5; cbn [throw_if bind]; [left; eauto|]. apply Z.ltb_ge in H5.
  destruct (read_s_cases nrhs prhs 3
              (mkForm (Cache f) (getCache f) (UmatOut f) (s_null f) (ms f) (ns f) 4)
              ltac:(lia)) as [(msg & Hr)|(Hr & Hs1 & Hs2 & Hs3)];
    rewrite Hr; cbn [bind]; [left; eauto|].
  rewrite (get_in nrhs prhs 4) by lia. cbn [bind Cache getCache UmatOut s_null ms ns greenPos].
  destruct (mxIsChar (prhs 4)) eqn:H4; cbn [negb].
  { right. eexists. split; [reflexivity|]. cbn [Cache getCache UmatOut s_null ms ns greenPos].
    split; [reflexivity|]. split; [reflexivity|]. right; left.
    unfold selection_is. cbn [Cache getCache UmatOut s_null ms ns greenPos].
    repeat split; auto. }
  destruct (nrhs <? 6) eqn:H6; cbn [throw_if bind]; [left; eauto|]. apply Z.ltb_ge in H6.
  destruct (not_supported_cases nrhs prhs 3 ltac:(lia)) as [(msg & Hr')|(Hr' & He)];
    rewrite Hr'; cbn [bind]; [left; eauto|].
  match goal with
  | |- context [read_s nrhs prhs 4 ?g] =>
      destruct (read_s_cases nrhs prhs 4 g ltac:(lia)) as [(msg & Hr4)|(Hr4 & Ht1 & Ht2 & Ht3)]
  end; rewrite Hr4; [left; eauto|].
  right. eexists. split; [reflexivity|]. cbn [Cache getCache UmatOut s_null ms ns greenPos].
  split; [reflexivity|]. split; [reflexivity|]. right; right.
  unfold selection_is. cbn [Cache getCache UmatOut s_null ms ns greenPos].
  repeat split; auto.
Qed.

Lemma mesh_section_cases nrhs prhs st :
  3 <= nrhs ->
  CacheValid (snd (mesh_section nrhs prhs st)) = true
  /\ ((exists msg, fst (mesh_section nrhs prhs st) = Fail (Error msg))
      \/ fst (mesh_section nrhs prhs st) = Ret tt).
Proof.
  intros Hn. unfold mesh_section.
  rewrite (get_in nrhs prhs 0), (get_in nrhs prhs 1), (get_in nrhs prhs 2) by lia.
  cbv zeta. cbn [mesh].
  repeat match goal with
    | |- context [throw_if ?c ?m] =>
        destruct c; cbn [throw_if bind fst snd CacheValid]; [split; [reflexivity|left; eauto]|]
    | |- context [negb ?c] =>
        destruct c; cbn [negb throw_if bind fst snd CacheValid];
        try (split; [reflexivity|left; eauto])
    | |- context [if ?c =? ?d then _ else _] =>
        destruct (c =? d); cbn [throw_if bind fst snd CacheValid];
        try (split; [reflexivity|left; eauto])
    | |- context [build ?p ?m] =>
        destruct (build p m) as [[msg|] m']; cbn [fst snd CacheValid];
        split; try reflexivity; [left; eauto|right; reflexivity]
    end.
Qed.

Lemma front_cases st nlhs nrhs prhs :
  (nrhs < 3 \/ 2 < nlhs \/ cached_form prhs = true -> snd (front st nlhs nrhs prhs) = st)
  /\ (3 <= nrhs -> nlhs <= 2 -> cached_form prhs = false ->
      CacheValid (snd (front st nlhs nrhs prhs)) = true)
  /\ ((exists msg, fst (front st nlhs nrhs prhs) = Fail (Error msg))
      \/ exists f,
           fst (front st nlhs nrhs prhs) = Ret f
           /\ 3 <= nrhs /\ nlhs <= 2
           /\ Cache f = (nrhs =? 3) && negb (mxIsChar (prhs 0))
           /\ getCache f = cached_form prhs
           /\ (getCache f = true -> CacheValid st = true /\ head nlhs nrhs prhs = Ret f)
           /\ (Cache f = false -> form_at nrhs prhs f)).
Proof.
  unfold front.
  destruct (head_cases nlhs nrhs prhs)
    as [(msg & Hh & Hc)|(f & Hh & Hn & Hl & HC & HG & Hg & HU & Hs)]; rewrite Hh.
  { cbn [fst snd]. split; [reflexivity|]. split; [|left; eauto].
    intros ? ? Hf. destruct Hc as [?|[?|Hc]]; try lia. congruence. }
  destruct (cached_form prhs) eqn:Hcf; rewrite HG; cbn [fst snd].
  - (* the cached forms *)
    split; [reflexivity|]. split; [discriminate|].
    rewrite andb_false_r.
    destruct (CacheValid st) eqn:Hv; cbn [negb andb throw_if bind]; [|left; eauto].
    right. exists f. repeat (split; [first [reflexivity|assumption]|]).
    split; [auto|]. intros _.
    unfold cached_form in Hcf. unfold form_at. rewrite Hg, HU, HG. revert Hs.
    destruct (mxIsChar (prhs 2)) eqn:H2; [|destruct (mxIsChar (prhs 1)) eqn:H1;
      [|destruct (mxIsChar (prhs 0)) eqn:H0; [|discriminate]]];
      cbn [negb]; intros Hs;
      try change (2 - 1) with 1; try change (2 - 2) with 0; try change (1 - 1) with 0;
      intuition (try lia; try congruence).
  - (* the mesh is passed *)
    destruct (mesh_section_cases nrhs prhs st Hn) as (Hv & Hm).
    split.
    { intros [?|[?|?]]; try lia; discriminate. }
    assert (Hcases :
      (exists msg,
         fst (match fst (mesh_section nrhs prhs st) with
              | Fail e => (Fail e, snd (mesh_section nrhs prhs st))
              | Ret _ =>
                  (throw_if (false && negb (CacheValid (snd (mesh_section nrhs prhs st))))
                            "Mesh attributes are not cached!" ;;;
                   (if negb (Cache f) && negb false then selection nrhs prhs f else Ret f),
                   snd (mesh_section nrhs prhs st))
              end) = Fail (Error msg))
      \/ exists f',
           fst (match fst (mesh_section nrhs prhs st) with
                | Fail e => (Fail e, snd (mesh_section nrhs prhs st))
                | Ret _ =>
                    (throw_if (false && negb (CacheValid (snd (mesh_section nrhs prhs st))))
                              "Mesh attributes are not cached!" ;;;
                     (if negb (Cache f) && negb false then selection nrhs prhs f else Ret f),
                     snd (mesh_section nrhs prhs st))
                end) = Ret f'
           /\ Cache f' = Cache f /\ getCache f' = false
           /\ (Cache f' = false -> form_at nrhs prhs f')).
    { unfold cached_form in Hcf. apply orb_false_iff in Hcf. destruct Hcf as (Hcf & H2).
      apply orb_false_iff in Hcf. destruct Hcf as (H0 & H1).
      rewrite H2, H1, H0 in *. cbn [negb] in *. rewrite andb_true_r in HC.
      destruct Hm as [(msg & Hm)|Hm]; rewrite Hm; cbn [fst]; [left; eauto|].
      cbn [andb throw_if bind negb]. rewrite andb_true_r.
      destruct (Cache f) eqn:Hcache; cbn [negb].
      { right. exists f. split; [reflexivity|]. split; [exact Hcache|].
        split; [exact HG|]. intros; congruence. }
      symmetry in HC. apply Z.eqb_neq in HC.
      destruct (selection_cases nrhs prhs f ltac:(lia))
        as [(msg & Hsel)|(f' & Hsel & HC' & HG' & Hsel')]; rewrite Hsel; [left; eauto|].
      right. exists f'. split; [reflexivity|]. split; [congruence|]. split; [congruence|].
      intros _. unfold form_at.
      destruct Hsel' as [(H3 & ->)|[(H3 & H5 & H4 & Hg' & HU' & Hs')|
                                     (H3 & H6 & H4 & Hg' & HU' & He & Hs')]].
      - rewrite Hg, HU, HG.
        intuition (try lia; try congruence).
      - rewrite Hg', HU', HU, HG'. change (4 - 1) with 3.
        intuition (try lia; try congruence).
      - rewrite Hg', HU', HG'. change (5 - 1) with 4. change (5 - 2) with 3.
        intuition (try lia; try congruence). }
    split.
    { intros _ _ _.
      destruct (fst (mesh_section nrhs prhs st)); cbn [snd]; exact Hv. }
    destruct Hcases as [(msg & Hc)|(f' & Hc & HC' & HG' & Hform)]; [left; eauto|].
    right. exists f'. split; [exact Hc|]. split; [exact Hn|]. split; [exact Hl|].
    split; [congruence|]. split; [exact HG'|].
    split; [intros; congruence|exact Hform].
Qed.

(** Every branch of [mexFunction] leaves the statics as the front part
    left them. *)
Lemma mexFunction_statics st nlhs nrhs prhs :
  statics (mexFunction st nlhs nrhs prhs) = snd (front st nlhs nrhs prhs).
Proof.
  unfold mexFunction. cbv zeta.
  destruct (fst (front st nlhs nrhs prhs)) as [f|e]; [|reflexivity].
  destruct (Cache f); [reflexivity|].
  match goal with |- statics (match ?m with _ => _ end) = _ => destruct m end; reflexivity.
Qed.

End GatewayFacts.

Section GatewayTheorems.
Context {E : Externals} {MO : Gateway.MeshOps}.
Import Gateway.

(** What [mexFunction] does once the front part has returned the form [f]
    of a call that is to integrate. *)
Lemma mexFunction_dispatch st nlhs nrhs prhs f :
  fst (front st nlhs nrhs prhs) = Ret f ->
  Cache f = false ->
  greenPos f < nrhs ->
  mexFunction st nlhs nrhs prhs
  = if negb (mxIsChar (prhs (greenPos f)))
    then mkOutcome (Fail (Error "Input argument 'green' must be a string."))
                   (Mex.mkPlhs None None) (snd (front st nlhs nrhs prhs))
    else
      match entry_of (mxArrayToString (prhs (greenPos f))) with
      | None => mkOutcome (Fail (Error unknown_green)) (Mex.mkPlhs None None)
                          (snd (front st nlhs nrhs prhs))
      | Some e =>
          let io := integrate e (inputs nlhs nrhs prhs f (mesh (snd (front st nlhs nrhs prhs)))) in
          mkOutcome (x <- fst io ;; Ret (Some (e, x))) (snd io) (snd (front st nlhs nrhs prhs))
      end.
Proof.
  intros Hf HC Hg. unfold mexFunction. cbv zeta. rewrite Hf, HC.
  rewrite (get_in _ _ _ Hg). cbn [bind].
  destruct (mxIsChar (prhs (greenPos f))); cbn [negb throw_if bind]; [|reflexivity].
  destruct (entry_of (mxArrayToString (prhs (greenPos f)))); reflexivity.
Qed.

(** X15.  The gateway reads no argument that was not passed: whatever the
    call, the argument processing of [mexFunction], up to and including the
    decoding of the selection, never reads [prhs[k]] with [k >= nrhs], and
    when a call of [mexFunction] does end in such a read, the read was made
    by the entry point that was dispatched to. *)
Theorem gateway_reads_within_arguments st nlhs nrhs prhs k :
  fst (front st nlhs nrhs prhs) <> Fail (Beyond k)
  /\ (ended (mexFunction st nlhs nrhs prhs) = Fail (Beyond k) ->
      exists f e,
        fst (front st nlhs nrhs prhs) = Ret f
        /\ entry_of (mxArrayToString (prhs (greenPos f))) = Some e
        /\ fst (integrate e (inputs nlhs nrhs prhs f (mesh (snd (front st nlhs nrhs prhs)))))
           = Fail (Beyond k)).
Proof.
  destruct (front_cases st nlhs nrhs prhs) as (_ & _ & [(msg & Hf)|(f & Hf & _ & _ & _ & _ & _ & Hform)]).
  - split; [rewrite Hf; discriminate|].
    unfold mexFunction. cbv zeta. rewrite Hf. cbn [ended]. discriminate.
  - split; [rewrite Hf; discriminate|].
    destruct (Cache f) eqn:HC.
    { unfold mexFunction. cbv zeta. rewrite Hf, HC. cbn [ended]. discriminate. }
    destruct (Hform eq_refl) as (_ & Hg & _).
    rewrite (mexFunction_dispatch _ _ _ _ _ Hf HC Hg).
    destruct (mxIsChar (prhs (greenPos f))); cbn [negb ended]; [|discriminate].
    destruct (entry_of (mxArrayToString (prhs (greenPos f)))) as [e|] eqn:He;
      cbn [ended]; [|discriminate].
    intros Hend. exists f, e. split; [exact Hf|]. split; [exact He|].
    destruct (fst (integrate e (inputs nlhs nrhs prhs f (mesh (snd (front st nlhs nrhs prhs))))));
      cbn [bind] in Hend; [discriminate|congruence].
Qed.

(** X16.  The forms of a call: when the argument processing of
    [mexFunction] succeeds on a call that is to integrate, the name of the
    Green's function is argument [g] with [g] in 0..5 and [g < nrhs]; the
    mesh comes from the cache exactly when [g <= 2]; U is left out exactly
    when [g] is 2 or 5, and then the argument two places before the name
    is empty; for [g] in 1, 2, 4, 5 the selection is the argument just
    before the name, a full real numeric array, and for [g] in 0, 3 there
    is none. *)
Theorem call_forms st nlhs nrhs prhs f :
  fst (front st nlhs nrhs prhs) = Ret f ->
  Cache f = false ->
  form_at nrhs prhs f.
Proof.
  intros Hf HC.
  destruct (front_cases st nlhs nrhs prhs) as (_ & _ & [(msg & Hf')|(f' & Hf' & _ & _ & _ & _ & _ & Hform)]).
  - rewrite Hf in Hf'. discriminate.
  - rewrite Hf in Hf'. injection Hf' as <-. exact (Hform HC).
Qed.

(** X17.  A call that passes the mesh and gets past the two tests of the
    numbers of arguments marks the cache valid before it looks at the
    mesh: however the call ends, also with an error about [nod], [elt] or
    [typ], the statics have [CacheValid] set, and a later call of a cached
    form is no longer refused for the cache; its argument processing ends
    as its first tests alone decide. *)
Theorem failed_mesh_call_validates_cache st nlhs nrhs prhs :
  3 <= nrhs -> nlhs <= 2 -> cached_form prhs = false ->
  CacheValid (statics (mexFunction st nlhs nrhs prhs)) = true
  /\ forall nlhs' nrhs' prhs',
       cached_form prhs' = true ->
       fst (front (statics (mexFunction st nlhs nrhs prhs)) nlhs' nrhs' prhs')
       = head nlhs' nrhs' prhs'.
Proof.
  intros Hn Hl Hc. rewrite mexFunction_statics.
  destruct (front_cases st nlhs nrhs prhs) as (_ & Hv & _).
  specialize (Hv Hn Hl Hc). split; [exact Hv|].
  set (st' := snd (front st nlhs nrhs prhs)) in *. clearbody st'.
  intros nlhs' nrhs' prhs' Hc'. unfold front.
  destruct (head_cases nlhs' nrhs' prhs')
    as [(msg & Hh & _)|(f & Hh & _ & _ & _ & HG & _)]; rewrite Hh; [reflexivity|].
  rewrite HG, Hc'. cbn [fst snd]. rewrite Hv. cbn [negb andb throw_if bind].
  rewrite andb_false_r. reflexivity.
Qed.

(** X18.  A call of a cached form made while the cache is not valid, as
    before the first call that passes a mesh and after [cleanup], never
    integrates: it ends in an error, which is "Mesh attributes are not
    cached!" when the first tests of the arguments pass; it assigns no
    output and leaves the statics as they were. *)
Theorem cached_call_needs_mesh st nlhs nrhs prhs :
  CacheValid st = false -> cached_form prhs = true ->
  statics (mexFunction st nlhs nrhs prhs) = st
  /\ plhs (mexFunction st nlhs nrhs prhs) = Mex.mkPlhs None None
  /\ (exists msg, ended (mexFunction st nlhs nrhs prhs) = Fail (Error msg))
  /\ (forall f, head nlhs nrhs prhs = Ret f ->
      ended (mexFunction st nlhs nrhs prhs) = Fail (Error "Mesh attributes are not cached!")).
Proof.
  intros Hv Hc. rewrite mexFunction_statics.
  destruct (front_cases st nlhs nrhs prhs) as (Hst & _ & _).
  split; [apply Hst; auto|].
  unfold mexFunction, front. cbv zeta.
  destruct (head_cases nlhs nrhs prhs)
    as [(msg & Hh & _)|(f & Hh & _ & _ & _ & HG & _)]; rewrite Hh; cbn [fst snd plhs ended].
  - split; [reflexivity|]. split; [eauto|]. intros; discriminate.
  - rewrite HG, Hc. cbn [fst snd]. rewrite Hv. cbn [negb andb throw_if bind fst plhs ended].
    split; [reflexivity|]. split; [eauto|]. reflexivity.
Qed.

(** X19.  A call with exactly three arguments whose first is not a string
    only sets up the mesh: it never reaches an entry point and assigns no
    output argument; it returns normally or ends in an error of the
    argument tests.  This holds also when the second or third argument is
    a string, so that the call has a cached form. *)
Theorem three_argument_call_only_caches st nlhs prhs :
  mxIsChar (prhs 0) = false ->
  plhs (mexFunction st nlhs 3 prhs) = Mex.mkPlhs None None
  /\ (ended (mexFunction st nlhs 3 prhs) = Ret None
      \/ exists msg, ended (mexFunction st nlhs 3 prhs) = Fail (Error msg)).
Proof.
  intros H0. unfold mexFunction. cbv zeta.
  destruct (front_cases st nlhs 3 prhs) as (_ & _ & [(msg & Hf)|(f & Hf & _ & _ & HC & _)]);
    rewrite Hf; cbn [plhs ended].
  - split; [reflexivity|right; eauto].
  - rewrite H0 in HC. cbn in HC. rewrite HC. cbn [plhs ended].
    split; [reflexivity|left; reflexivity].
Qed.

End GatewayTheorems.

Lemma call_forms_witness :
  form_at 3 Examples.cached_call (Gateway.mkForm false true true true 0 0 0).
Proof.
  apply (@call_forms Examples.mesh_ops
           (@Gateway.mkStatics Examples.mesh_ops true tt) 1 3 Examples.cached_call).
  - reflexivity.
  - reflexivity.
Defined.

Lemma failed_mesh_call_validates_cache_witness :
  @Gateway.CacheValid Examples.mesh_ops
    (Gateway.statics
       (@Gateway.mexFunction Fixtures.ext Examples.mesh_ops Examples.no_mesh 1 3
                             Examples.mesh_call))
  = true.
Proof.
  destruct (@failed_mesh_call_validates_cache Fixtures.ext Examples.mesh_ops
              Examples.no_mesh 1 3 Examples.mesh_call) as (H & _).
  - lia.
  - lia.
  - reflexivity.
  - exact H.
Defined.

Lemma cached_call_needs_mesh_witness :
  Gateway.ended
    (@Gateway.mexFunction Fixtures.ext Examples.mesh_ops Examples.no_mesh 1 3
                          Examples.cached_call)
  = Gateway.Fail (Gateway.Error "Mesh attributes are not cached!").
Proof.
  destruct (@cached_call_needs_mesh Fixtures.ext Examples.mesh_ops
              Examples.no_mesh 1 3 Examples.cached_call) as (_ & _ & _ & H).
  - reflexivity.
  - reflexivity.
  - apply (H (Gateway.mkForm false true true true 0 0 0)). reflexivity.
Defined.

Lemma three_argument_call_only_caches_witness :
  Gateway.plhs
    (@Gateway.mexFunction Fixtures.ext Examples.mesh_ops Examples.no_mesh 1 3
                          Examples.mesh_call)
  = Mex.mkPlhs None None.
Proof.
  destruct (@three_argument_call_only_caches Fixtures.ext Examples.mesh_ops
              Examples.no_mesh 1 Examples.mesh_call) as (H & _).
  - reflexivity.
  - exact H.
Defined.

(** * The entry points of the full space solutions *)

Section EntryPoints.
Context {E : Externals}.
Import Gateway.

Lemma bind_ret {A B : Type} (m : result A) (k : A -> result B) (b : B) :
  bind m k = Ret b -> exists a, m = Ret a /\ k a = Ret b.
Proof. destruct m; cbn; [eauto|discriminate]. Qed.

Lemma throw_if_ret c msg : throw_if c msg = Ret tt -> c = false.
Proof. destruct c; [discriminate|reflexivity]. Qed.

Lemma param_ret i k a :
  param i k = Ret a -> u32 (Mex.greenPos i + k) < Mex.nrhs i.
Proof.
  unfold param. destruct (_ <? _) eqn:H; [|discriminate]. intros _. now apply Z.ltb_lt.
Qed.

Lemma scalar_ret i k name :
  scalar i k name = Ret tt -> u32 (Mex.greenPos i + k) < Mex.nrhs i.
Proof.
  unfold scalar. intros H. apply bind_ret in H. destruct H as (a & H & _).
  now apply param_ret in H.
Qed.

Lemma vector_ret i k name :
  vector i k name = Ret tt -> u32 (Mex.greenPos i + k) < Mex.nrhs i.
Proof.
  unfold vector. intros H. apply bind_ret in H. destruct H as (a & H & _).
  now apply param_ret in H.
Qed.

(** The last parameter an entry point with a fixed count reads. *)
Ltac last_read H :=
  repeat match type of H with
         | bind _ _ = _ => apply bind_ret in H; destruct H as ([] & ? & H)
         end;
  first [apply scalar_ret in H | apply vector_ret in H].

Ltac count_test H :=
  let Hc := fresh "Hc" in
  apply bind_ret in H; destruct H as ([] & Hc & H);
  apply throw_if_ret in Hc; apply negb_false_iff in Hc; apply Z.eqb_eq in Hc.

Lemma fixed_count_accepts e i N c :
  fixed_count e = Some N ->
  0 <= Mex.greenPos i <= 5 ->
  fst (integrate e i) = Ret c ->
  Mex.nrhs i = N /\ Mex.greenPos i <= 3.
Proof.
  intros HN Hg Hr.
  assert (Hu : forall k, 0 <= k <= 7 -> u32 (Mex.greenPos i + k) = Mex.greenPos i + k).
  { intros k Hk. apply u32_small. split; [lia|].
    apply Z.le_lt_trans with 12; [lia|reflexivity]. }
  destruct e; try discriminate; injection HN as <-; cbn [integrate] in Hr;
    match type of Hr with
    | fst (?f i) = _ => unfold f in Hr
    end;
    match type of Hr with
    | fst ?t = _ =>
        match t with
        | match ?m with _ => _ end =>
            let Hm := fresh "Hm" in
            destruct m as [[]|] eqn:Hm; cbn [fst] in Hr; [|discriminate]
        end
    end;
    count_test Hm; last_read Hm; rewrite Hu in Hm by lia; lia.
Qed.

Lemma fixed_count_rejects e i N :
  fixed_count e = Some N ->
  Mex.nrhs i <> N ->
  integrate e i = (Fail (Error wrong_number), Mex.mkPlhs None None).
Proof.
  intros HN Hn.
  destruct e; try discriminate; injection HN as <-; cbn [integrate];
    match goal with
    | |- ?f i = _ => unfold f
    end;
    apply Z.eqb_neq in Hn; rewrite Hn; reflexivity.
Qed.

(** X20.  Six of the full space solutions (fsgreenf, fsgreen3dt,
    fsgreen2d_inplane, fsgreen2d_inplane0, fsgreen2d_outofplane,
    fsgreen2d_outofplane0) compare the number of arguments [nrhs] with a
    constant, which is the number of arguments of the form
    [bemmat(nod,elt,typ,green,...)].  Hence none of them accepts a call
    whose name is at position 4 or 5 (mesh and selection), and a call of
    any other form that passes exactly the parameters of the solution
    after the name ends in "Wrong number of input arguments.". *)
Theorem fixed_count_entry_points e i N :
  fixed_count e = Some N ->
  0 <= Mex.greenPos i <= 5 ->
  (forall c, fst (integrate e i) = Ret c -> Mex.nrhs i = N /\ Mex.greenPos i <= 3)
  /\ (Mex.greenPos i <> 3 -> Mex.nrhs i = Mex.greenPos i + (N - 3) ->
      integrate e i = (Fail (Error wrong_number), Mex.mkPlhs None None)).
Proof.
  intros HN Hg. split.
  - intros c. now apply fixed_count_accepts.
  - intros Hg3 Hn. apply fixed_count_rejects with N; [exact HN|lia].
Qed.

Lemma check_real_scalar_ok a name :
  real_scalar a -> Mex.check_real_scalar a name = Mex.OK tt.
Proof.
  intros (H1 & H2 & H3 & H4). unfold Mex.check_real_scalar.
  rewrite H1, H2, H3, H4. reflexivity.
Qed.

Lemma scalar_ok i k name :
  u32 (Mex.greenPos i + k) < Mex.nrhs i ->
  real_scalar (Mex.prhs i (u32 (Mex.greenPos i + k))) ->
  scalar i k name = Ret tt.
Proof.
  intros Hk Hs. unfold scalar, param. apply Z.ltb_lt in Hk. rewrite Hk. cbn [bind].
  rewrite (check_real_scalar_ok _ _ Hs). reflexivity.
Qed.

Lemma scalar_beyond i k name :
  Mex.nrhs i <= u32 (Mex.greenPos i + k) ->
  scalar i k name = Fail (Beyond (u32 (Mex.greenPos i + k))).
Proof.
  intros Hk. unfold scalar, param. apply Z.ltb_ge in Hk. rewrite Hk. reflexivity.
Qed.

Lemma vector_beyond i k name :
  Mex.nrhs i <= u32 (Mex.greenPos i + k) ->
  vector i k name = Fail (Beyond (u32 (Mex.greenPos i + k))).
Proof.
  intros Hk. unfold vector, param. apply Z.ltb_ge in Hk. rewrite Hk. reflexivity.
Qed.

Lemma scalar_not_beyond i k name j :
  u32 (Mex.greenPos i + k) < Mex.nrhs i -> scalar i k name <> Fail (Beyond j).
Proof.
  intros Hk. unfold scalar, param. apply Z.ltb_lt in Hk. rewrite Hk. cbn [bind].
  destruct (Mex.check_real_scalar _ _); cbn; discriminate.
Qed.

Lemma vector_not_beyond i k name j :
  u32 (Mex.greenPos i + k) < Mex.nrhs i -> vector i k name <> Fail (Beyond j).
Proof.
  intros Hk. unfold vector, param. apply Z.ltb_lt in Hk. rewrite Hk. cbn [bind].
  destruct (Mex.check_real_vector _ _); cbn; discriminate.
Qed.

Lemma bind_not_beyond {A B : Type} (m : result A) (k : A -> result B) j :
  m <> Fail (Beyond j) -> (forall a, k a <> Fail (Beyond j)) -> bind m k <> Fail (Beyond j).
Proof. destruct m; cbn; intros Hm Hk; [apply Hk|congruence]. Qed.

Lemma throw_if_not_beyond c msg j : throw_if c msg <> Fail (Beyond j).
Proof. destruct c; discriminate. Qed.

(** X21.  [IntegrateFsGreen3d], not periodic: the test of the number of
    arguments lets through calls with four, five or six parameters after
    the name, but the function always reads six.  With six parameters no
    read goes beyond the arguments passed; with four or five real scalars
    the test passes, the parameters present pass theirs, and the function
    then reads [prhs[nrhs]], an argument that was not passed. *)
Theorem fsgreen3d_count_check i :
  Mex.probPeriodic (Mex.common i) = false ->
  0 <= Mex.greenPos i <= 5 ->
  (Mex.nrhs i = Mex.greenPos i + 7 ->
   forall j, fst (IntegrateFsGreen3d i) <> Fail (Beyond j))
  /\ (Mex.greenPos i + 5 <= Mex.nrhs i <= Mex.greenPos i + 6 ->
      (forall k, Mex.greenPos i < k < Mex.nrhs i -> real_scalar (Mex.prhs i k)) ->
      IntegrateFsGreen3d i = (Fail (Beyond (Mex.nrhs i)), Mex.mkPlhs None None)).
Proof.
  intros Hp Hg.
  assert (Hu : forall k, 0 <= k <= 7 -> u32 (Mex.greenPos i + k) = Mex.greenPos i + k).
  { intros k Hk. apply u32_small. split; [lia|].
    apply Z.le_lt_trans with 12; [lia|reflexivity]. }
  split.
  - intros Hn j. unfold IntegrateFsGreen3d. cbv zeta. rewrite Hp.
    match goal with
    | |- fst (match ?m with _ => _ end) <> _ =>
        assert (Hm : m <> Fail (Beyond j)); [|destruct m as [[]|f]; cbn [fst]; [discriminate|congruence]]
    end.
    repeat (apply bind_not_beyond; [|intros _]);
      try apply throw_if_not_beyond;
      try (apply scalar_not_beyond; rewrite Hu by lia; lia);
      try (apply vector_not_beyond; rewrite Hu by lia; lia).
    discriminate.
  - intros Hn Hs. unfold IntegrateFsGreen3d. cbv zeta. rewrite Hp.
    assert (Hnu : u32 (Mex.nrhs i) = Mex.nrhs i).
    { apply u32_small. split; [lia|]. apply Z.le_lt_trans with 12; [lia|reflexivity]. }
    rewrite Hnu, !Hu by lia.
    assert (H7 : (Mex.nrhs i >? Mex.greenPos i + 7) = false).
    { rewrite Z.gtb_ltb. apply Z.ltb_ge. lia. }
    assert (H5 : (Mex.nrhs i <? Mex.greenPos i + 5) = false) by (apply Z.ltb_ge; lia).
    rewrite H7, H5. cbn [throw_if bind].
    rewrite !(scalar_ok i 1), !(scalar_ok i 2), !(scalar_ok i 3), !(scalar_ok i 4)
      by (rewrite Hu by lia; first [lia | apply Hs; lia]).
    cbn [bind].
    assert (Hc : Mex.nrhs i = Mex.greenPos i + 5 \/ Mex.nrhs i = Mex.greenPos i + 6) by lia.
    destruct Hc as [Hc|Hc].
    + rewrite (scalar_beyond i 5) by (rewrite Hu by lia; lia). cbn [bind].
      rewrite Hu by lia. rewrite Hc. reflexivity.
    + rewrite (scalar_ok i 5) by (rewrite Hu by lia; first [lia | apply Hs; lia]).
      cbn [bind]. rewrite (vector_beyond i 6) by (rewrite Hu by lia; lia). cbn [bind].
      rewrite Hu by lia. rewrite Hc. reflexivity.
Qed.

(** [strcasecmp] compares modulo case: two strings equal to a third are
    compared as that one is. *)
Lemma strcasecmp_eq_trans s a b :
  strcasecmp_eq s a = true -> strcasecmp_eq s b = strcasecmp_eq a b.
Proof.
  revert a b. induction s as [|x s IH]; intros [|y a] [|z b]; cbn; try discriminate; auto.
  intros H. apply andb_true_iff in H. destruct H as (H1 & H2).
  apply Ascii.eqb_eq in H1. rewrite H1, (IH a b H2). reflexivity.
Qed.

(** X22.  The name of the Green's function is compared as a whole and
    without regard to case, and no name hides another: [mexFunction]
    dispatches to an entry point exactly when [green] equals its name
    modulo case, whatever the order of the comparisons, and to none
    otherwise. *)
Theorem green_is_matched_by_name green e :
  entry_of green = Some e <-> strcasecmp_eq green (name_of e) = true.
Proof.
  split.
  - unfold entry_of.
    repeat match goal with
      | |- (if strcasecmp_eq green ?n then _ else _) = _ -> _ =>
          let H := fresh "H" in
          destruct (strcasecmp_eq green n) eqn:H;
          [intros Hs; injection Hs as <-; exact H|]
      end.
    discriminate.
  - intros H. unfold entry_of.
    rewrite !(strcasecmp_eq_trans _ _ _ H).
    destruct e; reflexivity.
Qed.

End EntryPoints.

Lemma fixed_count_entry_points_witness :
  @Gateway.integrate Fixtures.ext Gateway.Fsgreen2d_outofplane0 Examples.cached_inputs
  = (Gateway.Fail (Gateway.Error Gateway.wrong_number), Mex.mkPlhs None None).
Proof.
  destruct (@fixed_count_entry_points Fixtures.ext Gateway.Fsgreen2d_outofplane0
              Examples.cached_inputs 5) as (_ & H).
  - reflexivity.
  - cbn. lia.
  - apply H; [discriminate|reflexivity].
Defined.

Lemma fsgreen3d_count_check_witness :
  Gateway.IntegrateFsGreen3d Examples.short_inputs
  = (Gateway.Fail (Gateway.Beyond 9), Mex.mkPlhs None None).
Proof.
  destruct (fsgreen3d_count_check Examples.short_inputs) as (_ & H).
  - reflexivity.
  - cbn. lia.
  - apply H.
    + cbn. lia.
    + intros k _. repeat split.
Defined.

